(** * A shallow embedding of the AppX scanner ([src/scanner.ts]).

    The scanner walks a mini-program project from the pages listed in
    [app.json], resolves the components declared in each manifest
    ([usingComponents]), parses each markup file and records fatal errors
    and warnings in a two-severity ledger.

    External collaborators are kept abstract where the source only uses
    them through their results: the file system is a finite list of file
    paths (relative to the project root), JSON decoding of a manifest
    yields its [usingComponents] table (or fails), and the markup parser
    [parseXml] yields a tree with positions plus its syntax warnings. *)

From Stdlib Require Import String Ascii List ZArith Lia Bool DecimalString.
Import ListNotations.
Open Scope string_scope.
Open Scope Z_scope.
Set Warnings "-register-all".

(** ** JavaScript string helpers *)

Module JS.

Definition nl : ascii := ascii_of_nat 10.
Definition tab : ascii := ascii_of_nat 9.

(** [String.prototype.split] on a one-character separator. *)
Fixpoint split_on (sep : ascii) (s : string) : list string :=
  match s with
  | EmptyString => [EmptyString]
  | String c rest =>
      let parts := split_on sep rest in
      if Ascii.eqb c sep then EmptyString :: parts
      else match parts with
           | p :: ps => String c p :: ps
           | [] => [String c EmptyString]
           end
  end.

(** [String.prototype.includes]. *)
Fixpoint includes (sub s : string) : bool :=
  if String.prefix sub s then true
  else match s with
       | EmptyString => false
       | String _ rest => includes sub rest
       end.

(** [String.prototype.startsWith]. *)
Definition startsWith (s pre : string) : bool := String.prefix pre s.

(** [String.prototype.endsWith]. *)
Definition endsWith (s suf : string) : bool :=
  (String.length suf <=? String.length s)%nat &&
  String.eqb (substring (String.length s - String.length suf) (String.length suf) s) suf.

(** Normalisation of a [slice] index: negative counts from the end. *)
Definition slice_index (len : nat) (i : Z) : nat :=
  if i <? 0 then Z.to_nat (Z.max 0 (Z.of_nat len + i))
  else Z.to_nat (Z.min i (Z.of_nat len)).

(** [String.prototype.slice(start, end)]. *)
Definition slice (s : string) (start end_ : Z) : string :=
  let a := slice_index (String.length s) start in
  let b := slice_index (String.length s) end_ in
  substring a (b - a) s.

(** [s.slice(1)]. *)
Definition slice_from (s : string) (start : Z) : string :=
  slice s start (Z.of_nat (String.length s)).

(** [' '.repeat(n)] and friends. *)
Fixpoint repeat_str (s : string) (n : nat) : string :=
  match n with
  | O => EmptyString
  | S n' => s ++ repeat_str s n'
  end.

(** [str.replace(/^\t+/, m => '  '.repeat(m.length))]. *)
Fixpoint widen_leading_tabs (s : string) : string :=
  match s with
  | String c rest => if Ascii.eqb c tab then "  " ++ widen_leading_tabs rest else s
  | EmptyString => EmptyString
  end.

End JS.

(** ** Error records and [reprStr] *)

(** [IErrorRef]: every field is optional in the source. *)
Record IErrorRef := mkErrorRef {
  er_line : option Z;
  er_col : option Z;
  er_message : option string;
  er_content : option (list string)
}.

Definition msgError (m : string) : IErrorRef :=
  {| er_line := None; er_col := None; er_message := Some m; er_content := None |}.

(** The [while] loop of [reprStr], walking the lines from index [line]. *)
Fixpoint scan_lines (ls : list string) (line col : Z) : Z * Z :=
  match ls with
  | [] => (line, col)
  | l :: rest =>
      if Z.of_nat (String.length l) <? col
      then scan_lines rest (line + 1) (col - (Z.of_nat (String.length l) + 1))
      else (line, col)
  end.

(** The caret indentation loop: [for (let i = start; i < col; i += 1)]. *)
Fixpoint cursor_loop (currentLine : string) (n : nat) (i cursor : Z) : Z :=
  match n with
  | O => cursor
  | S n' =>
      let w := match String.get (Z.to_nat i) currentLine with
               | Some c => if (127 <? Z.of_nat (nat_of_ascii c))%Z || Ascii.eqb c JS.tab
                           then 2 else 1
               | None => 1   (* charCodeAt gives NaN, currentLine[i] is undefined *)
               end in
      cursor_loop currentLine n' (i + 1) (cursor + w)
  end.

(** [reprStr]: [None] is the [TypeError] raised by [lines[line].length]
    when the line scan runs past the last line. *)
Definition reprStr (input : string) (offset : Z) (message : string) : option IErrorRef :=
  let lines := JS.split_on JS.nl input in
  let '(line, col) := scan_lines lines 0 offset in
  match nth_error lines (Z.to_nat line) with
  | None => None
  | Some currentLine =>
      let start := Z.max 0 (col - 100) in
      let end_ := Z.min (col + 100) (Z.of_nat (String.length currentLine)) in
      let codeLine := (if 0 <? start then "..." else "")
                        ++ JS.widen_leading_tabs (JS.slice currentLine start end_) in
      let cursor := cursor_loop currentLine (Z.to_nat (col - start)) start
                      (if 0 <? start then 3 else 0) in
      Some {| er_line := Some (line + 1);
              er_col := Some (col + 1);
              er_message := Some message;
              er_content := Some [codeLine; JS.repeat_str " " (Z.to_nat cursor) ++ "^"] |}
  end.

(** Length of a list of lines counted with one separator after each line. *)
Definition span_len (ls : list string) : nat :=
  fold_right (fun l acc => S (String.length l) + acc)%nat 0%nat ls.


(** ** The markup tree produced by [parseXml] *)

(** Byte-offset span of a node ([posOpen]). *)
Record Span := mkSpan { sp_start : Z; sp_end : Z }.

(** An attribute: its value when [typeof attr.value === 'string'], and
    [attr.position.end]. *)
Record Attr := mkAttr { at_value : option string; at_end : Z }.

(** Node kinds seen by [traverse]: elements, text nodes, and the other
    kinds (document root, comments, ...) which only carry children. *)
Inductive INode :=
| Element (name : string) (attrs : list Attr) (posOpen : option Span) (children : list INode)
| TextNode (value : string) (posOpen : option Span)
| OtherNode (children : list INode).

Definition node_posOpen (n : INode) : option Span :=
  match n with
  | Element _ _ po _ => po
  | TextNode _ po => po
  | OtherNode _ => None
  end.

(** Result of [parseXml(content)]: the text, the tree and the syntax
    warnings (offset, message) whose [input] is the parsed text. *)
Record Markup := mkMarkup {
  mk_content : string;
  mk_root : INode;
  mk_warnings : list (Z * string)
}.

(** ** The error ledger *)

(** One [Map<string, IErrorRef[]>] bucket, in insertion order.  An entry
    [None] is a JavaScript [undefined] pushed into a list. *)
Definition Ledger := list (string * list (option IErrorRef)).

Record Errors := mkErrors { fatal : Ledger; warning : Ledger }.

Definition emptyErrors : Errors := {| fatal := []; warning := [] |}.

Inductive Severity := Fatal | Warning.

Fixpoint ledger_get (l : Ledger) (k : string) : option (list (option IErrorRef)) :=
  match l with
  | [] => None
  | (k', v) :: r => if String.eqb k k' then Some v else ledger_get r k
  end.

(** [list.push(...)] on the list under [k], creating it at the end. *)
Fixpoint ledger_push (l : Ledger) (k : string) (items : list (option IErrorRef)) : Ledger :=
  match l with
  | [] => [(k, items)]
  | (k', v) :: r => if String.eqb k k' then (k', (v ++ items)%list) :: r
                    else (k', v) :: ledger_push r k items
  end.

(** [addError(entry, error, type)]; a single error is [[Some e]], an
    array is mapped with [Some]. *)
Definition addError (errs : Errors) (entry : string) (items : list (option IErrorRef))
    (type : Severity) : Errors :=
  match type with
  | Fatal => {| fatal := ledger_push (fatal errs) entry items; warning := warning errs |}
  | Warning => {| fatal := fatal errs; warning := ledger_push (warning errs) entry items |}
  end.

(** ** [extractComponents] *)

Definition builtIns : list string :=
  ["block"; "button"; "canvas"; "checkbox"; "checkbox-group"; "cover-image";
   "cover-view"; "form"; "icon"; "image"; "import-sjs"; "input"; "label";
   "lottie"; "map"; "movable-area"; "movable-view"; "navigator"; "page-meta";
   "picker"; "picker-view"; "picker-view-column"; "progress"; "radio";
   "radio-group"; "rich-text"; "scroll-view"; "slider"; "slot"; "swiper";
   "swiper-item"; "switch"; "template"; "text"; "textarea"; "video"; "view";
   "web-view"].

(** [builtIns.includes(name)]. *)
Definition isBuiltIn (name : string) : bool := existsb (String.eqb name) builtIns.

Record IDependency := mkDep { dep_node : INode; dep_modulePath : option string }.

(** A computation on the ledger that may throw; the ledger keeps the
    errors added before the throw. *)
Inductive Outcome (A : Type) :=
| Ret (errs : Errors) (a : A)
| Thrown (errs : Errors).
Arguments Ret {A}.
Arguments Thrown {A}.

Fixpoint assoc_get {A} (l : list (string * A)) (k : string) : option A :=
  match l with
  | [] => None
  | (k', v) :: r => if String.eqb k k' then Some v else assoc_get r k
  end.

(** [Map.prototype.set]: update in place, or append. *)
Fixpoint assoc_set {A} (l : list (string * A)) (k : string) (v : A) : list (string * A) :=
  match l with
  | [] => [(k, v)]
  | (k', v') :: r => if String.eqb k k' then (k', v) :: r else (k', v') :: assoc_set r k v
  end.

Fixpoint assoc_delete {A} (l : list (string * A)) (k : string) : list (string * A) :=
  match l with
  | [] => []
  | (k', v') :: r => if String.eqb k k' then r else (k', v') :: assoc_delete r k
  end.

Definition assoc_has {A} (l : list (string * A)) (k : string) : bool :=
  match assoc_get l k with Some _ => true | None => false end.

(** [value.includes('{{') !== value.includes('}}')]. *)
Definition unmatched (v : string) : bool :=
  xorb (JS.includes "{{" v) (JS.includes "}}" v).

(** [(node.posOpen?.end || -1) + 1]. *)
Definition text_offset (po : option Span) : Z :=
  match po with
  | Some sp => if sp_end sp =? 0 then 0 else sp_end sp + 1
  | None => 0
  end.

(** [(component.node.posOpen?.start ?? -1) + 1]. *)
Definition element_offset (po : option Span) : Z :=
  match po with
  | Some sp => sp_start sp + 1
  | None => 0
  end.

Section Extract.

Variable content : string.
Variable entry : string.

(** The attribute loop of the [traverse] callback. *)
Fixpoint check_attrs (attrs : list Attr) (errs : Errors) : Outcome unit :=
  match attrs with
  | [] => Ret errs tt
  | a :: rest =>
      match at_value a with
      | Some v =>
          if unmatched v then
            match reprStr content (at_end a) "Unmatched brackets" with
            | Some r => check_attrs rest (addError errs entry [Some r] Warning)
            | None => Thrown errs
            end
          else check_attrs rest errs
      | None => check_attrs rest errs
      end
  end.

(** The text-node branch of the [traverse] callback. *)
Definition check_text (value : string) (po : option Span) (errs : Errors) : Outcome unit :=
  if negb (String.eqb value "") && unmatched value then
    match reprStr content (text_offset po) "Unmatched brackets" with
    | Some r => Ret (addError errs entry [Some r] Warning) tt
    | None => Thrown errs
    end
  else Ret errs tt.

(** [traverse(root, callback)]: pre-order, the callback on a node before its
    children; [deps] is the [Map<string, IDependency>] being filled. *)
Fixpoint visit (n : INode) (deps : list (string * IDependency)) (errs : Errors)
    : Outcome (list (string * IDependency)) :=
  let visit_list := fix visit_list (ns : list INode) deps errs :=
    match ns with
    | [] => Ret errs deps
    | m :: rest =>
        match visit m deps errs with
        | Ret errs' deps' => visit_list rest deps' errs'
        | Thrown errs' => Thrown errs'
        end
    end in
  match n with
  | Element name attrs po children =>
      if String.eqb name "" then visit_list children deps errs
      else
        let deps' := if assoc_has deps name then deps
                     else (deps ++ [(name, {| dep_node := n; dep_modulePath := None |})])%list in
        match check_attrs attrs errs with
        | Ret errs' _ => visit_list children deps' errs'
        | Thrown errs' => Thrown errs'
        end
  | TextNode value po =>
      match check_text value po errs with
      | Ret errs' _ => Ret errs' deps
      | Thrown errs' => Thrown errs'
      end
  | OtherNode children => visit_list children deps errs
  end.

Variable definitions : list (string * string).

(** The loop [for (const [name, component] of deps)], with the [unused]
    copy of [definitions]. *)
Fixpoint resolve_deps (deps : list (string * IDependency)) (unused : list (string * string))
    (errs : Errors) : Outcome (list (string * IDependency) * list (string * string)) :=
  match deps with
  | [] => Ret errs ([], unused)
  | (name, d) :: rest =>
      if isBuiltIn name then
        match resolve_deps rest unused errs with
        | Ret errs' (ds, un) =>
            Ret errs' ((name, {| dep_node := dep_node d; dep_modulePath := Some ("@@/" ++ name) |}) :: ds, un)
        | Thrown errs' => Thrown errs'
        end
      else match assoc_get definitions name with
      | Some p =>
          match resolve_deps rest (assoc_delete unused name) errs with
          | Ret errs' (ds, un) =>
              Ret errs' ((name, {| dep_node := dep_node d; dep_modulePath := Some p |}) :: ds, un)
          | Thrown errs' => Thrown errs'
          end
      | None =>
          match reprStr content (element_offset (node_posOpen (dep_node d)))
                  ("Undefined component: " ++ name) with
          | Some r =>
              match resolve_deps rest unused (addError errs entry [Some r] Fatal) with
              | Ret errs' (ds, un) => Ret errs' ((name, d) :: ds, un)
              | Thrown errs' => Thrown errs'
              end
          | None => Thrown errs
          end
      end
  end.

(** [for (const [name] of unused) this.addError(entry, ...)]. *)
Definition report_unused (unused : list (string * string)) (errs : Errors) : Errors :=
  fold_left (fun e '(name, _) => addError e entry [Some (msgError ("Unused definition: " ++ name))] Warning)
    unused errs.

(** [warnings.map(reprStr)]: throws at the first failing warning. *)
Fixpoint map_reprStr (ws : list (Z * string)) : option (list IErrorRef) :=
  match ws with
  | [] => Some []
  | (off, msg) :: rest =>
      match reprStr content off msg, map_reprStr rest with
      | Some r, Some rs => Some (r :: rs)
      | _, _ => None
      end
  end.

End Extract.

(** [extractComponents(entry, definitions)] on the parsed markup file. *)
Definition extractComponents (entry : string) (definitions : list (string * string))
    (mk : Markup) (errs : Errors) : Outcome (list IDependency) :=
  let content := mk_content mk in
  let warned :=
    match mk_warnings mk with
    | [] => Some errs
    | ws => match map_reprStr content ws with
            | Some rs => Some (addError errs entry (map Some rs) Warning)
            | None => None
            end
    end in
  match warned with
  | None => Thrown errs
  | Some errs1 =>
      match visit content entry (mk_root mk) [] errs1 with
      | Thrown errs2 => Thrown errs2
      | Ret errs2 deps =>
          match resolve_deps content entry definitions deps definitions errs2 with
          | Thrown errs3 => Thrown errs3
          | Ret errs3 (ds, unused) =>
              Ret (report_unused entry unused errs3) (map snd ds)
          end
      end
  end.

(** ** Paths ([std/path], posix flavour) *)

Module Path.

Definition slash : ascii := "/"%char.

Fixpoint to_list (s : string) : list ascii :=
  match s with EmptyString => [] | String c r => c :: to_list r end.

Fixpoint of_list (cs : list ascii) : string :=
  match cs with [] => EmptyString | c :: r => String c (of_list r) end.

(** The scan of [dirname], from the last index down to index 1; [rcs] is
    the reversed text, [i] the index of its head. *)
Fixpoint dirname_scan (rcs : list ascii) (i : nat) (matchedSlash : bool) : option nat :=
  match rcs with
  | [] | [_] => None
  | c :: rest =>
      if Ascii.eqb c slash then
        (if matchedSlash then dirname_scan rest (pred i) matchedSlash else Some i)
      else dirname_scan rest (pred i) false
  end.

Definition dirname (p : string) : string :=
  match p with
  | EmptyString => "."
  | String c _ =>
      let hasRoot := Ascii.eqb c slash in
      match dirname_scan (rev (to_list p)) (pred (String.length p)) true with
      | None => if hasRoot then "/" else "."
      | Some end_ =>
          if hasRoot && Nat.eqb end_ 1 then "//" else substring 0 end_ p
      end
  end.

(** The segments of a path, split on ['/']. *)
Definition segments (p : string) : list string := JS.split_on slash p.

(** [normalizeString]: drop empty and ["."] segments; [".."] removes the
    previous segment unless it is [".."] itself, and is kept only when the
    path may go above its root. *)
Fixpoint norm_segments (allowAboveRoot : bool) (acc : list string) (segs : list string)
    : list string :=
  match segs with
  | [] => rev acc
  | s :: rest =>
      if String.eqb s "" || String.eqb s "." then norm_segments allowAboveRoot acc rest
      else if String.eqb s ".." then
        match acc with
        | top :: acc' =>
            if String.eqb top ".." then
              norm_segments allowAboveRoot (if allowAboveRoot then ".." :: acc else acc) rest
            else norm_segments allowAboveRoot acc' rest
        | [] => norm_segments allowAboveRoot (if allowAboveRoot then [".."] else []) rest
        end
      else norm_segments allowAboveRoot (s :: acc) rest
  end.

Fixpoint concat_with (sep : string) (ss : list string) : string :=
  match ss with
  | [] => ""
  | [s] => s
  | s :: rest => s ++ sep ++ concat_with sep rest
  end.

Definition normalize (p : string) : string :=
  match p with
  | EmptyString => "."
  | String c _ =>
      let isAbsolute := Ascii.eqb c slash in
      let trailing := JS.endsWith p "/" in
      let body := concat_with "/" (norm_segments (negb isAbsolute) [] (segments p)) in
      let body := if String.eqb body "" && negb isAbsolute then "." else body in
      let body := if negb (String.eqb body "") && trailing then body ++ "/" else body in
      if isAbsolute then "/" ++ body else body
  end.

(** [join(...paths)]: the non-empty arguments glued with ['/'], then
    normalised. *)
Definition join (ps : list string) : string :=
  match filter (fun s => negb (String.eqb s "")) ps with
  | [] => "."
  | q :: qs => normalize (fold_left (fun acc s => acc ++ "/" ++ s) qs q)
  end.

End Path.

(** ** Projects and the scanner state *)

(** A project on disk: [p_root] is [path.resolve(entry)], [p_files] the
    files below it (relative paths), [p_pages] the [pages] of [app.json],
    [p_manifest f] the [usingComponents] table of the JSON file [f] ([None]
    when [JSON.parse] throws), [p_markup f] what [parseXml] returns on the
    text of [f]. *)
Record Project := mkProject {
  p_root : string;
  p_files : list string;
  p_pages : list string;
  p_manifest : string -> option (list (string * string));
  p_markup : string -> Markup
}.

Record IComponent := mkComponent {
  c_entry : string;
  c_deps : list IDependency;
  c_defs : option (list (string * string))
}.

(** The fields of [AppXScanner] used by the checks.  [trace] is a ghost
    log: the entries [checkComponent] went past its [has] test with, in
    order. *)
Record Scanner := mkScanner {
  components : list (string * IComponent);
  errors : Errors;
  pages : list string;
  trace : list string
}.

(** The [constructor]. *)
Definition newScanner : Scanner :=
  {| components := []; errors := emptyErrors; pages := []; trace := [] |}.

Definition set_errors (st : Scanner) (e : Errors) : Scanner :=
  {| components := components st; errors := e; pages := pages st; trace := trace st |}.

Definition set_component (st : Scanner) (entry : string) (c : IComponent) : Scanner :=
  {| components := assoc_set (components st) entry c; errors := errors st;
     pages := pages st; trace := trace st |}.

Definition log_entry (st : Scanner) (entry : string) : Scanner :=
  {| components := components st; errors := errors st; pages := pages st;
     trace := (trace st ++ [entry])%list |}.

(** [Set.prototype.add] on an insertion-ordered set. *)
Definition set_add (s : list string) (x : string) : list string :=
  if existsb (String.eqb x) s then s else (s ++ [x])%list.

Definition add_page (st : Scanner) (page : string) : Scanner :=
  {| components := components st; errors := errors st; pages := set_add (pages st) page;
     trace := trace st |}.

(** How a run ends: normally, by an exception that escapes [check] (a
    manifest [JSON.parse] failure), or (for the fuelled embedding of the
    recursion) out of fuel. *)
Inductive Run :=
| Done (st : Scanner)
| Abort (st : Scanner)
| OutOfFuel.

Section Scan.

Variable proj : Project.

(** [assertFile(f)]: [Deno.stat] on [root/f] answers a regular file. *)
Definition isFile (f : string) : bool := existsb (String.eqb f) (p_files proj).

(** The first of the four sibling files whose [assertFile] throws. *)
Definition firstMissing (entry : string) : option string :=
  find (fun f => negb (isFile f))
    [entry ++ ".json"; entry ++ ".js"; entry ++ ".axml"; entry ++ ".acss"].

(** The three addressing modes of [extractDefinitions]. *)
Definition modulePathOf (entry value : string) : string :=
  if JS.startsWith value "/" then JS.slice_from value 1
  else if JS.startsWith value "." then Path.join [Path.dirname entry; value]
  else "node_modules/" ++ value.

(** The loop of [extractDefinitions] over [Object.entries(usingComponents)]. *)
Fixpoint collect_defs (entry : string) (uc : list (string * string))
    (defs : list (string * string)) (errs : Errors) : list (string * string) * Errors :=
  match uc with
  | [] => (defs, errs)
  | (key, value) :: rest =>
      let modulePath := modulePathOf entry value in
      if isFile (modulePath ++ ".json")
      then collect_defs entry rest (assoc_set defs key modulePath) errs
      else collect_defs entry rest defs
             (addError errs entry [Some (msgError ("Component not found: " ++ key))] Fatal)
  end.

Definition extractDefinitions (entry : string) (uc : list (string * string)) (errs : Errors)
    : list (string * string) * Errors :=
  collect_defs entry uc [] errs.

(** The loop [for (const [, modulePath] of defs.components)] of
    [checkComponent], given the recursive call. *)
Fixpoint check_defs (rec : string -> Scanner -> Run) (ds : list (string * string)) (st : Scanner)
    : Run :=
  match ds with
  | [] => Done st
  | (_, modulePath) :: rest =>
      if assoc_has (components st) modulePath then check_defs rec rest st
      else match rec modulePath st with
           | Done st' => check_defs rec rest st'
           | r => r
           end
  end.

(** [checkComponent(entry)] once past its [has] test, given the recursive
    call for the loop. *)
Definition check_new_component (rec : string -> Scanner -> Run) (entry : string) (st : Scanner)
    : Run :=
  let st := log_entry st entry in
  match firstMissing entry with
  | Some f =>
      let st := set_errors st
                  (addError (errors st) entry [Some (msgError ("Expect file: " ++ f))] Warning) in
      Done (set_component st entry {| c_entry := entry; c_deps := []; c_defs := None |})
  | None =>
      match p_manifest proj (entry ++ ".json") with
      | None => Abort st
      | Some uc =>
          let '(defs, errs1) := extractDefinitions entry uc (errors st) in
          let '(deps, errs2) :=
            match extractComponents entry defs (p_markup proj (entry ++ ".axml")) errs1 with
            | Ret e ds => (ds, e)
            | Thrown e => ([], addError e entry [None] Fatal)   (* err.error is undefined *)
            end in
          let st := set_component (set_errors st errs2) entry
                      {| c_entry := entry; c_deps := deps; c_defs := Some defs |} in
          check_defs rec defs st
      end
  end.

(** [checkComponent(entry)], with fuel bounding the recursion depth. *)
Fixpoint checkComponent (fuel : nat) (entry : string) (st : Scanner) : Run :=
  match fuel with
  | O => OutOfFuel
  | S fuel' =>
      if assoc_has (components st) entry then Done st
      else check_new_component (checkComponent fuel') entry st
  end.

(** [checkApp()]. *)
Fixpoint checkPages (fuel : nat) (ps : list string) (st : Scanner) : Run :=
  match ps with
  | [] => Done st
  | page :: rest =>
      match checkComponent fuel page (add_page st page) with
      | Done st' => checkPages fuel rest st'
      | r => r
      end
  end.

Definition checkApp (fuel : nat) (st : Scanner) : Run := checkPages fuel (p_pages proj) st.

(** The files [walk] yields that [checkUnused] looks at: the [skip]
    pattern [/\/node_modules\//] is tested on the full path. *)
Definition walked (f : string) : bool :=
  negb (JS.includes "/node_modules/" (p_root proj ++ "/" ++ f)).

(** The [unused] set of [checkUnused], in insertion order. *)
Definition orphans (comps : list (string * IComponent)) : list string :=
  fold_left (fun acc f =>
      if walked f && JS.endsWith f ".axml" then
        let componentEntry := JS.slice f 0 (-5) in
        if assoc_has comps componentEntry then acc else set_add acc componentEntry
      else acc)
    (p_files proj) [].

Definition nat_to_string (n : nat) : string := NilEmpty.string_of_uint (Nat.to_uint n).

Definition orphan_title (n : nat) : string :=
  nat_to_string n ++ " extraneous components are found".

(** [checkUnused()]. *)
Definition checkUnused (st : Scanner) : Scanner :=
  let unused := orphans (components st) in
  match unused with
  | [] => st
  | _ =>
      let title := orphan_title (List.length unused) in
      set_errors st (fold_left (fun e u => addError e title [Some (msgError u)] Warning)
                       unused (errors st))
  end.

(** [check()] up to its console output and report rendering. *)
Definition check (fuel : nat) (st : Scanner) : Run :=
  match checkApp fuel (set_errors st emptyErrors) with
  | Done st' => Done (checkUnused st')
  | r => r
  end.

End Scan.

(** ** Per-name reading of the resolution loop of [extractComponents] *)

(** A name that is neither built in nor defined. *)
Definition undefined_name (definitions : list (string * string)) (name : string) : bool :=
  negb (isBuiltIn name) && negb (assoc_has definitions name).

(** The error the loop records for an undefined name. *)
Definition undefined_error (content name : string) (d : IDependency) : option IErrorRef :=
  reprStr content (element_offset (node_posOpen (dep_node d))) ("Undefined component: " ++ name).

(** The dependency after the loop body ran on it. *)
Definition resolved_dep (definitions : list (string * string)) (nd : string * IDependency)
    : string * IDependency :=
  let '(name, d) := nd in
  if isBuiltIn name then (name, {| dep_node := dep_node d; dep_modulePath := Some ("@@/" ++ name) |})
  else match assoc_get definitions name with
       | Some p => (name, {| dep_node := dep_node d; dep_modulePath := Some p |})
       | None => (name, d)
       end.

(** The [unused] map after the loop. *)
Definition unused_after (definitions : list (string * string)) (deps : list (string * IDependency))
    (unused : list (string * string)) : list (string * string) :=
  fold_left (fun u '(name, _) =>
      if isBuiltIn name then u
      else if assoc_has definitions name then assoc_delete u name else u) deps unused.

(** The ledger after the loop: one fatal record per undefined name. *)
Definition errors_after (content entry : string) (definitions : list (string * string))
    (deps : list (string * IDependency)) (errs : Errors) : Errors :=
  fold_left (fun e '(name, d) =>
      if undefined_name definitions name
      then addError e entry [undefined_error content name d] Fatal else e) deps errs.

(** ** Predicates used to state and prove properties of runs *)

(** [x] is recorded under [k] in the bucket [l]. *)
Definition recorded (l : Ledger) (k : string) (x : option IErrorRef) : Prop :=
  exists items, ledger_get l k = Some items /\ In x items.

(** Every component of [s1] is still there, unchanged, in [s2]. *)
Definition preserved (s1 s2 : Scanner) : Prop :=
  forall k c, assoc_get (components s1) k = Some c -> assoc_get (components s2) k = Some c.

(** The component [x] of [s], if any, has definitions when its four files
    exist, and all their targets are components of [s]. *)
Definition closed (proj : Project) (s : Scanner) (x : string) : Prop :=
  forall c, assoc_get (components s) x = Some c ->
    (firstMissing proj x = None -> exists d, c_defs c = Some d) /\
    (forall d, c_defs c = Some d -> forall k p, In (k, p) d -> assoc_has (components s) p = true).

(** Every component of [s2] that is not one of [s1] is closed in [s2]. *)
Definition new_closed (proj : Project) (s1 s2 : Scanner) : Prop :=
  forall x, assoc_has (components s1) x = false -> assoc_has (components s2) x = true ->
    closed proj s2 x.

(** The logical paths a run can insert: the pages, and the files with
    their last five characters dropped (a [<path>.json] gives [<path>]). *)
Definition universe (proj : Project) : list string :=
  (p_pages proj ++ map (fun f => JS.slice f 0 (-5)) (p_files proj))%list.

(** How many of them are not components yet. *)
Definition pending (proj : Project) (s : Scanner) : nat :=
  List.length (filter (fun u => negb (assoc_has (components s) u)) (universe proj)).

(** The ghost trace has no repetition and only names components. *)
Definition trace_ok (s : Scanner) : Prop :=
  NoDup (trace s) /\ forall x, In x (trace s) -> assoc_has (components s) x = true.

(** ** A concrete project: [A]'s markup uses [B], [B]'s uses [A], [A] also
    declares an alias [u] to [U] that no markup uses, and [C.axml] lies
    on disk with no component reaching it. *)
Definition cycle_files : list string :=
  ["app.json"; "A.json"; "A.js"; "A.axml"; "A.acss"; "B.json"; "B.js"; "B.axml"; "B.acss";
   "U.json"; "U.js"; "U.axml"; "U.acss"; "C.axml"].

Definition cycle_manifest (f : string) : option (list (string * string)) :=
  if String.eqb f "A.json" then Some [("b", "/B"); ("u", "/U")]
  else if String.eqb f "B.json" then Some [("a", "./A")]
  else if String.eqb f "U.json" then Some []
  else None.

Definition cycle_markup (f : string) : Markup :=
  if String.eqb f "A.axml" then mkMarkup "<b/>" (OtherNode [Element "b" [] (Some (mkSpan 0 4)) []]) []
  else if String.eqb f "B.axml" then mkMarkup "<a/>" (OtherNode [Element "a" [] (Some (mkSpan 0 4)) []]) []
  else mkMarkup "" (OtherNode []) [].

Definition cycle_project : Project :=
  {| p_root := "/app"; p_files := cycle_files; p_pages := ["A"];
     p_manifest := cycle_manifest; p_markup := cycle_markup |}.

(** What a run leaves of the trace invariant: a finished run satisfies it,
    an aborted one still has no repetition. *)
Definition trace_result (r : Run) : Prop :=
  match r with
  | Done s => trace_ok s
  | Abort s => NoDup (trace s)
  | OutOfFuel => True
  end.

(** ** [getEntryDesc] and [path.posix.basename] *)

(** The loop of [basename(path)] (no [ext]), from the last index down:
    [end_] is [None] while it is [-1]; the result is [(start, end)]. *)
Fixpoint basename_scan (rcs : list ascii) (i : nat) (end_ : option nat) (matchedSlash : bool)
    : nat * option nat :=
  match rcs with
  | [] => (0%nat, end_)
  | c :: rest =>
      if Ascii.eqb c Path.slash then
        if matchedSlash then basename_scan rest (pred i) end_ matchedSlash
        else (S i, end_)
      else match end_ with
           | None => basename_scan rest (pred i) (Some (S i)) false
           | Some _ => basename_scan rest (pred i) end_ matchedSlash
           end
  end.

Definition basename (p : string) : string :=
  let '(start, end_) := basename_scan (rev (Path.to_list p)) (pred (String.length p)) None true in
  match end_ with
  | None => ""
  | Some e => JS.slice p (Z.of_nat start) (Z.of_nat e)
  end.

(** [entry.replace(/\/index(?:\.mini)?$/, '')]: a match of the anchored
    pattern is a suffix, and the leftmost one is the longer suffix
    ["/index.mini"] when present. *)
Definition strip_index (e : string) : string :=
  if JS.endsWith e "/index.mini" then JS.slice e 0 (-11)
  else if JS.endsWith e "/index" then JS.slice e 0 (-6)
  else e.

(** [entry.replace(/\/src$/, '')]. *)
Definition strip_src (e : string) : string :=
  if JS.endsWith e "/src" then JS.slice e 0 (-4) else e.

Definition dq : string := String (ascii_of_nat 34) EmptyString.

Record EntryDesc := mkEntryDesc { ed_name : string; ed_external : bool }.

(** [getEntryDesc(entry, strip)], the regular expression given by its
    replacement function. *)
Definition getEntryDesc (entry : string) (strip : string -> string) : EntryDesc :=
  let entry := strip entry in
  let external := JS.startsWith entry "node_modules/" in
  {| ed_name := if external
                then "<span class=" ++ dq ++ "external" ++ dq ++ ">" ++ JS.slice_from entry 13
                     ++ "</span>"
                else basename entry;
     ed_external := external |}.

(** ** [generateHierarchy] *)

(** The [p] field of a page or child node: [pi], [f] (absent on page
    nodes) and [c] ([null] is [None]). *)
Record HProps := mkHProps { hp_pi : nat; hp_f : option bool; hp_c : option string }.

(** A page or child node; [hn_c] lists the store indices of its children
    (the objects pushed into [node.c]). *)
Record HNode := mkHNode { hn_v : string; hn_c : list nat; hn_d : nat; hn_p : HProps }.

(** The [rootNode]: [v], the indices of its page nodes, and [d = 0]. *)
Record HRoot := mkHRoot { hr_v : string; hr_c : list nat }.

Fixpoint upd {A} (l : list A) (i : nat) (f : A -> A) : list A :=
  match l, i with
  | [], _ => []
  | x :: r, O => f x :: r
  | x :: r, S i' => x :: upd r i' f
  end.

Definition add_child (id : nat) (n : HNode) : HNode :=
  {| hn_v := hn_v n; hn_c := (hn_c n ++ [id])%list; hn_d := hn_d n; hn_p := hn_p n |}.

Section Hierarchy.

(** [this.root], [this.highlights] (as a list without repetition) and
    [this.components]. *)
Variable root : string.
Variable highlights : list string.
Variable comps : list (string * IComponent).

Definition page_color : option string :=
  if Nat.eqb (List.length highlights) 0 then None else Some "#999".

(** The [for (const page of this.pages)] loop: the page nodes are the new
    store cells, [i] counts the pages found. *)
Fixpoint hier_pages (ps : list string) (i : nat) (rootc : list nat) (store : list HNode)
    (queue : list (IComponent * nat)) : list nat * list HNode * list (IComponent * nat) :=
  match ps with
  | [] => (rootc, store, queue)
  | page :: rest =>
      match assoc_get comps page with
      | None => hier_pages rest i rootc store queue
      | Some component =>
          let i := S i in
          let id := List.length store in
          let pageNode := {| hn_v := ed_name (getEntryDesc (c_entry component) strip_index);
                             hn_c := []; hn_d := 1;
                             hn_p := {| hp_pi := i; hp_f := None; hp_c := page_color |} |} in
          hier_pages rest i (rootc ++ [id])%list (store ++ [pageNode])%list
            (queue ++ [(component, id)])%list
      end
  end.

(** The [forEach] callback on one dependency of the component of node
    [nid].  [cache] is never written ([cache.set] is commented out), so
    [cache.has(modulePath)] is false and that branch is dead;
    [this.components.get(undefined)] is [undefined]. *)
Definition hier_dep (nid : nat) (sq : list HNode * list (IComponent * nat)) (dep : IDependency)
    : list HNode * list (IComponent * nat) :=
  let '(store, queue) := sq in
  match match dep_modulePath dep with Some p => assoc_get comps p | None => None end with
  | None => (store, queue)
  | Some child =>
      match nth_error store nid with
      | None => (store, queue)   (* the queue only holds indices of the store *)
      | Some node =>
          let desc := getEntryDesc (c_entry child) strip_index in
          let id := List.length store in
          let childNode :=
            {| hn_v := ed_name desc; hn_c := []; hn_d := S (hn_d node);
               hn_p := {| hp_pi := hp_pi (hn_p node); hp_f := Some (ed_external desc);
                          hp_c := if existsb (String.eqb (c_entry child)) highlights
                                  then None else hp_c (hn_p node) |} |} in
          (upd (store ++ [childNode])%list nid (add_child id), (queue ++ [(child, id)])%list)
      end
  end.

(** The [while (queue.length)] loop, with fuel. *)
Fixpoint hier_loop (fuel : nat) (store : list HNode) (queue : list (IComponent * nat))
    : option (list HNode) :=
  match fuel with
  | O => None
  | S f =>
      match queue with
      | [] => Some store
      | (component, nid) :: rest =>
          let '(store', queue') := fold_left (hier_dep nid) (c_deps component) (store, rest) in
          hier_loop f store' queue'
      end
  end.

(** [generateHierarchy()] up to [render]: the root node and the store of
    the other nodes, or [None] when the loop has not ended within [fuel]
    rounds. *)
Definition generateHierarchy (fuel : nat) (pages : list string) : option (HRoot * list HNode) :=
  let '(rootc, store, queue) := hier_pages pages 0 [] [] [] in
  match hier_loop fuel store queue with
  | None => None
  | Some store' => Some ({| hr_v := ed_name (getEntryDesc root strip_src); hr_c := rootc |}, store')
  end.

End Hierarchy.

(** ** [analyze] *)

Record GraphNode := mkGraphNode { gn_name : string; gn_entry : string; gn_weight : nat }.

(** [parts = entry.split('/')], [name = parts.pop()], a second [pop()] for
    ["index"], then [name || '']. *)
Definition graph_name (entry : string) : string :=
  match rev (JS.split_on Path.slash entry) with
  | [] => ""
  | last :: rest =>
      if String.eqb last "index"
      then match rest with x :: _ => x | [] => "" end
      else last
  end.

(** The links of one component: its dependencies with a truthy
    [modulePath]. *)
Definition component_links (c : IComponent) : list (string * string) :=
  flat_map (fun d => match dep_modulePath d with
                     | Some p => if String.eqb p "" then [] else [(c_entry c, p)]
                     | None => []
                     end) (c_deps c).

(** [const node = nodeMap.get(entry); if (node) node.weight += 1]. *)
Definition bump (m : list (string * GraphNode)) (e : string) : list (string * GraphNode) :=
  match assoc_get m e with
  | Some n => assoc_set m e {| gn_name := gn_name n; gn_entry := gn_entry n;
                               gn_weight := S (gn_weight n) |}
  | None => m
  end.

Definition analyze_map (comps : list (string * IComponent)) : list (string * GraphNode) :=
  fold_left (fun m '(_, c) =>
      assoc_set m (c_entry c) {| gn_name := graph_name (c_entry c); gn_entry := c_entry c;
                                 gn_weight := 0 |}) comps [].

Definition analyze_links (comps : list (string * IComponent)) : list (string * string) :=
  flat_map (fun '(_, c) => component_links c) comps.

(** [analyze()] up to [render]: the [nodes] and [links] it renders. *)
Definition analyze (comps : list (string * IComponent)) : list GraphNode * list (string * string) :=
  let links := analyze_links comps in
  let nodeMap := fold_left (fun m '(a, b) => bump (bump m a) b) links (analyze_map comps) in
  (map snd nodeMap, links).

(** Both ends of every link, in order. *)
Definition endpoints (links : list (string * string)) : list string :=
  flat_map (fun '(a, b) => [a; b]) links.

(** ** The console report of [check()] and [logError] *)

(** Console lines printed, and whether a [TypeError] ended the printing. *)
Inductive Console :=
| Out (ls : list string)
| Crash (ls : list string).

Definition con_app (c1 c2 : Console) : Console :=
  match c1 with
  | Crash ls => Crash ls
  | Out ls => match c2 with
              | Out ls2 => Out (ls ++ ls2)%list
              | Crash ls2 => Crash (ls ++ ls2)%list
              end
  end.

(** A number in a template literal. *)
Definition Z_to_string (z : Z) : string := NilEmpty.string_of_int (Z.to_int z).

(** [[error.line && `@${error.line}:${error.col}`, error.message].filter(Boolean)]. *)
Definition title_parts (e : IErrorRef) : list string :=
  ((match er_line e with
    | Some l =>
        if Z.eqb l 0 then []
        else [("@" ++ Z_to_string l ++ ":" ++
               match er_col e with Some c => Z_to_string c | None => "undefined" end)%string]
    | None => []
    end) ++
   (match er_message e with
    | Some m => if String.eqb m "" then [] else [m]
    | None => []
    end))%list.

Section Report.

(** The [std/fmt/colors] wrappers. *)
Variables cyan red yellow : string -> string.

(** The lines [logError] prints for one error. *)
Definition error_lines (type : Severity) (e : IErrorRef) : list string :=
  let title := Path.concat_with " " (title_parts e) in
  let content := match er_content e with
                 | Some ls => Path.concat_with (String JS.nl EmptyString)
                                (map (fun l => "  " ++ l) ls)
                 | None => ""
                 end in
  ((if String.eqb title "" then []
    else [("  " ++ (match type with Fatal => red | Warning => yellow end) title)%string]) ++
   (if String.eqb content "" then [] else [content]))%list.

(** The [for (const error of errors)] loop: an [undefined] error throws on
    [error.line]. *)
Fixpoint log_items (type : Severity) (errors : list (option IErrorRef)) : Console :=
  match errors with
  | [] => Out []
  | None :: _ => Crash []
  | Some e :: rest => con_app (Out (error_lines type e)) (log_items type rest)
  end.

Definition logError (entry : string) (errors : list (option IErrorRef)) (type : Severity) : Console :=
  con_app (Out ["- " ++ cyan entry]) (log_items type errors).

Fixpoint log_ledger (type : Severity) (l : Ledger) : Console :=
  match l with
  | [] => Out []
  | (entry, errors) :: rest => con_app (logError entry errors type) (log_ledger type rest)
  end.

(** The printing part of [check()], after [checkUnused]. *)
Definition report (errs : Errors) : Console :=
  let w := match warning errs with
           | [] => Out []
           | l => con_app (Out [""; yellow "Warnings:"]) (log_ledger Warning l)
           end in
  let f := match fatal errs with
           | [] => Out []
           | l => con_app (Out [""; red "Fatal errors:"]) (log_ledger Fatal l)
           end in
  let hasError := negb (Nat.eqb (List.length (warning errs)) 0)
                  || negb (Nat.eqb (List.length (fatal errs)) 0) in
  con_app w (con_app f (Out (if hasError then [] else ["No error is found"]))).

End Report.

(** ** Statement helpers *)

(** A set [S] of logical paths each of whose components has a dependency
    resolved into [S]. *)
Definition cycle_set (comps : list (string * IComponent)) (S : list string) : Prop :=
  forall p, In p S -> exists c, assoc_get comps p = Some c /\
    exists d q, In d (c_deps c) /\ dep_modulePath d = Some q /\ In q S.

(** Every child of a node of the store is a node of the store one level
    deeper, with the same page index. *)
Definition hier_tree_ok (store : list HNode) : Prop :=
  forall i n, nth_error store i = Some n -> forall j, In j (hn_c n) ->
    exists m, nth_error store j = Some m /\ hn_d m = S (hn_d n) /\
              hp_pi (hn_p m) = hp_pi (hn_p n).

(** Each component is stored under its own [entry]. *)
Definition keys_ok (s : Scanner) : Prop :=
  forall k c, assoc_get (components s) k = Some c -> c_entry c = k.

(** The lines of the text, each counted with its newline. *)
Definition lines_before (input : string) (k : nat) : nat :=
  span_len (firstn k (JS.split_on JS.nl input)).

(** The ledger of one severity. *)
Definition ledger_of (e : Errors) (t : Severity) : Ledger :=
  match t with Fatal => fatal e | Warning => warning e end.

Definition other_severity (t : Severity) : Severity :=
  match t with Fatal => Warning | Warning => Fatal end.

(** A character [reprStr]'s caret loop counts as one column: code at most
    127 and not a tab. *)
Definition plain_ascii (c : ascii) : bool :=
  (nat_of_ascii c <? 128)%nat && negb (Ascii.eqb c JS.tab).

(** One step of the loop of [checkUnused] over the walked files. *)
Definition orphan_step (proj : Project) (comps : list (string * IComponent))
    (acc : list string) (f : string) : list string :=
  if walked proj f && JS.endsWith f ".axml" then
    if assoc_has comps (JS.slice f 0 (-5)) then acc else set_add acc (JS.slice f 0 (-5))
  else acc.

(** Whether the printing ended in a [TypeError]. *)
Definition is_crash (c : Console) : bool :=
  match c with Crash _ => true | Out _ => false end.

Definition is_undefined (x : option IErrorRef) : bool :=
  match x with None => true | Some _ => false end.

(** The scanner left by [check()] on [cycle_project]. *)
Definition cycle_scanner : Scanner :=
  match check cycle_project 10 newScanner with Done s => s | _ => newScanner end.

(** The nodes of [store] are still in [store'], at the same index, with the
    same depth and properties. *)
Definition hier_keeps (store store' : list HNode) : Prop :=
  forall j m, nth_error store j = Some m ->
    exists m', nth_error store' j = Some m' /\ hn_d m' = hn_d m /\ hn_p m' = hn_p m.

(** The [k]-th child of the root is a page node of depth 1 and page index
    [k + 1]. *)
Definition root_ok (rootc : list nat) (store : list HNode) : Prop :=
  forall k j, nth_error rootc k = Some j ->
    exists m, nth_error store j = Some m /\ hn_d m = 1%nat /\ hp_pi (hn_p m) = S k.

(** Two pages, the first of which uses a component [c] twice, and one
    logical path with no component. *)
Definition tree_comps : list (string * IComponent) :=
  [("pages/p/index", mkComponent "pages/p/index"
      [mkDep (Element "c" [] None []) (Some "components/c/index");
       mkDep (Element "c" [] None []) (Some "components/c/index")] None);
   ("pages/q/index", mkComponent "pages/q/index" [] None);
   ("components/c/index", mkComponent "components/c/index"
      [mkDep (Element "view" [] None []) None] None)].

(** The inner [visit_list] of [visit], as a function of its own. *)
Fixpoint visit_list (content entry : string) (ns : list INode) (deps : list (string * IDependency))
    (errs : Errors) : Outcome (list (string * IDependency)) :=
  match ns with
  | [] => Ret errs deps
  | m :: rest =>
      match visit content entry m deps errs with
      | Ret errs' deps' => visit_list content entry rest deps' errs'
      | Thrown errs' => Thrown errs'
      end
  end.

(** The tag name of an element node. *)
Definition node_name (n : INode) : string :=
  match n with Element name _ _ _ => name | _ => "" end.

(** The names of the elements with a non-empty name, in the pre-order of
    [traverse]. *)
Fixpoint elem_names (n : INode) : list string :=
  match n with
  | Element name _ _ children =>
      ((if String.eqb name "" then [] else [name]) ++ flat_map elem_names children)%list
  | TextNode _ _ => []
  | OtherNode children => flat_map elem_names children
  end.

(** Every list of [l] is a prefix of the list under the same key in [l']. *)
Definition ledger_le (l l' : Ledger) : Prop :=
  forall k v, ledger_get l k = Some v -> exists w, ledger_get l' k = Some (v ++ w)%list.

Definition errs_le (e e' : Errors) : Prop :=
  ledger_le (fatal e) (fatal e') /\ ledger_le (warning e) (warning e').

(** The errors an outcome carries, returned or thrown. *)
Definition outcome_errs {A} (o : Outcome A) : Errors :=
  match o with Ret e _ => e | Thrown e => e end.

(** The errors [e] extend into what the run ends with. *)
Definition run_grows (e : Errors) (r : Run) : Prop :=
  match r with Done s | Abort s => errs_le e (errors s) | OutOfFuel => True end.

(** * Proofs *)

(** ** Facts about the line scan of [reprStr] *)

Module ReprFacts.

Lemma split_on_span (c : ascii) (s : string) :
  span_len (JS.split_on c s) = S (String.length s).
Proof.
  induction s as [|d rest IH]; [reflexivity|].
  simpl. destruct (Ascii.eqb d c).
  - simpl. rewrite IH. reflexivity.
  - destruct (JS.split_on c rest) as [|p ps] eqn:E.
    + discriminate IH.
    + simpl in *. lia.
Qed.

Lemma split_on_nonempty (c : ascii) (s : string) : JS.split_on c s <> [].
Proof.
  intro E. pose proof (split_on_span c s) as H. rewrite E in H. discriminate.
Qed.

Lemma scan_lines_inside (ls : list string) : forall line col,
  0 <= col < Z.of_nat (span_len ls) ->
  exists k cur, scan_lines ls line col = (line + Z.of_nat k, snd (scan_lines ls line col))
    /\ nth_error ls k = Some cur
    /\ 0 <= snd (scan_lines ls line col) <= Z.of_nat (String.length cur).
Proof.
  induction ls as [|l rest IH]; intros line col Hc; simpl in Hc; [lia|].
  simpl. destruct (Z.of_nat (String.length l) <? col) eqn:E.
  - apply Z.ltb_lt in E.
    destruct (IH (line + 1) (col - (Z.of_nat (String.length l) + 1))) as (k & cur & Heq & Hn & Hb).
    { lia. }
    exists (S k), cur. split; [|split; [exact Hn|exact Hb]].
    rewrite Heq at 1. f_equal. lia.
  - apply Z.ltb_ge in E. exists 0%nat, l. simpl. split; [f_equal; lia|]. split; [reflexivity|lia].
Qed.

Lemma scan_lines_outside (ls : list string) : forall line col,
  Z.of_nat (span_len ls) <= col ->
  fst (scan_lines ls line col) = line + Z.of_nat (List.length ls).
Proof.
  induction ls as [|l rest IH]; intros line col Hc; simpl in *; [lia|].
  destruct (Z.of_nat (String.length l) <? col) eqn:E.
  - rewrite IH by lia. lia.
  - apply Z.ltb_ge in E. lia.
Qed.

End ReprFacts.

(** ** C10: [reprStr] on offsets inside and outside the text *)

(** C10.  [reprStr] returns a 1-based line and column, the line within the
    text's line count, for every offset [0 <= off <= length input]; for
    every offset beyond the length the line scan walks past the last line
    and [lines[line].length] throws. *)
Theorem reprStr_total_iff_within (input msg : string) :
  (forall off : nat, (off <= String.length input)%nat ->
     exists r line col,
       reprStr input (Z.of_nat off) msg = Some r /\ er_line r = Some line /\ er_col r = Some col
       /\ 1 <= line <= Z.of_nat (List.length (JS.split_on JS.nl input)) /\ 1 <= col) /\
  (forall off : Z, Z.of_nat (String.length input) < off -> reprStr input off msg = None).
Proof.
  pose proof (ReprFacts.split_on_span JS.nl input) as Hspan.
  split.
  - intros off Hoff. unfold reprStr.
    destruct (ReprFacts.scan_lines_inside (JS.split_on JS.nl input) 0 (Z.of_nat off))
      as (k & cur & Heq & Hn & Hb).
    { rewrite Hspan. lia. }
    destruct (scan_lines (JS.split_on JS.nl input) 0 (Z.of_nat off)) as [line col] eqn:Hs.
    simpl in Heq, Hb. injection Heq as ->.
    rewrite ?Z.add_0_l, Nat2Z.id, Hn.
    assert (Hk : (k < List.length (JS.split_on JS.nl input))%nat).
    { apply nth_error_Some. rewrite Hn. discriminate. }
    eexists _, _, _. split; [reflexivity|]. simpl. repeat split; try reflexivity; lia.
  - intros off Hoff. unfold reprStr.
    pose proof (ReprFacts.scan_lines_outside (JS.split_on JS.nl input) 0 off) as Ho.
    destruct (scan_lines (JS.split_on JS.nl input) 0 off) as [line col] eqn:Hs.
    simpl in Ho. rewrite Ho by (rewrite Hspan; lia).
    replace (Z.to_nat (0 + Z.of_nat (List.length (JS.split_on JS.nl input))))
      with (List.length (JS.split_on JS.nl input)) by lia.
    rewrite (proj2 (nth_error_None _ _)) by lia. reflexivity.
Qed.

(** ** Lemmas on [reprStr], the ledger and the resolution loop *)

Module ExtractFacts.

Lemma reprStr_inside (input : string) (off : Z) (msg : string) :
  0 <= off <= Z.of_nat (String.length input) ->
  exists r, reprStr input off msg = Some r /\ er_message r = Some msg.
Proof.
  intros Hoff. unfold reprStr.
  pose proof (ReprFacts.split_on_span JS.nl input) as Hspan.
  destruct (ReprFacts.scan_lines_inside (JS.split_on JS.nl input) 0 off)
    as (k & cur & Heq & Hn & _).
  { rewrite Hspan. lia. }
  destruct (scan_lines (JS.split_on JS.nl input) 0 off) as [line col] eqn:Hs.
  simpl in Heq. injection Heq as ->.
  rewrite ?Z.add_0_l, Nat2Z.id, Hn. eexists. split; reflexivity.
Qed.

Lemma resolve_deps_ret content entry definitions deps : forall unused errs errs' ds un,
  resolve_deps content entry definitions deps unused errs = Ret errs' (ds, un) ->
  ds = map (resolved_dep definitions) deps /\
  un = unused_after definitions deps unused /\
  errs' = errors_after content entry definitions deps errs.
Proof.
  induction deps as [|[name d] rest IH]; intros unused errs errs' ds un H.
  - simpl in H. inversion H; subst. repeat split; reflexivity.
  - cbn -[reprStr String.append isBuiltIn assoc_get addError] in H.
    unfold unused_after, errors_after in *. cbn -[reprStr String.append isBuiltIn assoc_get addError].
    unfold undefined_name, assoc_has.
    destruct (isBuiltIn name) eqn:Hb; cbn -[reprStr String.append isBuiltIn assoc_get addError].
    + destruct (resolve_deps content entry definitions rest unused errs)
        as [e [ds' un']|e] eqn:Hr; inversion H; subst.
      destruct (IH _ _ _ _ _ Hr) as (-> & -> & ->). repeat split; reflexivity.
    + destruct (assoc_get definitions name) as [p|] eqn:Hd; cbn -[reprStr String.append isBuiltIn assoc_get addError].
      * destruct (resolve_deps content entry definitions rest (assoc_delete unused name) errs)
          as [e [ds' un']|e] eqn:Hr; inversion H; subst.
        destruct (IH _ _ _ _ _ Hr) as (-> & -> & ->). repeat split; reflexivity.
      * unfold undefined_error.
        destruct (reprStr content (element_offset (node_posOpen (dep_node d)))
                    ("Undefined component: " ++ name)) as [r|] eqn:Hrep; [|discriminate H].
        destruct (resolve_deps content entry definitions rest unused
                    (addError errs entry [Some r] Fatal)) as [e [ds' un']|e] eqn:Hr;
          inversion H; subst.
        destruct (IH _ _ _ _ _ Hr) as (-> & -> & ->). repeat split; reflexivity.
Qed.

Lemma resolve_deps_total content entry definitions deps : forall unused errs,
  Forall (fun nd => undefined_name definitions (fst nd) = true ->
            0 <= element_offset (node_posOpen (dep_node (snd nd))) <= Z.of_nat (String.length content))
    deps ->
  exists errs' ds un, resolve_deps content entry definitions deps unused errs = Ret errs' (ds, un).
Proof.
  induction deps as [|[name d] rest IH]; intros unused errs Hpos.
  - do 3 eexists. reflexivity.
  - inversion Hpos as [|? ? Hhd Htl]; subst. simpl in Hhd.
    unfold undefined_name, assoc_has in Hhd. cbn -[reprStr String.append isBuiltIn assoc_get addError].
    destruct (isBuiltIn name) eqn:Hb.
    + destruct (IH unused errs Htl) as (e & ds & un & ->). do 3 eexists. reflexivity.
    + destruct (assoc_get definitions name) as [p|] eqn:Hd.
      * destruct (IH (assoc_delete unused name) errs Htl) as (e & ds & un & ->).
        do 3 eexists. reflexivity.
      * destruct (reprStr_inside content (element_offset (node_posOpen (dep_node d)))
                    ("Undefined component: " ++ name)) as (r & Hr & _).
        { apply Hhd. reflexivity. }
        rewrite Hr.
        destruct (IH unused (addError errs entry [Some r] Fatal) Htl) as (e & ds & un & ->).
        do 3 eexists. reflexivity.
Qed.

End ExtractFacts.

Module LedgerFacts.

Lemma ledger_push_get l k k' items :
  ledger_get (ledger_push l k items) k' =
  if String.eqb k' k
  then Some ((match ledger_get l k with Some v => v | None => [] end) ++ items)%list
  else ledger_get l k'.
Proof.
  induction l as [|[k0 v0] r IH]; simpl.
  - destruct (String.eqb k' k); reflexivity.
  - destruct (String.eqb k k0) eqn:E1; simpl.
    + apply String.eqb_eq in E1; subst k0.
      destruct (String.eqb k' k); reflexivity.
    + destruct (String.eqb k' k0) eqn:E2.
      * apply String.eqb_eq in E2; subst k0.
        destruct (String.eqb k' k) eqn:E3; [apply String.eqb_eq in E3; subst; rewrite String.eqb_refl in E1; discriminate|reflexivity].
      * rewrite IH. reflexivity.
Qed.

Lemma recorded_push_same l k items x :
  In x items -> recorded (ledger_push l k items) k x.
Proof.
  intros Hx. unfold recorded. rewrite ledger_push_get, String.eqb_refl.
  eexists. split; [reflexivity|]. apply in_or_app. right. exact Hx.
Qed.

Lemma recorded_push l k k' items x :
  recorded l k' x -> recorded (ledger_push l k items) k' x.
Proof.
  intros (its & Hg & Hi). unfold recorded. rewrite ledger_push_get.
  destruct (String.eqb k' k) eqn:E.
  - apply String.eqb_eq in E; subst. rewrite Hg. eexists. split; [reflexivity|].
    apply in_or_app. left. exact Hi.
  - exists its. split; assumption.
Qed.

Lemma report_unused_keeps entry un errs x :
  recorded (warning errs) entry x -> recorded (warning (report_unused entry un errs)) entry x.
Proof.
  unfold report_unused. revert errs.
  induction un as [|[n v] r IH]; intros errs H; simpl; [exact H|].
  apply IH. simpl. apply recorded_push. exact H.
Qed.

Lemma report_unused_records entry un errs name p :
  In (name, p) un ->
  recorded (warning (report_unused entry un errs)) entry
    (Some (msgError ("Unused definition: " ++ name))).
Proof.
  unfold report_unused. revert errs.
  induction un as [|[n v] r IH]; intros errs Hin; simpl in *; [contradiction|].
  destruct Hin as [E|Hin].
  - injection E as -> ->. apply (report_unused_keeps entry r).
    simpl. apply recorded_push_same. left. reflexivity.
  - apply IH. exact Hin.
Qed.

Lemma assoc_get_In {A} (l : list (string * A)) k v :
  assoc_get l k = Some v -> In (k, v) l.
Proof.
  induction l as [|[k0 v0] r IH]; simpl; [discriminate|].
  destruct (String.eqb k k0) eqn:E.
  - intros H. injection H as <-. apply String.eqb_eq in E; subst. left. reflexivity.
  - intros H. right. apply IH. exact H.
Qed.

Lemma assoc_get_delete_other {A} (l : list (string * A)) k k' :
  k <> k' -> assoc_get (assoc_delete l k') k = assoc_get l k.
Proof.
  intros Hne. induction l as [|[k0 v0] r IH]; simpl; [reflexivity|].
  destruct (String.eqb k' k0) eqn:E1.
  - apply String.eqb_eq in E1; subst k0.
    destruct (String.eqb k k') eqn:E2; [apply String.eqb_eq in E2; contradiction|reflexivity].
  - simpl. destruct (String.eqb k k0); [reflexivity|exact IH].
Qed.

Lemma unused_after_builtin definitions deps : forall u name,
  isBuiltIn name = true ->
  assoc_get (unused_after definitions deps u) name = assoc_get u name.
Proof.
  unfold unused_after.
  induction deps as [|[n d] rest IH]; intros u name Hb; simpl; [reflexivity|].
  rewrite IH by exact Hb.
  destruct (isBuiltIn n) eqn:Hn; [reflexivity|].
  destruct (assoc_has definitions n); [|reflexivity].
  apply assoc_get_delete_other. intros ->. rewrite Hb in Hn. discriminate.
Qed.

Lemma errors_after_warning content entry definitions deps : forall errs,
  warning (errors_after content entry definitions deps errs) = warning errs.
Proof.
  unfold errors_after.
  induction deps as [|[n d] rest IH]; intros errs; simpl; [reflexivity|].
  rewrite IH. destruct (undefined_name definitions n); reflexivity.
Qed.

End LedgerFacts.

(** ** C7: resolution of each element name *)

(** C7 (amended).  The loop over the distinct element names resolves a
    built-in name to [@@/<name>], a name of the Definitions Map to its
    logical path, and records for any other name exactly one fatal
    ["Undefined component: <name>"] error computed by [reprStr] at offset
    [posOpen.start + 1] (0 without an open-tag span), one past the start
    of the open tag; no warning is recorded by the loop and nothing is
    enqueued by it. *)
Theorem resolve_loop_each_name (content entry : string) (definitions : list (string * string))
    (deps : list (string * IDependency)) (errs : Errors)
    (Hpos : Forall (fun nd => undefined_name definitions (fst nd) = true ->
              0 <= element_offset (node_posOpen (dep_node (snd nd)))
                <= Z.of_nat (String.length content)) deps) :
  exists errs' un,
    resolve_deps content entry definitions deps definitions errs
      = Ret errs' (map (resolved_dep definitions) deps, un) /\
    errs' = errors_after content entry definitions deps errs /\
    warning errs' = warning errs /\
    (forall name d, In (name, d) deps -> undefined_name definitions name = true ->
       exists r, undefined_error content name d = Some r /\
                 er_message r = Some ("Undefined component: " ++ name)).
Proof.
  destruct (ExtractFacts.resolve_deps_total content entry definitions deps definitions errs Hpos)
    as (errs' & ds & un & Hr).
  destruct (ExtractFacts.resolve_deps_ret _ _ _ _ _ _ _ _ _ Hr) as (-> & _ & ->).
  exists (errors_after content entry definitions deps errs), un.
  split; [exact Hr|]. split; [reflexivity|]. split; [apply LedgerFacts.errors_after_warning|].
  intros name d Hin Hu. rewrite Forall_forall in Hpos.
  apply (ExtractFacts.reprStr_inside content _ ("Undefined component: " ++ name)).
  apply (Hpos (name, d) Hin). exact Hu.
Qed.

Lemma resolve_loop_each_name_witness :
  Forall (fun nd => undefined_name [] (fst nd) = true ->
            0 <= element_offset (node_posOpen (dep_node (snd nd))) <= Z.of_nat (String.length "<foo/>"))
    [("foo", {| dep_node := Element "foo" [] (Some (mkSpan 0 6)) []; dep_modulePath := None |})] /\
  exists errs' un,
    resolve_deps "<foo/>" "pages/a" []
      [("foo", {| dep_node := Element "foo" [] (Some (mkSpan 0 6)) []; dep_modulePath := None |})]
      [] emptyErrors
      = Ret errs' (map (resolved_dep [])
          [("foo", {| dep_node := Element "foo" [] (Some (mkSpan 0 6)) []; dep_modulePath := None |})], un) /\
    errs' = errors_after "<foo/>" "pages/a" []
      [("foo", {| dep_node := Element "foo" [] (Some (mkSpan 0 6)) []; dep_modulePath := None |})] emptyErrors /\
    warning errs' = warning emptyErrors /\
    (forall name d, In (name, d)
        [("foo", {| dep_node := Element "foo" [] (Some (mkSpan 0 6)) []; dep_modulePath := None |})] ->
       undefined_name [] name = true ->
       exists r, undefined_error "<foo/>" name d = Some r /\
                 er_message r = Some ("Undefined component: " ++ name)).
Proof.
  assert (H : Forall (fun nd => undefined_name [] (fst nd) = true ->
            0 <= element_offset (node_posOpen (dep_node (snd nd))) <= Z.of_nat (String.length "<foo/>"))
    [("foo", {| dep_node := Element "foo" [] (Some (mkSpan 0 6)) []; dep_modulePath := None |})]).
  { constructor; [simpl; lia|constructor]. }
  split; [exact H|].
  exact (resolve_loop_each_name "<foo/>" "pages/a" [] _ emptyErrors H).
Defined.

(** C7 counterexample: in [<foo/>] with the open tag starting at offset 0,
    the fatal error is computed at offset 1, not at the open-tag offset 0
    (column 2 instead of column 1). *)
Lemma undefined_component_offset_past_open_tag :
  match extractComponents "pages/a" []
          (mkMarkup "<foo/>" (OtherNode [Element "foo" [] (Some (mkSpan 0 6)) []]) [])
          emptyErrors with
  | Ret e _ =>
      ledger_get (fatal e) "pages/a" = Some [reprStr "<foo/>" 1 "Undefined component: foo"] /\
      reprStr "<foo/>" 1 "Undefined component: foo" <> reprStr "<foo/>" 0 "Undefined component: foo"
  | Thrown _ => False
  end.
Proof. vm_compute. split; [reflexivity|discriminate]. Qed.

(** ** C8: built-in names take precedence over definitions *)

(** C8.  When an element name of the markup is both built in and a key of
    the Definitions Map, the dependency is resolved to [@@/<name>], the
    alias stays in the [unused] map, and the component receives the
    ["Unused definition: <name>"] warning. *)
Theorem builtin_precedes_definition (content entry : string)
    (definitions : list (string * string)) (deps : list (string * IDependency))
    (errs errs' : Errors) (ds : list (string * IDependency)) (un : list (string * string))
    (name : string) (d : IDependency) (p : string)
    (Hrun : resolve_deps content entry definitions deps definitions errs = Ret errs' (ds, un))
    (Hin : In (name, d) deps) (Hb : isBuiltIn name = true)
    (Hdef : assoc_get definitions name = Some p) :
  In (name, {| dep_node := dep_node d; dep_modulePath := Some ("@@/" ++ name) |}) ds /\
  assoc_get un name = Some p /\
  recorded (warning (report_unused entry un errs')) entry
    (Some (msgError ("Unused definition: " ++ name))).
Proof.
  destruct (ExtractFacts.resolve_deps_ret _ _ _ _ _ _ _ _ _ Hrun) as (-> & -> & _).
  assert (Hu : assoc_get (unused_after definitions deps definitions) name = Some p).
  { rewrite LedgerFacts.unused_after_builtin by exact Hb. exact Hdef. }
  split; [|split; [exact Hu|]].
  - replace (name, {| dep_node := dep_node d; dep_modulePath := Some ("@@/" ++ name) |})
      with (resolved_dep definitions (name, d)).
    + apply in_map. exact Hin.
    + unfold resolved_dep. rewrite Hb. reflexivity.
  - apply (LedgerFacts.report_unused_records entry _ errs' name p).
    apply LedgerFacts.assoc_get_In. exact Hu.
Qed.

Lemma builtin_precedes_definition_witness :
  let vdep := {| dep_node := Element "view" [] None []; dep_modulePath := None |} in
  let ds := [("view", {| dep_node := Element "view" [] None []; dep_modulePath := Some "@@/view" |})] in
  resolve_deps "" "pages/a" [("view", "comp/v")] [("view", vdep)] [("view", "comp/v")] emptyErrors
    = Ret emptyErrors (ds, [("view", "comp/v")]) /\
  In ("view", vdep) [("view", vdep)] /\ isBuiltIn "view" = true /\
  assoc_get [("view", "comp/v")] "view" = Some "comp/v" /\
  (In ("view", {| dep_node := dep_node vdep; dep_modulePath := Some ("@@/" ++ "view") |}) ds /\
   assoc_get [("view", "comp/v")] "view" = Some "comp/v" /\
   recorded (warning (report_unused "pages/a" [("view", "comp/v")] emptyErrors)) "pages/a"
     (Some (msgError ("Unused definition: " ++ "view")))).
Proof.
  intros vdep ds.
  assert (H1 : resolve_deps "" "pages/a" [("view", "comp/v")] [("view", vdep)] [("view", "comp/v")]
                 emptyErrors = Ret emptyErrors (ds, [("view", "comp/v")])) by reflexivity.
  assert (H2 : In ("view", vdep) [("view", vdep)]) by (left; reflexivity).
  assert (H3 : isBuiltIn "view" = true) by reflexivity.
  assert (H4 : assoc_get [("view", "comp/v")] "view" = Some "comp/v") by reflexivity.
  refine (conj H1 (conj H2 (conj H3 (conj H4 _)))).
  exact (builtin_precedes_definition "" "pages/a" [("view", "comp/v")] [("view", vdep)]
           emptyErrors emptyErrors ds [("view", "comp/v")] "view" vdep "comp/v" H1 H2 H3 H4).
Defined.

(** ** C3: the delimiter check on text nodes *)

(** C3 (amended).  The check on a text node is presence-based: a value
    containing ["{{"] and no ["}}"] (such as ["{{"]) yields exactly one
    ["Unmatched brackets"] warning when its offset lies within the markup
    text, while a value containing both markers yields none, whether
    balanced (["{{x}}"]) or not (["{{x}}{{y"]). *)
Theorem text_delimiter_presence_check (content entry : string) (po : option Span) (errs : Errors)
    (Hpos : 0 <= text_offset po <= Z.of_nat (String.length content)) :
  (forall v, JS.includes "{{" v = true -> JS.includes "}}" v = false ->
     exists r, check_text content entry v po errs = Ret (addError errs entry [Some r] Warning) tt
               /\ er_message r = Some "Unmatched brackets") /\
  (forall v, JS.includes "{{" v = JS.includes "}}" v -> check_text content entry v po errs = Ret errs tt) /\
  (exists r, check_text content entry "{{" po errs = Ret (addError errs entry [Some r] Warning) tt) /\
  check_text content entry "{{x}}" po errs = Ret errs tt /\
  check_text content entry "{{x}}{{y" po errs = Ret errs tt.
Proof.
  assert (Hone : forall v, JS.includes "{{" v = true -> JS.includes "}}" v = false ->
     exists r, check_text content entry v po errs = Ret (addError errs entry [Some r] Warning) tt
               /\ er_message r = Some "Unmatched brackets").
  { intros v Ho Hc. unfold check_text, unmatched. rewrite Ho, Hc.
    assert (Hne : String.eqb v "" = false).
    { destruct v; [discriminate Ho|reflexivity]. }
    rewrite Hne. simpl.
    destruct (ExtractFacts.reprStr_inside content (text_offset po) "Unmatched brackets" Hpos)
      as (r & -> & Hm).
    exists r. split; [reflexivity|exact Hm]. }
  assert (Hnone : forall v, JS.includes "{{" v = JS.includes "}}" v ->
            check_text content entry v po errs = Ret errs tt).
  { intros v He. unfold check_text, unmatched. rewrite He, xorb_nilpotent, andb_false_r.
    reflexivity. }
  split; [exact Hone|]. split; [exact Hnone|]. split.
  - destruct (Hone "{{" eq_refl eq_refl) as (r & Hr & _). exists r. exact Hr.
  - split; apply Hnone; reflexivity.
Qed.

Lemma text_delimiter_presence_check_witness :
  0 <= text_offset (Some (mkSpan 0 2)) <= Z.of_nat (String.length "{{ab") /\
  ((forall v, JS.includes "{{" v = true -> JS.includes "}}" v = false ->
     exists r, check_text "{{ab" "pages/a" v (Some (mkSpan 0 2)) emptyErrors
               = Ret (addError emptyErrors "pages/a" [Some r] Warning) tt
               /\ er_message r = Some "Unmatched brackets") /\
   (forall v, JS.includes "{{" v = JS.includes "}}" v ->
     check_text "{{ab" "pages/a" v (Some (mkSpan 0 2)) emptyErrors = Ret emptyErrors tt) /\
   (exists r, check_text "{{ab" "pages/a" "{{" (Some (mkSpan 0 2)) emptyErrors
              = Ret (addError emptyErrors "pages/a" [Some r] Warning) tt) /\
   check_text "{{ab" "pages/a" "{{x}}" (Some (mkSpan 0 2)) emptyErrors = Ret emptyErrors tt /\
   check_text "{{ab" "pages/a" "{{x}}{{y" (Some (mkSpan 0 2)) emptyErrors = Ret emptyErrors tt).
Proof.
  assert (H : 0 <= text_offset (Some (mkSpan 0 2)) <= Z.of_nat (String.length "{{ab")).
  { simpl. lia. }
  split; [exact H|].
  exact (text_delimiter_presence_check "{{ab" "pages/a" (Some (mkSpan 0 2)) emptyErrors H).
Defined.

(** C3 counterexample: a markup whose only text node is ["{{x}}{{y"] gets
    no ["Unmatched brackets"] warning at all, not exactly one. *)
Lemma two_open_one_close_not_warned :
  match extractComponents "pages/a" []
          (mkMarkup "{{x}}{{y" (OtherNode [TextNode "{{x}}{{y" (Some (mkSpan 0 8))]) [])
          emptyErrors with
  | Ret e _ => ledger_get (warning e) "pages/a" = None
  | Thrown _ => False
  end.
Proof. vm_compute. reflexivity. Qed.

(** ** C6: the Definitions Map *)

Module DefsFacts.

Lemma assoc_get_set {A} (l : list (string * A)) k v k' :
  assoc_get (assoc_set l k v) k' = if String.eqb k' k then Some v else assoc_get l k'.
Proof.
  induction l as [|[k0 v0] r IH]; simpl.
  - destruct (String.eqb k' k); reflexivity.
  - destruct (String.eqb k k0) eqn:E1; simpl.
    + apply String.eqb_eq in E1; subst k0. destruct (String.eqb k' k); reflexivity.
    + rewrite IH. destruct (String.eqb k' k0) eqn:E2; [|reflexivity].
      apply String.eqb_eq in E2; subst k0.
      destruct (String.eqb k' k) eqn:E3; [|reflexivity].
      apply String.eqb_eq in E3; subst. rewrite String.eqb_refl in E1. discriminate.
Qed.

Lemma collect_defs_other proj entry uc : forall defs errs k,
  ~ In k (map fst uc) ->
  assoc_get (fst (collect_defs proj entry uc defs errs)) k = assoc_get defs k.
Proof.
  induction uc as [|[key value] rest IH]; intros defs errs k Hk; simpl in *; [reflexivity|].
  destruct (isFile proj (modulePathOf entry value ++ ".json")).
  - rewrite IH by tauto. rewrite assoc_get_set.
    destruct (String.eqb k key) eqn:E; [|reflexivity].
    apply String.eqb_eq in E. subst. tauto.
  - apply IH. tauto.
Qed.

Lemma collect_defs_key proj entry uc : forall defs errs key value,
  NoDup (map fst uc) -> In (key, value) uc ->
  assoc_get (fst (collect_defs proj entry uc defs errs)) key =
  if isFile proj (modulePathOf entry value ++ ".json")
  then Some (modulePathOf entry value) else assoc_get defs key.
Proof.
  induction uc as [|[k v] rest IH]; intros defs errs key value Hnd Hin; simpl in *; [contradiction|].
  inversion Hnd as [|? ? Hnotin Hnd']; subst.
  destruct Hin as [E|Hin].
  - injection E as -> ->.
    destruct (isFile proj (modulePathOf entry value ++ ".json")) eqn:Hf.
    + rewrite collect_defs_other by exact Hnotin. rewrite assoc_get_set, String.eqb_refl. reflexivity.
    + rewrite collect_defs_other by exact Hnotin. reflexivity.
  - assert (Hne : key <> k).
    { intros ->. apply Hnotin. apply (in_map fst) in Hin. exact Hin. }
    destruct (isFile proj (modulePathOf entry v ++ ".json")).
    + rewrite (IH _ _ _ _ Hnd' Hin). rewrite assoc_get_set.
      apply String.eqb_neq in Hne. rewrite Hne. reflexivity.
    + apply (IH _ _ _ _ Hnd' Hin).
Qed.

Lemma collect_defs_errors proj entry uc : forall defs errs,
  snd (collect_defs proj entry uc defs errs) =
  fold_left (fun e '(key, value) =>
      if isFile proj (modulePathOf entry value ++ ".json") then e
      else addError e entry [Some (msgError ("Component not found: " ++ key))] Fatal) uc errs.
Proof.
  induction uc as [|[k v] rest IH]; intros defs errs; simpl; [reflexivity|].
  destruct (isFile proj (modulePathOf entry v ++ ".json")); apply IH.
Qed.

End DefsFacts.

(** C6 (amended).  Each alias of a manifest resolves by one of three
    modes: a value starting with ['/'] to the value without it (rooted at
    the project root), a value starting with ['.'] to the join of the
    component's directory and the value, any other value below
    [node_modules/]; it enters the Definitions Map exactly when
    [<path>.json] exists, and otherwise one fatal ["Component not found:
    <alias>"] error is recorded for the component and the alias is left
    out, so that an element of that name is undefined in the markup unless
    the name is built in, in which case it resolves to [@@/<name>]. *)
Theorem alias_resolution (proj : Project) (entry : string) (uc : list (string * string))
    (errs : Errors) (Hnd : NoDup (map fst uc)) :
  (forall value,
     modulePathOf entry value =
       if JS.startsWith value "/" then JS.slice_from value 1
       else if JS.startsWith value "." then Path.join [Path.dirname entry; value]
       else "node_modules/" ++ value) /\
  (forall key value, In (key, value) uc ->
     assoc_get (fst (extractDefinitions proj entry uc errs)) key =
       if isFile proj (modulePathOf entry value ++ ".json")
       then Some (modulePathOf entry value) else None) /\
  snd (extractDefinitions proj entry uc errs) =
    fold_left (fun e '(key, value) =>
      if isFile proj (modulePathOf entry value ++ ".json") then e
      else addError e entry [Some (msgError ("Component not found: " ++ key))] Fatal) uc errs /\
  (forall key value d, In (key, value) uc ->
     isFile proj (modulePathOf entry value ++ ".json") = false ->
     undefined_name (fst (extractDefinitions proj entry uc errs)) key = negb (isBuiltIn key) /\
     resolved_dep (fst (extractDefinitions proj entry uc errs)) (key, d) =
       if isBuiltIn key
       then (key, {| dep_node := dep_node d; dep_modulePath := Some ("@@/" ++ key) |})
       else (key, d)).
Proof.
  split; [reflexivity|].
  assert (Hget : forall key value, In (key, value) uc ->
     assoc_get (fst (extractDefinitions proj entry uc errs)) key =
       if isFile proj (modulePathOf entry value ++ ".json")
       then Some (modulePathOf entry value) else None).
  { intros key value Hin. unfold extractDefinitions.
    rewrite (DefsFacts.collect_defs_key proj entry uc [] errs key value Hnd Hin).
    destruct (isFile proj (modulePathOf entry value ++ ".json")); reflexivity. }
  split; [exact Hget|]. split; [apply DefsFacts.collect_defs_errors|].
  intros key value d Hin Hf.
  pose proof (Hget key value Hin) as Hg. rewrite Hf in Hg.
  unfold undefined_name, assoc_has, resolved_dep. rewrite Hg.
  destruct (isBuiltIn key); split; reflexivity.
Qed.

Lemma alias_resolution_witness :
  let proj := {| p_root := "/proj"; p_files := ["pages/b.json"]; p_pages := ["pages/a"];
                 p_manifest := fun _ => Some []; p_markup := fun _ => mkMarkup "" (OtherNode []) [] |} in
  NoDup (map fst [("b", "./b"); ("view", "./missing")]) /\
  (forall value,
     modulePathOf "pages/a" value =
       if JS.startsWith value "/" then JS.slice_from value 1
       else if JS.startsWith value "." then Path.join [Path.dirname "pages/a"; value]
       else "node_modules/" ++ value) /\
  (forall key value, In (key, value) [("b", "./b"); ("view", "./missing")] ->
     assoc_get (fst (extractDefinitions proj "pages/a" [("b", "./b"); ("view", "./missing")] emptyErrors)) key =
       if isFile proj (modulePathOf "pages/a" value ++ ".json")
       then Some (modulePathOf "pages/a" value) else None) /\
  snd (extractDefinitions proj "pages/a" [("b", "./b"); ("view", "./missing")] emptyErrors) =
    fold_left (fun e '(key, value) =>
      if isFile proj (modulePathOf "pages/a" value ++ ".json") then e
      else addError e "pages/a" [Some (msgError ("Component not found: " ++ key))] Fatal)
      [("b", "./b"); ("view", "./missing")] emptyErrors /\
  (forall key value d, In (key, value) [("b", "./b"); ("view", "./missing")] ->
     isFile proj (modulePathOf "pages/a" value ++ ".json") = false ->
     undefined_name (fst (extractDefinitions proj "pages/a" [("b", "./b"); ("view", "./missing")] emptyErrors)) key
       = negb (isBuiltIn key) /\
     resolved_dep (fst (extractDefinitions proj "pages/a" [("b", "./b"); ("view", "./missing")] emptyErrors)) (key, d) =
       if isBuiltIn key
       then (key, {| dep_node := dep_node d; dep_modulePath := Some ("@@/" ++ key) |})
       else (key, d)).
Proof.
  intros proj.
  assert (H : NoDup (map fst [("b", "./b"); ("view", "./missing")])).
  { simpl. constructor; [simpl; intros [E|[]]; discriminate E|constructor; [simpl; tauto|constructor]]. }
  split; [exact H|].
  exact (alias_resolution proj "pages/a" [("b", "./b"); ("view", "./missing")] emptyErrors H).
Defined.

(** C6 counterexample: the alias [view] of [pages/a] points to a missing
    manifest and is dropped with a fatal error, yet the element [<view/>]
    of the markup is resolved (to [@@/view]) and gets no "Undefined
    component" error. *)
Lemma dropped_builtin_alias_still_resolved :
  let proj := {| p_root := "/proj";
                 p_files := ["app.json"; "pages/a.json"; "pages/a.js"; "pages/a.axml"; "pages/a.acss"];
                 p_pages := ["pages/a"];
                 p_manifest := fun f => if String.eqb f "pages/a.json"
                                        then Some [("view", "./missing")] else Some [];
                 p_markup := fun _ => mkMarkup "<view/>"
                                        (OtherNode [Element "view" [] (Some (mkSpan 0 7)) []]) [] |} in
  match check proj 5 newScanner with
  | Done st =>
      ledger_get (fatal (errors st)) "pages/a"
        = Some [Some (msgError "Component not found: view")] /\
      option_map (fun c => map dep_modulePath (c_deps c)) (assoc_get (components st) "pages/a")
        = Some [Some "@@/view"]
  | _ => False
  end.
Proof. vm_compute. split; reflexivity. Qed.

(** ** C2: a missing sibling file *)

(** C2 (amended).  When a new component misses one of its four sibling
    files, [checkComponent] records exactly one error ["Expect file:
    <name>"] (the first missing file, in the order [.json], [.js],
    [.axml], [.acss]) under the component's key with the default
    [warning] severity, inserts the component with no dependencies and no
    definitions, and does nothing else: no manifest is read and no markup
    is parsed. *)
Theorem missing_sibling_file (proj : Project) (fuel : nat) (entry : string) (st : Scanner)
    (f : string)
    (Hnew : assoc_has (components st) entry = false)
    (Hmiss : firstMissing proj entry = Some f) :
  checkComponent proj (S fuel) entry st =
    Done (set_component (set_errors (log_entry st entry)
            (addError (errors st) entry [Some (msgError ("Expect file: " ++ f))] Warning))
          entry {| c_entry := entry; c_deps := []; c_defs := None |}) /\
  In f [entry ++ ".json"; entry ++ ".js"; entry ++ ".axml"; entry ++ ".acss"] /\
  isFile proj f = false.
Proof.
  unfold firstMissing in Hmiss.
  destruct (find_some _ _ Hmiss) as [Hin Hf].
  split; [|split; [exact Hin|apply negb_true_iff; exact Hf]].
  simpl. rewrite Hnew. unfold check_new_component, firstMissing. rewrite Hmiss. reflexivity.
Qed.

Lemma missing_sibling_file_witness :
  let proj := {| p_root := "/proj";
                 p_files := ["app.json"; "pages/a.json"; "pages/a.js"; "pages/a.axml"];
                 p_pages := ["pages/a"];
                 p_manifest := fun _ => Some [];
                 p_markup := fun _ => mkMarkup "" (OtherNode []) [] |} in
  assoc_has (components newScanner) "pages/a" = false /\
  firstMissing proj "pages/a" = Some "pages/a.acss" /\
  (checkComponent proj 1 "pages/a" newScanner =
    Done (set_component (set_errors (log_entry newScanner "pages/a")
            (addError (errors newScanner) "pages/a"
               [Some (msgError ("Expect file: " ++ "pages/a.acss"))] Warning))
          "pages/a" {| c_entry := "pages/a"; c_deps := []; c_defs := None |}) /\
  In "pages/a.acss" ["pages/a" ++ ".json"; "pages/a" ++ ".js"; "pages/a" ++ ".axml"; "pages/a" ++ ".acss"] /\
  isFile proj "pages/a.acss" = false).
Proof.
  intros proj.
  assert (H1 : assoc_has (components newScanner) "pages/a" = false) by reflexivity.
  assert (H2 : firstMissing proj "pages/a" = Some "pages/a.acss") by reflexivity.
  refine (conj H1 (conj H2 _)).
  exact (missing_sibling_file proj 0 "pages/a" newScanner "pages/a.acss" H1 H2).
Defined.

(** C2 counterexample: with [pages/a.acss] missing, the run records the
    ["Expect file"] error among the warnings and no fatal error at all. *)
Lemma missing_file_error_not_fatal :
  let proj := {| p_root := "/proj";
                 p_files := ["app.json"; "pages/a.json"; "pages/a.js"; "pages/a.axml"];
                 p_pages := ["pages/a"];
                 p_manifest := fun _ => Some [];
                 p_markup := fun _ => mkMarkup "" (OtherNode []) [] |} in
  match check proj 3 newScanner with
  | Done st =>
      ledger_get (fatal (errors st)) "pages/a" = None /\
      ledger_get (warning (errors st)) "pages/a"
        = Some [Some (msgError "Expect file: pages/a.acss")]
  | _ => False
  end.
Proof. vm_compute. split; reflexivity. Qed.

(** ** C4 and C5: a second [check()] on the same scanner *)

(** C5.  [check()] resets the ledger only: a second [check()] on the same
    scanner starts from the first run's non-empty component map, and no
    component is resolved again (the ghost trace does not grow). *)
Theorem second_check_keeps_component_map :
  let proj := {| p_root := "/proj";
                 p_files := ["app.json"; "pages/a.json"; "pages/a.js"; "pages/a.axml"];
                 p_pages := ["pages/a"];
                 p_manifest := fun _ => Some [];
                 p_markup := fun _ => mkMarkup "" (OtherNode []) [] |} in
  match check proj 3 newScanner with
  | Done st1 =>
      components (set_errors st1 emptyErrors) = components st1 /\
      components st1 <> [] /\
      match check proj 3 st1 with
      | Done st2 => trace st2 = trace st1 /\ components st2 = components st1
      | _ => False
      end
  | _ => False
  end.
Proof. vm_compute. split; [reflexivity|]. split; [discriminate|]. split; reflexivity. Qed.

(** C4.  Two [check()] runs on the same scanner and the same project give
    different ledgers: the first records the missing-file error of
    [pages/a], the second records nothing for [pages/a]. *)
Theorem second_check_loses_errors :
  let proj := {| p_root := "/proj";
                 p_files := ["app.json"; "pages/a.json"; "pages/a.js"; "pages/a.axml"];
                 p_pages := ["pages/a"];
                 p_manifest := fun _ => Some [];
                 p_markup := fun _ => mkMarkup "" (OtherNode []) [] |} in
  match check proj 3 newScanner with
  | Done st1 =>
      ledger_get (warning (errors st1)) "pages/a"
        = Some [Some (msgError "Expect file: pages/a.acss")] /\
      match check proj 3 st1 with
      | Done st2 => ledger_get (warning (errors st2)) "pages/a" = None /\
                    errors st2 = emptyErrors /\ components st2 = components st1
      | _ => False
      end
  | _ => False
  end.
Proof. vm_compute. split; [reflexivity|]. split; [reflexivity|]. split; reflexivity. Qed.

(** ** Runs: preservation of components, closedness, fuel, trace *)

Module RunFacts.

Section WithProject.

Variable proj : Project.

Lemma assoc_has_set {A} (l : list (string * A)) k v k' :
  assoc_has (assoc_set l k v) k' = String.eqb k' k || assoc_has l k'.
Proof.
  unfold assoc_has. rewrite DefsFacts.assoc_get_set.
  destruct (String.eqb k' k); reflexivity.
Qed.

Lemma preserved_refl s : preserved s s.
Proof. intros k c H. exact H. Qed.

Lemma preserved_trans s1 s2 s3 : preserved s1 s2 -> preserved s2 s3 -> preserved s1 s3.
Proof. intros H1 H2 k c H. apply H2, H1, H. Qed.

Lemma preserved_has s1 s2 k :
  preserved s1 s2 -> assoc_has (components s1) k = true -> assoc_has (components s2) k = true.
Proof.
  unfold assoc_has. intros Hp Hk.
  destruct (assoc_get (components s1) k) as [c|] eqn:E; [|discriminate].
  rewrite (Hp k c E). reflexivity.
Qed.

Lemma preserved_same_components s1 s2 :
  components s1 = components s2 -> preserved s1 s2.
Proof. intros E k c H. rewrite <- E. exact H. Qed.

Lemma preserved_set_new s x e c :
  components x = components s ->
  assoc_has (components s) e = false -> preserved s (set_component x e c).
Proof.
  intros Hx Hnew k c' H. simpl. rewrite DefsFacts.assoc_get_set, Hx.
  destruct (String.eqb k e) eqn:E; [|exact H].
  apply String.eqb_eq in E; subst. unfold assoc_has in Hnew. rewrite H in Hnew. discriminate.
Qed.

(** A recursive call that keeps the components and inserts its argument. *)
Definition good_rec (rec : string -> Scanner -> Run) : Prop :=
  forall p s s', rec p s = Done s' -> preserved s s' /\ assoc_has (components s') p = true.

Lemma check_defs_preserved rec (Hrec : good_rec rec) ds : forall s s',
  check_defs rec ds s = Done s' ->
  preserved s s' /\ forall k p, In (k, p) ds -> assoc_has (components s') p = true.
Proof.
  induction ds as [|[k0 p0] rest IH]; intros s s' H; simpl in H.
  - inversion H; subst. split; [apply preserved_refl|intros k p []].
  - destruct (assoc_has (components s) p0) eqn:Hp.
    + destruct (IH _ _ H) as [Hpr Hall]. split; [exact Hpr|].
      intros k p [E|Hin]; [injection E as -> ->; apply (preserved_has s); assumption|].
      apply (Hall k p Hin).
    + destruct (rec p0 s) as [s1|s1|] eqn:Hr; try discriminate.
      destruct (Hrec _ _ _ Hr) as [Hpr1 Hhas1].
      destruct (IH _ _ H) as [Hpr Hall]. split; [apply (preserved_trans _ s1); assumption|].
      intros k p [E|Hin]; [injection E as -> ->; apply (preserved_has s1); assumption|].
      apply (Hall k p Hin).
Qed.

Lemma checkComponent_preserved fuel : good_rec (checkComponent proj fuel).
Proof.
  induction fuel as [|f IH]; intros e s s' H; simpl in H; [discriminate|].
  destruct (assoc_has (components s) e) eqn:He.
  - inversion H; subst. split; [apply preserved_refl|exact He].
  - unfold check_new_component in H.
    destruct (firstMissing proj e) as [m|].
    + inversion H; subst. split.
      * apply preserved_set_new; [reflexivity|exact He].
      * simpl. rewrite assoc_has_set, String.eqb_refl. reflexivity.
    + destruct (p_manifest proj (e ++ ".json")) as [uc|]; [|discriminate].
      destruct (extractDefinitions proj e uc (errors (log_entry s e))) as [defs errs1].
      destruct (extractComponents e defs (p_markup proj (e ++ ".axml")) errs1) as [e2 ds|e2];
        destruct (check_defs_preserved _ IH _ _ _ H) as [Hpr _];
        (split; [apply (preserved_trans _ _ _ (preserved_set_new _ _ e _ eq_refl He)) in Hpr; exact Hpr|]);
        apply (preserved_has _ _ e Hpr); simpl; rewrite assoc_has_set, String.eqb_refl; reflexivity.
Qed.

Lemma closed_move s s' x :
  closed proj s x -> assoc_has (components s) x = true -> preserved s s' -> closed proj s' x.
Proof.
  intros Hc Hx Hp c Hget. unfold assoc_has in Hx.
  destruct (assoc_get (components s) x) as [c0|] eqn:E; [|discriminate].
  rewrite (Hp x c0 E) in Hget. injection Hget as <-.
  destruct (Hc c0 E) as [H1 H2]. split; [exact H1|].
  intros d Hd k p Hin. apply (preserved_has s); [exact Hp|]. exact (H2 d Hd k p Hin).
Qed.

Lemma new_closed_refl s : new_closed proj s s.
Proof. intros x H1 H2. rewrite H1 in H2. discriminate. Qed.

Lemma new_closed_trans s1 s2 s3 :
  preserved s2 s3 -> new_closed proj s1 s2 -> new_closed proj s2 s3 -> new_closed proj s1 s3.
Proof.
  intros Hp H12 H23 x Hx1 Hx3.
  destruct (assoc_has (components s2) x) eqn:Hx2.
  - apply (closed_move s2); [apply H12|..]; assumption.
  - apply H23; assumption.
Qed.

Lemma check_defs_closed rec (Hrec : good_rec rec)
    (Hcl : forall p s s', rec p s = Done s' -> new_closed proj s s') ds : forall s s',
  check_defs rec ds s = Done s' -> new_closed proj s s'.
Proof.
  induction ds as [|[k0 p0] rest IH]; intros s s' H; simpl in H.
  - inversion H; subst. apply new_closed_refl.
  - destruct (assoc_has (components s) p0) eqn:Hp; [exact (IH _ _ H)|].
    destruct (rec p0 s) as [s1|s1|] eqn:Hr; try discriminate.
    apply (new_closed_trans _ s1).
    + exact (proj1 (check_defs_preserved rec Hrec _ _ _ H)).
    + exact (Hcl _ _ _ Hr).
    + exact (IH _ _ H).
Qed.

Lemma checkComponent_closed fuel : forall e s s',
  checkComponent proj fuel e s = Done s' -> new_closed proj s s'.
Proof.
  induction fuel as [|f IH]; intros e s s' H; simpl in H; [discriminate|].
  destruct (assoc_has (components s) e) eqn:He.
  - inversion H; subst. apply new_closed_refl.
  - unfold check_new_component in H.
    destruct (firstMissing proj e) as [m|] eqn:Hm.
    + inversion H; subst. intros x Hx1 Hx2. simpl in Hx2.
      rewrite assoc_has_set in Hx2. simpl in Hx1. rewrite Hx1, orb_false_r in Hx2.
      apply String.eqb_eq in Hx2. subst x.
      intros c Hget. simpl in Hget. rewrite DefsFacts.assoc_get_set, String.eqb_refl in Hget.
      injection Hget as <-. split; [rewrite Hm; discriminate|simpl; discriminate].
    + destruct (p_manifest proj (e ++ ".json")) as [uc|]; [|discriminate].
      destruct (extractDefinitions proj e uc (errors (log_entry s e))) as [defs errs1].
      destruct (extractComponents e defs (p_markup proj (e ++ ".axml")) errs1) as [e2 ds|e2];
        (set (c := {| c_entry := e; c_deps := _; c_defs := Some defs |}) in H);
        (set (s2 := set_component (set_errors (log_entry s e) _) e c) in H);
        destruct (check_defs_preserved _ (checkComponent_preserved f) _ _ _ H) as [Hpr Hall];
        pose proof (check_defs_closed _ (checkComponent_preserved f) IH _ _ _ H) as Hcl;
        intros x Hx1 Hx3;
        (destruct (assoc_has (components s2) x) eqn:Hx2; [|exact (Hcl x Hx2 Hx3)]);
        unfold s2 in Hx2; simpl in Hx2; rewrite assoc_has_set in Hx2;
        simpl in Hx1; rewrite Hx1, orb_false_r in Hx2; apply String.eqb_eq in Hx2; subst x;
        (assert (Hg2 : assoc_get (components s2) e = Some c)
           by (unfold s2; simpl; rewrite DefsFacts.assoc_get_set, String.eqb_refl; reflexivity));
        intros c' Hget; rewrite (Hpr e c Hg2) in Hget; injection Hget as <-;
        (split; [intros _; exists defs; reflexivity|]);
        intros d Hd k p Hin; simpl in Hd; injection Hd as <-; exact (Hall k p Hin).
Qed.

Lemma checkPages_props fuel ps : forall s s',
  checkPages proj fuel ps s = Done s' -> preserved s s' /\ new_closed proj s s'.
Proof.
  induction ps as [|page rest IH]; intros s s' H; simpl in H.
  - inversion H; subst. split; [apply preserved_refl|apply new_closed_refl].
  - destruct (checkComponent proj fuel page (add_page s page)) as [s1|s1|] eqn:Hc; try discriminate.
    destruct (IH _ _ H) as [Hp2 Hc2].
    pose proof (checkComponent_preserved fuel page _ _ Hc) as [Hp1 _].
    pose proof (checkComponent_closed fuel page _ _ Hc) as Hc1.
    assert (Hp0 : preserved s (add_page s page)) by (apply preserved_same_components; reflexivity).
    split; [apply (preserved_trans _ s1); [apply (preserved_trans _ _ _ Hp0 Hp1)|exact Hp2]|].
    apply (new_closed_trans _ s1); [exact Hp2| |exact Hc2].
    intros x Hx1 Hx2. apply Hc1; [exact Hx1|exact Hx2].
Qed.

Lemma checkUnused_components s : components (checkUnused proj s) = components s.
Proof. unfold checkUnused. destruct (orphans proj (components s)); reflexivity. Qed.

Lemma set_add_In acc y x : In x (set_add acc y) -> In x acc \/ x = y.
Proof.
  unfold set_add. destruct (existsb (String.eqb y) acc); [tauto|].
  intros H. apply in_app_or in H. destruct H as [H|[H|[]]]; [left; exact H|right; symmetry; exact H].
Qed.

Lemma orphans_not_components comps x :
  In x (orphans proj comps) -> assoc_has comps x = false.
Proof.
  unfold orphans.
  assert (Hgen : forall fs acc, In x (fold_left (fun acc f =>
      if walked proj f && JS.endsWith f ".axml" then
        let componentEntry := JS.slice f 0 (-5) in
        if assoc_has comps componentEntry then acc else set_add acc componentEntry
      else acc) fs acc) -> In x acc \/ assoc_has comps x = false).
  { induction fs as [|f fs IH]; intros acc H; simpl in H; [left; exact H|].
    destruct (IH _ H) as [Ha|Ha]; [|right; exact Ha].
    destruct (walked proj f && JS.endsWith f ".axml"); [|left; exact Ha].
    destruct (assoc_has comps (JS.slice f 0 (-5))) eqn:E; [left; exact Ha|].
    destruct (set_add_In _ _ _ Ha) as [Hb| ->]; [left; exact Hb|right; exact E]. }
  intros H. destruct (Hgen _ _ H) as [[]|Hx]. exact Hx.
Qed.

End WithProject.

End RunFacts.

(** ** C9: declared targets are checked, and never reported as extraneous *)

(** C9: after a [check] run from a fresh scanner that completes, every
    component of the map whose four sibling files exist has a Definitions
    Map, and every target of that map, used by the markup or not, is a
    component of the final map and is not among the extraneous components
    [checkUnused] reports. *)
Theorem definition_targets_checked (proj : Project) (fuel : nat) (st : Scanner)
    (Hrun : check proj fuel newScanner = Done st) :
  forall e c, assoc_get (components st) e = Some c -> firstMissing proj e = None ->
    exists d, c_defs c = Some d /\
      forall k p, In (k, p) d ->
        assoc_has (components st) p = true /\ ~ In p (orphans proj (components st)).
Proof.
  unfold check, checkApp in Hrun.
  destruct (checkPages proj fuel (p_pages proj) (set_errors newScanner emptyErrors))
    as [s'|s'|] eqn:Hp; try discriminate.
  injection Hrun as <-.
  destruct (RunFacts.checkPages_props proj _ _ _ _ Hp) as [_ Hcl].
  rewrite RunFacts.checkUnused_components.
  intros e c Hget Hfm.
  assert (Hhas : assoc_has (components s') e = true) by (unfold assoc_has; rewrite Hget; reflexivity).
  destruct (Hcl e eq_refl Hhas c Hget) as [Hd Ht].
  destruct (Hd Hfm) as [d Hcd].
  exists d. split; [exact Hcd|].
  intros k p Hin. pose proof (Ht d Hcd k p Hin) as Hp'.
  split; [exact Hp'|].
  intros Ho. apply RunFacts.orphans_not_components in Ho. congruence.
Qed.

Lemma definition_targets_checked_witness :
  check cycle_project 10 newScanner
    = Done (match check cycle_project 10 newScanner with Done s => s | _ => newScanner end) /\
  forall e c,
    assoc_get (components (match check cycle_project 10 newScanner with Done s => s | _ => newScanner end)) e = Some c ->
    firstMissing cycle_project e = None ->
    exists d, c_defs c = Some d /\
      forall k p, In (k, p) d ->
        assoc_has (components (match check cycle_project 10 newScanner with Done s => s | _ => newScanner end)) p = true /\
        ~ In p (orphans cycle_project
                  (components (match check cycle_project 10 newScanner with Done s => s | _ => newScanner end))).
Proof.
  assert (H : check cycle_project 10 newScanner
    = Done (match check cycle_project 10 newScanner with Done s => s | _ => newScanner end))
    by (vm_compute; reflexivity).
  split; [exact H|].
  exact (definition_targets_checked cycle_project 10 _ H).
Defined.

(** ** Termination and the trace of the resolution *)

Module TermFacts.

Lemma In_assoc_set {A} (l : list (string * A)) k v a b :
  In (a, b) (assoc_set l k v) -> In (a, b) l \/ (a, b) = (k, v).
Proof.
  induction l as [|[k' v'] r IH]; simpl; intros H.
  - destruct H as [H|[]]. right. symmetry. exact H.
  - destruct (String.eqb k k') eqn:E.
    + apply String.eqb_eq in E. subst k'.
      destruct H as [H|H]; [right; symmetry; exact H|left; right; exact H].
    + destruct H as [H|H]; [left; left; exact H|].
      destruct (IH H) as [H1|H1]; [left; right; exact H1|right; exact H1].
Qed.

Lemma string_length_app (p s : string) :
  String.length (p ++ s) = (String.length p + String.length s)%nat.
Proof. induction p as [|c p IH]; simpl; [reflexivity|rewrite IH; reflexivity]. Qed.

Lemma substring_prefix (p s : string) : substring 0 (String.length p) (p ++ s) = p.
Proof. induction p as [|c p IH]; simpl; [destruct s; reflexivity|rewrite IH; reflexivity]. Qed.

Lemma slice_json (p : string) : JS.slice (p ++ ".json") 0 (-5) = p.
Proof.
  unfold JS.slice, JS.slice_index. rewrite string_length_app.
  change (String.length ".json") with 5%nat.
  change ((0 <? 0)%Z) with false. change ((-5 <? 0)%Z) with true. cbv iota beta.
  replace (Z.to_nat (Z.min 0 (Z.of_nat (String.length p + 5)))) with 0%nat by lia.
  replace (Z.to_nat (Z.max 0 (Z.of_nat (String.length p + 5) + -5))) with (String.length p) by lia.
  rewrite Nat.sub_0_r. apply substring_prefix.
Qed.

Lemma NoDup_snoc {A} (l : list A) x : NoDup l -> ~ In x l -> NoDup (l ++ [x])%list.
Proof.
  induction l as [|y l IH]; simpl; intros Hnd Hx.
  - constructor; [intros []|constructor].
  - inversion Hnd as [|? ? Hy Hnd']; subst. constructor.
    + intros Hin. apply in_app_or in Hin. destruct Hin as [Hin|[Hin|[]]]; [tauto|].
      subst. tauto.
    + apply IH; tauto.
Qed.

Lemma filter_length_le {A} (f : A -> bool) l : (List.length (filter f l) <= List.length l)%nat.
Proof. induction l as [|y l IH]; simpl; [lia|destruct (f y); simpl; lia]. Qed.

Lemma filter_length_mono {A} (f g : A -> bool) l :
  (forall x, In x l -> f x = true -> g x = true) ->
  (List.length (filter f l) <= List.length (filter g l))%nat.
Proof.
  induction l as [|y l IH]; simpl; intros H; [lia|].
  assert (IH' : (List.length (filter f l) <= List.length (filter g l))%nat)
    by (apply IH; intros x Hx; apply H; right; exact Hx).
  destruct (f y) eqn:Ef.
  - rewrite (H y (or_introl eq_refl) Ef). simpl. lia.
  - destruct (g y); simpl; lia.
Qed.

Lemma filter_length_strict {A} (f g : A -> bool) l x :
  (forall y, In y l -> f y = true -> g y = true) -> In x l -> f x = false -> g x = true ->
  (List.length (filter f l) < List.length (filter g l))%nat.
Proof.
  induction l as [|y l IH]; simpl; intros H Hx Hf Hg; [contradiction|].
  assert (Hl : forall z, In z l -> f z = true -> g z = true)
    by (intros z Hz; apply H; right; exact Hz).
  destruct Hx as [<-|Hx].
  - rewrite Hf, Hg. simpl. pose proof (filter_length_mono f g l Hl). lia.
  - pose proof (IH Hl Hx Hf Hg).
    destruct (f y) eqn:Ef.
    + rewrite (H y (or_introl eq_refl) Ef). simpl. lia.
    + destruct (g y); simpl; lia.
Qed.

Section WithProject.

Variable proj : Project.

Lemma universe_file p : isFile proj (p ++ ".json") = true -> In p (universe proj).
Proof.
  intros H. unfold isFile in H. apply existsb_exists in H. destruct H as [f [Hf Heq]].
  apply String.eqb_eq in Heq. subst f.
  pose proof (in_map (fun f => JS.slice f 0 (-5)) _ _ Hf) as Hm. cbv beta in Hm.
  rewrite slice_json in Hm. unfold universe. apply in_or_app. right. exact Hm.
Qed.

Lemma universe_page p : In p (p_pages proj) -> In p (universe proj).
Proof. intros H. unfold universe. apply in_or_app. left. exact H. Qed.

Lemma collect_defs_targets entry uc : forall defs errs k p,
  In (k, p) (fst (collect_defs proj entry uc defs errs)) ->
  In (k, p) defs \/ isFile proj (p ++ ".json") = true.
Proof.
  induction uc as [|[key value] rest IH]; intros defs errs k p H; simpl in H; [left; exact H|].
  destruct (isFile proj (modulePathOf entry value ++ ".json")) eqn:Hf.
  - destruct (IH _ _ _ _ H) as [H1|H1]; [|right; exact H1].
    destruct (In_assoc_set _ _ _ _ _ H1) as [H2|H2]; [left; exact H2|].
    injection H2 as -> ->. right. exact Hf.
  - exact (IH _ _ _ _ H).
Qed.

Lemma extractDefinitions_targets entry uc errs k p :
  In (k, p) (fst (extractDefinitions proj entry uc errs)) -> In p (universe proj).
Proof.
  intros H. destruct (collect_defs_targets _ _ _ _ _ _ H) as [[]|Hf].
  apply universe_file. exact Hf.
Qed.

Lemma pending_le s :
  (pending proj s <= List.length (p_pages proj) + List.length (p_files proj))%nat.
Proof.
  unfold pending, universe. pose proof (filter_length_le
    (fun u => negb (assoc_has (components s) u))
    (p_pages proj ++ map (fun f => JS.slice f 0 (-5)) (p_files proj))%list) as H.
  rewrite length_app, length_map in H. exact H.
Qed.

Lemma pending_mono s s' : preserved s s' -> (pending proj s' <= pending proj s)%nat.
Proof.
  intros Hp. unfold pending. apply filter_length_mono.
  intros x _ Hx. apply negb_true_iff in Hx. apply negb_true_iff.
  destruct (assoc_has (components s) x) eqn:E; [|reflexivity].
  rewrite (RunFacts.preserved_has _ _ _ Hp E) in Hx. discriminate.
Qed.

Lemma pending_insert s x e c :
  components x = components s -> In e (universe proj) -> assoc_has (components s) e = false ->
  (pending proj (set_component x e c) < pending proj s)%nat.
Proof.
  intros Hx He Hh. unfold pending.
  apply (filter_length_strict _ _ _ e).
  - intros y _ Hy. apply negb_true_iff in Hy. apply negb_true_iff.
    destruct (assoc_has (components s) y) eqn:E; [|reflexivity].
    pose proof (RunFacts.preserved_set_new s x e c Hx Hh) as Hp.
    rewrite (RunFacts.preserved_has _ _ _ Hp E) in Hy. discriminate.
  - exact He.
  - cbn [components set_component]. rewrite RunFacts.assoc_has_set, String.eqb_refl. reflexivity.
  - rewrite Hh. reflexivity.
Qed.

Lemma check_defs_fuel (rec : string -> Scanner -> Run) (f : nat)
    (Hgood : RunFacts.good_rec rec)
    (Hrec : forall p s, In p (universe proj) -> (pending proj s < f)%nat -> rec p s <> OutOfFuel)
    ds :
  (forall k p, In (k, p) ds -> In p (universe proj)) ->
  forall s, (pending proj s < f)%nat -> check_defs rec ds s <> OutOfFuel.
Proof.
  induction ds as [|[k p] rest IH]; intros Hds s Hs; simpl; [discriminate|].
  assert (Hrest : forall k' p', In (k', p') rest -> In p' (universe proj))
    by (intros k' p' H; apply (Hds k'); right; exact H).
  destruct (assoc_has (components s) p) eqn:Hh; [apply IH; assumption|].
  destruct (rec p s) as [s1|s1|] eqn:Er.
  - apply IH; [exact Hrest|].
    destruct (Hgood _ _ _ Er) as [Hp _]. pose proof (pending_mono _ _ Hp). lia.
  - discriminate.
  - exfalso. apply (Hrec p s); [apply (Hds k); left; reflexivity|exact Hs|exact Er].
Qed.

Lemma checkComponent_fuel fuel : forall e s,
  In e (universe proj) -> (pending proj s < fuel)%nat -> checkComponent proj fuel e s <> OutOfFuel.
Proof.
  induction fuel as [|f IH]; intros e s He Hs; [lia|]. simpl.
  destruct (assoc_has (components s) e) eqn:Hh; [discriminate|].
  unfold check_new_component.
  destruct (firstMissing proj e); [discriminate|].
  destruct (p_manifest proj (e ++ ".json")) as [uc|]; [|discriminate].
  destruct (extractDefinitions proj e uc (errors (log_entry s e))) as [defs errs1] eqn:Hx.
  destruct (extractComponents _ _ _ _);
  (apply (check_defs_fuel _ f (RunFacts.checkComponent_preserved proj f) IH);
   [ intros k p Hin; apply (extractDefinitions_targets e uc (errors (log_entry s e)) k);
     rewrite Hx; exact Hin
   | apply (Nat.lt_le_trans _ (pending proj s));
     [apply pending_insert; [reflexivity|exact He|exact Hh]|lia] ]).
Qed.

Lemma checkPages_fuel fuel ps :
  (forall p, In p ps -> In p (universe proj)) ->
  forall s, (pending proj s < fuel)%nat -> checkPages proj fuel ps s <> OutOfFuel.
Proof.
  induction ps as [|page rest IH]; intros Hps s Hs; simpl; [discriminate|].
  destruct (checkComponent proj fuel page (add_page s page)) as [s1|s1|] eqn:E.
  - apply IH; [intros p Hp; apply Hps; right; exact Hp|].
    destruct (RunFacts.checkComponent_preserved proj fuel _ _ _ E) as [Hp _].
    pose proof (pending_mono _ _ Hp). unfold pending in *. simpl in *. lia.
  - discriminate.
  - exfalso. apply (checkComponent_fuel fuel page (add_page s page)); [|exact Hs|exact E].
    apply Hps. left. reflexivity.
Qed.

Lemma trace_insert s x e c :
  trace_ok s -> assoc_has (components s) e = false -> components x = components s ->
  trace x = (trace s ++ [e])%list -> trace_ok (set_component x e c).
Proof.
  intros [Hnd Hin] Hh Hc Ht. split; cbn [trace components set_component]; rewrite Ht.
  - apply NoDup_snoc; [exact Hnd|]. intros H. rewrite (Hin _ H) in Hh. discriminate.
  - intros y Hy. rewrite RunFacts.assoc_has_set, Hc.
    apply in_app_or in Hy. destruct Hy as [Hy|[<-|[]]].
    + rewrite (Hin _ Hy). apply orb_true_r.
    + rewrite String.eqb_refl. reflexivity.
Qed.

Lemma check_defs_trace (rec : string -> Scanner -> Run)
    (Hrec : forall p s, trace_ok s -> trace_result (rec p s)) ds :
  forall s, trace_ok s -> trace_result (check_defs rec ds s).
Proof.
  induction ds as [|[k p] rest IH]; intros s Hs; simpl; [exact Hs|].
  destruct (assoc_has (components s) p); [apply IH; exact Hs|].
  pose proof (Hrec p s Hs) as H.
  destruct (rec p s); [apply IH; exact H|exact H|exact I].
Qed.

Lemma checkComponent_trace fuel : forall e s,
  trace_ok s -> trace_result (checkComponent proj fuel e s).
Proof.
  induction fuel as [|f IH]; intros e s Hs; simpl; [exact I|].
  destruct (assoc_has (components s) e) eqn:Hh; [exact Hs|].
  unfold check_new_component.
  destruct (firstMissing proj e).
  - apply (trace_insert s); [exact Hs|exact Hh|reflexivity|reflexivity].
  - destruct (p_manifest proj (e ++ ".json")) as [uc|].
    + destruct (extractDefinitions proj e uc (errors (log_entry s e))) as [defs errs1].
      destruct (extractComponents _ _ _ _);
      (apply (check_defs_trace _ IH);
       apply (trace_insert s); [exact Hs|exact Hh|reflexivity|reflexivity]).
    + simpl. apply NoDup_snoc; [apply Hs|].
      intros H. rewrite (proj2 Hs _ H) in Hh. discriminate.
Qed.

Lemma checkPages_trace fuel ps : forall s, trace_ok s -> trace_result (checkPages proj fuel ps s).
Proof.
  induction ps as [|page rest IH]; intros s Hs; simpl; [exact Hs|].
  pose proof (checkComponent_trace fuel page (add_page s page) Hs) as H.
  destruct (checkComponent proj fuel page (add_page s page)); [apply IH; exact H|exact H|exact I].
Qed.

End WithProject.

End TermFacts.

(** ** C1: termination, and each logical path processed at most once *)

(** C1: component resolution terminates on every project: with fuel above
    the number of pages plus files, no run of [check] exhausts it, whatever
    the starting scanner.  A logical path already in the component map is a
    no-op for [checkComponent].  The trace of the entries processed never
    repeats one, whether the run finishes or aborts.  On the project where
    [A]'s markup uses [B] and [B]'s uses [A], each of them is processed
    exactly once and no fatal error is recorded. *)
Theorem resolution_terminates_once :
  (forall proj fuel st,
     (List.length (p_pages proj) + List.length (p_files proj) < fuel)%nat ->
     check proj fuel st <> OutOfFuel) /\
  (forall proj f e s, assoc_has (components s) e = true ->
     checkComponent proj (S f) e s = Done s) /\
  (forall proj fuel,
     match check proj fuel newScanner with
     | Done s | Abort s => NoDup (trace s)
     | OutOfFuel => True
     end) /\
  match check cycle_project 15 newScanner with
  | Done s => trace s = ["A"; "B"; "U"] /\ fatal (errors s) = []
  | _ => False
  end.
Proof.
  split; [|split; [|split]].
  - intros proj fuel st Hf. unfold check, checkApp.
    pose proof (TermFacts.checkPages_fuel proj fuel (p_pages proj)
                  (TermFacts.universe_page proj) (set_errors st emptyErrors)) as H.
    destruct (checkPages proj fuel (p_pages proj) (set_errors st emptyErrors)); try discriminate.
    apply H. pose proof (TermFacts.pending_le proj (set_errors st emptyErrors)). lia.
  - intros proj f e s Hh. simpl. rewrite Hh. reflexivity.
  - intros proj fuel. unfold check, checkApp.
    assert (H0 : trace_ok (set_errors newScanner emptyErrors))
      by (split; [constructor|intros x []]).
    pose proof (TermFacts.checkPages_trace proj fuel (p_pages proj) _ H0) as H.
    destruct (checkPages proj fuel (p_pages proj) (set_errors newScanner emptyErrors))
      as [s|s|]; [|exact H|exact I].
    unfold checkUnused. destruct (orphans proj (components s)); apply H.
  - vm_compute. split; reflexivity.
Qed.

(** * Further properties of the scanner *)

Module MoreFacts.

Lemma ledger_push_keys l k items :
  map fst (ledger_push l k items) =
    if existsb (String.eqb k) (map fst l) then map fst l else (map fst l ++ [k])%list.
Proof.
  induction l as [|[k0 v0] r IH]; simpl; [reflexivity|].
  destruct (String.eqb k k0) eqn:E; simpl; [reflexivity|].
  rewrite IH. destruct (existsb (String.eqb k) (map fst r)); reflexivity.
Qed.

Lemma scan_lines_sum (ls : list string) : forall line col,
  exists k, fst (scan_lines ls line col) = line + Z.of_nat k /\
            col = Z.of_nat (span_len (firstn k ls)) + snd (scan_lines ls line col).
Proof.
  induction ls as [|l rest IH]; intros line col; simpl.
  - exists 0%nat. simpl. split; lia.
  - destruct (Z.of_nat (String.length l) <? col) eqn:E.
    + destruct (IH (line + 1) (col - (Z.of_nat (String.length l) + 1))) as (k & H1 & H2).
      exists (S k).
      change (span_len (firstn (S k) (l :: rest)))
        with (S (String.length l) + span_len (firstn k rest))%nat.
      split; lia.
    + exists 0%nat. simpl. split; lia.
Qed.

Lemma cursor_loop_plain (cur : string) (Hp : forall j c, String.get j cur = Some c -> plain_ascii c = true) :
  forall n i acc, 0 <= i -> cursor_loop cur n i acc = acc + Z.of_nat n.
Proof.
  induction n as [|n IH]; intros i acc Hi; simpl; [lia|].
  rewrite IH by lia.
  destruct (String.get (Z.to_nat i) cur) as [c|] eqn:Eg; [|lia].
  pose proof (Hp _ _ Eg) as Hc. unfold plain_ascii in Hc.
  apply andb_true_iff in Hc. destruct Hc as [H1 H2].
  apply Nat.ltb_lt in H1. apply negb_true_iff in H2. rewrite H2.
  replace (127 <? Z.of_nat (nat_of_ascii c)) with false by (symmetry; apply Z.ltb_ge; lia).
  simpl. lia.
Qed.

Lemma get_to_list (s : string) j c : String.get j s = Some c -> In c (Path.to_list s).
Proof.
  revert j. induction s as [|c0 s IH]; intros j H; simpl in H; [discriminate|].
  destruct j as [|j]; [injection H as <-; left; reflexivity|right; exact (IH _ H)].
Qed.

Lemma split_on_chars (sep : ascii) (s : string) : forall part, In part (JS.split_on sep s) ->
  forall c, In c (Path.to_list part) -> In c (Path.to_list s).
Proof.
  induction s as [|c0 rest IH]; intros part Hin c Hc; simpl in Hin.
  - destruct Hin as [<-|[]]. contradiction.
  - destruct (Ascii.eqb c0 sep).
    + destruct Hin as [<-|Hin]; [contradiction|]. right. exact (IH _ Hin _ Hc).
    + destruct (JS.split_on sep rest) as [|p ps] eqn:E.
      * destruct Hin as [<-|[]]. simpl in Hc. destruct Hc as [Hc|[]]. left. exact Hc.
      * destruct Hin as [<-|Hin].
        -- simpl in Hc. destruct Hc as [Hc|Hc]; [left; exact Hc|].
           right. apply (IH p); [left; reflexivity|exact Hc].
        -- right. apply (IH part); [right; exact Hin|exact Hc].
Qed.

Lemma existsb_eqb_In (x : string) l : existsb (String.eqb x) l = true <-> In x l.
Proof.
  rewrite existsb_exists. split.
  - intros [y [Hy E]]. apply String.eqb_eq in E. subst. exact Hy.
  - intros H. exists x. split; [exact H|apply String.eqb_refl].
Qed.

Lemma set_add_NoDup s x : NoDup s -> NoDup (set_add s x).
Proof.
  intros H. unfold set_add. destruct (existsb (String.eqb x) s) eqn:E; [exact H|].
  apply TermFacts.NoDup_snoc; [exact H|]. intros Hin. apply existsb_eqb_In in Hin. congruence.
Qed.

Lemma set_add_In_iff s x y : In y (set_add s x) <-> In y s \/ y = x.
Proof.
  unfold set_add. destruct (existsb (String.eqb x) s) eqn:E.
  - apply existsb_eqb_In in E. split; [tauto|]. intros [H| ->]; assumption.
  - rewrite in_app_iff. simpl. split; intros [H|H]; try tauto.
    + destruct H as [H|[]]. right. symmetry. exact H.
    + right. left. symmetry. exact H.
Qed.

End MoreFacts.

(** ** [addError]: append under the key, in [Map] insertion order *)

(** [addError(entry, items, type)] appends [items] at the end of the
    [type] list of [entry] (creating it), leaves every other key and the
    other severity unchanged, and keeps the keys in insertion order: a new
    key goes last. *)
Theorem addError_appends (errs : Errors) (entry k : string) (items : list (option IErrorRef))
    (t : Severity) :
  ledger_get (ledger_of (addError errs entry items t) t) k =
    (if String.eqb k entry
     then Some ((match ledger_get (ledger_of errs t) entry with Some v => v | None => [] end)
                ++ items)%list
     else ledger_get (ledger_of errs t) k) /\
  ledger_of (addError errs entry items t) (other_severity t) = ledger_of errs (other_severity t) /\
  map fst (ledger_of (addError errs entry items t) t) =
    (if existsb (String.eqb entry) (map fst (ledger_of errs t))
     then map fst (ledger_of errs t) else map fst (ledger_of errs t) ++ [entry])%list.
Proof.
  destruct t; simpl; (split; [apply LedgerFacts.ledger_push_get|split; [reflexivity|]]);
    apply MoreFacts.ledger_push_keys.
Qed.

(** ** [reprStr]: where the reported position is *)

(** For an offset within the text, the 1-based line and column [reprStr]
    reports locate it: the lines before the reported one, each with its
    newline, add up to [offset - (col - 1)], and [col - 1] is at most the
    length of the reported line. *)
Theorem reprStr_locates_offset (input msg : string) (off : nat)
    (Hoff : (off <= String.length input)%nat) :
  exists r line col cur,
    reprStr input (Z.of_nat off) msg = Some r /\ er_line r = Some line /\ er_col r = Some col /\
    nth_error (JS.split_on JS.nl input) (Z.to_nat (line - 1)) = Some cur /\
    Z.of_nat off = Z.of_nat (lines_before input (Z.to_nat (line - 1))) + (col - 1) /\
    0 <= col - 1 <= Z.of_nat (String.length cur).
Proof.
  pose proof (ReprFacts.split_on_span JS.nl input) as Hspan.
  destruct (ReprFacts.scan_lines_inside (JS.split_on JS.nl input) 0 (Z.of_nat off))
    as (k & cur & Heq & Hn & Hb).
  { rewrite Hspan. lia. }
  destruct (MoreFacts.scan_lines_sum (JS.split_on JS.nl input) 0 (Z.of_nat off)) as (k' & H1 & H2).
  unfold reprStr.
  destruct (scan_lines (JS.split_on JS.nl input) 0 (Z.of_nat off)) as [line col] eqn:Hs.
  simpl in Heq, Hb, H1, H2. injection Heq as Hl. subst line.
  assert (k' = k) by lia. subst k'.
  rewrite ?Z.add_0_l, Nat2Z.id, Hn.
  eexists _, _, _, cur. split; [reflexivity|]. simpl.
  split; [reflexivity|]. split; [reflexivity|].
  replace (Z.to_nat (Z.of_nat k + 1 - 1)) with k by lia.
  split; [exact Hn|]. unfold lines_before. split; lia.
Qed.

Lemma reprStr_locates_offset_witness :
  (3 <= String.length ("ab" ++ String JS.nl "cd"))%nat /\
  exists r line col cur,
    reprStr ("ab" ++ String JS.nl "cd") (Z.of_nat 3) "m" = Some r /\ er_line r = Some line /\
    er_col r = Some col /\
    nth_error (JS.split_on JS.nl ("ab" ++ String JS.nl "cd")) (Z.to_nat (line - 1)) = Some cur /\
    Z.of_nat 3 = Z.of_nat (lines_before ("ab" ++ String JS.nl "cd") (Z.to_nat (line - 1))) + (col - 1) /\
    0 <= col - 1 <= Z.of_nat (String.length cur).
Proof.
  assert (H : (3 <= String.length ("ab" ++ String JS.nl "cd"))%nat) by (simpl; lia).
  split; [exact H|]. exact (reprStr_locates_offset _ "m" 3 H).
Defined.

(** When the text has no tab and no character above code 127, and the
    reported column is at most 101, the second content line of [reprStr]
    is [col - 1] spaces and a caret: the caret stands under the column. *)
Theorem reprStr_caret_under_column (input msg : string) (off : Z)
    (Hplain : forallb plain_ascii (Path.to_list input) = true) :
  forall r col, reprStr input off msg = Some r -> er_col r = Some col -> col <= 101 ->
    exists code, er_content r = Some [code; JS.repeat_str " " (Z.to_nat (col - 1)) ++ "^"].
Proof.
  intros r c0 Hr Hc Hle. unfold reprStr in Hr.
  destruct (scan_lines (JS.split_on JS.nl input) 0 off) as [line col] eqn:Hs.
  destruct (nth_error (JS.split_on JS.nl input) (Z.to_nat line)) as [cur|] eqn:Hn; [|discriminate].
  injection Hr as <-. simpl in Hc. injection Hc as <-.
  replace (Z.max 0 (col - 100)) with 0 by lia.
  eexists. simpl. f_equal. f_equal. f_equal. f_equal.
  rewrite (MoreFacts.cursor_loop_plain cur) by (try lia; intros j c Hg;
    apply (proj1 (forallb_forall _ _) Hplain);
    apply (MoreFacts.split_on_chars JS.nl input cur (nth_error_In _ _ Hn));
    exact (MoreFacts.get_to_list _ _ _ Hg)).
  f_equal. lia.
Qed.

Lemma reprStr_caret_under_column_witness :
  forallb plain_ascii (Path.to_list ("ab" ++ String JS.nl "cd")) = true /\
  forall r col, reprStr ("ab" ++ String JS.nl "cd") 4 "m" = Some r -> er_col r = Some col ->
    col <= 101 ->
    exists code, er_content r = Some [code; JS.repeat_str " " (Z.to_nat (col - 1)) ++ "^"].
Proof.
  assert (H : forallb plain_ascii (Path.to_list ("ab" ++ String JS.nl "cd")) = true)
    by (vm_compute; reflexivity).
  split; [exact H|]. exact (reprStr_caret_under_column _ "m" 4 H).
Defined.

Module RunInv.

Section Inv.

Variable proj : Project.
Variable P : Scanner -> Prop.
Hypothesis HP_log : forall s e, P s -> P (log_entry s e).
Hypothesis HP_err : forall s e, P s -> P (set_errors s e).
Hypothesis HP_set : forall s e c, P s -> c_entry c = e -> P (set_component s e c).

Definition run_P (r : Run) : Prop :=
  match r with Done s | Abort s => P s | OutOfFuel => True end.

Lemma check_defs_inv (rec : string -> Scanner -> Run)
    (Hrec : forall p s, P s -> run_P (rec p s)) ds :
  forall s, P s -> run_P (check_defs rec ds s).
Proof.
  induction ds as [|[k p] rest IH]; intros s Hs; simpl; [exact Hs|].
  destruct (assoc_has (components s) p); [apply IH; exact Hs|].
  pose proof (Hrec p s Hs) as H.
  destruct (rec p s); [apply IH; exact H|exact H|exact I].
Qed.

Lemma checkComponent_inv fuel : forall e s, P s -> run_P (checkComponent proj fuel e s).
Proof.
  induction fuel as [|f IH]; intros e s Hs; simpl; [exact I|].
  destruct (assoc_has (components s) e); [exact Hs|].
  unfold check_new_component.
  destruct (firstMissing proj e).
  - apply HP_set; [apply HP_err, HP_log, Hs|reflexivity].
  - destruct (p_manifest proj (e ++ ".json")) as [uc|]; [|apply HP_log, Hs].
    destruct (extractDefinitions proj e uc (errors (log_entry s e))) as [defs errs1].
    destruct (extractComponents _ _ _ _);
    (apply (check_defs_inv _ IH); apply HP_set; [apply HP_err, HP_log, Hs|reflexivity]).
Qed.

Hypothesis HP_page : forall s p, P s -> P (add_page s p).

Lemma checkPages_inv fuel ps : forall s, P s -> run_P (checkPages proj fuel ps s).
Proof.
  induction ps as [|page rest IH]; intros s Hs; simpl; [exact Hs|].
  pose proof (checkComponent_inv fuel page (add_page s page) (HP_page _ _ Hs)) as H.
  destruct (checkComponent proj fuel page (add_page s page)); [apply IH; exact H|exact H|exact I].
Qed.

End Inv.

Lemma checkComponent_pages proj fuel e s :
  run_P (fun s' => pages s' = pages s) (checkComponent proj fuel e s).
Proof.
  apply (checkComponent_inv proj (fun s' => pages s' = pages s)); simpl; auto.
Qed.

Lemma checkPages_pages proj fuel ps : forall s s',
  checkPages proj fuel ps s = Done s' ->
  (forall y, In y (pages s') <-> In y (pages s) \/ In y ps) /\
  (NoDup (pages s) -> NoDup (pages s')) /\
  (forall p, In p ps -> assoc_has (components s') p = true) /\
  preserved s s'.
Proof.
  induction ps as [|page rest IH]; intros s s' H; simpl in H.
  - injection H as <-. split; [intros y; simpl; tauto|].
    split; [tauto|]. split; [intros p []|apply RunFacts.preserved_refl].
  - destruct (checkComponent proj fuel page (add_page s page)) as [s1|s1|] eqn:E; try discriminate.
    pose proof (checkComponent_pages proj fuel page (add_page s page)) as Hpg.
    rewrite E in Hpg. simpl in Hpg.
    destruct (RunFacts.checkComponent_preserved proj fuel _ _ _ E) as [Hp1 Hh1].
    destruct (IH _ _ H) as (Hin & Hnd & Hall & Hp2).
    split; [|split; [|split]].
    + intros y. rewrite Hin, Hpg. simpl. rewrite MoreFacts.set_add_In_iff.
      split; [intros [[Hy|Hy]|Hy]; [left; exact Hy|right; left; symmetry; exact Hy|right; right; exact Hy]|].
      intros [Hy|[Hy|Hy]]; [left; left; exact Hy|left; right; symmetry; exact Hy|right; exact Hy].
    + intros Hnd0. apply Hnd. rewrite Hpg. apply MoreFacts.set_add_NoDup, Hnd0.
    + intros p [<-|Hp]; [|apply Hall, Hp]. exact (RunFacts.preserved_has _ _ _ Hp2 Hh1).
    + apply (RunFacts.preserved_trans _ s1); [|exact Hp2].
      apply (RunFacts.preserved_trans _ (add_page s page)); [|exact Hp1].
      apply RunFacts.preserved_same_components. reflexivity.
Qed.

Lemma keys_ok_set s e c : keys_ok s -> c_entry c = e -> keys_ok (set_component s e c).
Proof.
  intros Hk Hc k c' H. simpl in H. rewrite DefsFacts.assoc_get_set in H.
  destruct (String.eqb k e) eqn:E.
  - injection H as <-. apply String.eqb_eq in E. congruence.
  - exact (Hk _ _ H).
Qed.

Lemma orphans_fold proj (comps : list (string * IComponent)) : forall fs acc,
  (NoDup acc -> NoDup (fold_left (orphan_step proj comps) fs acc)) /\
  (forall x, In x (fold_left (orphan_step proj comps) fs acc) <->
     In x acc \/ exists f, In f fs /\ walked proj f = true /\ JS.endsWith f ".axml" = true /\
                           JS.slice f 0 (-5) = x /\ assoc_has comps x = false).
Proof.
  induction fs as [|f fs IH]; intros acc; simpl.
  - split; [tauto|]. intros x. split; [tauto|]. intros [H|(f & [] & _)]. exact H.
  - destruct (IH (orphan_step proj comps acc f)) as [IHn IHi]. split.
    + intros Hnd. apply IHn. unfold orphan_step.
      destruct (walked proj f && JS.endsWith f ".axml"); [|exact Hnd].
      destruct (assoc_has comps (JS.slice f 0 (-5))); [exact Hnd|apply MoreFacts.set_add_NoDup, Hnd].
    + intros x. rewrite IHi. unfold orphan_step.
      destruct (walked proj f) eqn:Hw; destruct (JS.endsWith f ".axml") eqn:He; simpl.
      * destruct (assoc_has comps (JS.slice f 0 (-5))) eqn:Ha.
        -- split.
           ++ intros [H|(g & Hg & H1)]; [tauto|right; exists g; tauto].
           ++ intros [H|(g & [<-|Hg] & H1 & H2 & H3 & H4)]; [tauto| |right; exists g; tauto].
              subst x. congruence.
        -- rewrite MoreFacts.set_add_In_iff. split.
           ++ intros [[H|H]|(g & Hg & H1)]; [tauto| |right; exists g; tauto].
              right. exists f. subst x. tauto.
           ++ intros [H|(g & [<-|Hg] & H1 & H2 & H3 & H4)]; [tauto| |].
              ** left. right. symmetry. exact H3.
              ** right. exists g. tauto.
      * split; [intros [H|(g & Hg & H1)]; [tauto|right; exists g; tauto]|].
        intros [H|(g & [<-|Hg] & H1 & H2 & H3 & H4)]; [tauto|congruence|right; exists g; tauto].
      * split; [intros [H|(g & Hg & H1)]; [tauto|right; exists g; tauto]|].
        intros [H|(g & [<-|Hg] & H1 & H2 & H3 & H4)]; [tauto|congruence|right; exists g; tauto].
      * split; [intros [H|(g & Hg & H1)]; [tauto|right; exists g; tauto]|].
        intros [H|(g & [<-|Hg] & H1 & H2 & H3 & H4)]; [tauto|congruence|right; exists g; tauto].
Qed.

Lemma orphans_as_fold proj comps :
  orphans proj comps = fold_left (orphan_step proj comps) (p_files proj) [].
Proof. reflexivity. Qed.

Lemma unused_fold title us : forall errs v,
  ledger_get (warning errs) title = Some v ->
  ledger_get (warning (fold_left (fun e u => addError e title [Some (msgError u)] Warning) us errs))
    title = Some (v ++ map (fun u => Some (msgError u)) us)%list /\
  fatal (fold_left (fun e u => addError e title [Some (msgError u)] Warning) us errs) = fatal errs /\
  (forall k, k <> title ->
     ledger_get (warning (fold_left (fun e u => addError e title [Some (msgError u)] Warning) us errs))
       k = ledger_get (warning errs) k).
Proof.
  induction us as [|u us IH]; intros errs v Hv; cbn [fold_left map].
  - rewrite app_nil_r. split; [exact Hv|split; [reflexivity|intros; reflexivity]].
  - assert (H1 : ledger_get (warning (addError errs title [Some (msgError u)] Warning)) title
                 = Some (v ++ [Some (msgError u)])%list).
    { simpl. rewrite LedgerFacts.ledger_push_get, String.eqb_refl, Hv. reflexivity. }
    destruct (IH _ _ H1) as (Ha & Hb & Hc). split; [|split].
    + rewrite Ha, <- app_assoc. reflexivity.
    + rewrite Hb. reflexivity.
    + intros k Hk. rewrite (Hc k Hk). cbn [addError warning]. rewrite LedgerFacts.ledger_push_get.
      apply String.eqb_neq in Hk. rewrite Hk. reflexivity.
Qed.

End RunInv.

(** ** [checkUnused]: the extraneous components *)

(** [checkUnused] reports, without repetition, exactly the [.axml] files
    outside [node_modules] whose path minus [.axml] is not a component.
    With none it changes nothing; otherwise, when its title key
    ["<n> extraneous components are found"] is new, the warnings under
    that key are one message per such path, in walk order, and no other
    key and no fatal error changes. *)
Theorem checkUnused_reports_orphans (proj : Project) (s : Scanner) :
  NoDup (orphans proj (components s)) /\
  (forall x, In x (orphans proj (components s)) <->
     exists f, In f (p_files proj) /\ walked proj f = true /\ JS.endsWith f ".axml" = true /\
               JS.slice f 0 (-5) = x /\ assoc_has (components s) x = false) /\
  (orphans proj (components s) = [] -> checkUnused proj s = s) /\
  (forall title, title = orphan_title (List.length (orphans proj (components s))) ->
   orphans proj (components s) <> [] ->
   ledger_get (warning (errors s)) title = None ->
   ledger_get (warning (errors (checkUnused proj s))) title =
     Some (map (fun u => Some (msgError u)) (orphans proj (components s))) /\
   fatal (errors (checkUnused proj s)) = fatal (errors s) /\
   forall k, k <> title ->
     ledger_get (warning (errors (checkUnused proj s))) k = ledger_get (warning (errors s)) k).
Proof.
  destruct (RunInv.orphans_fold proj (components s) (p_files proj) []) as [Hnd Hin].
  rewrite <- RunInv.orphans_as_fold in Hnd, Hin.
  split; [apply Hnd; constructor|]. split.
  { intros x. rewrite Hin. simpl. split; [intros [[]|H]; exact H|intros H; right; exact H]. }
  split; [intros H; unfold checkUnused; rewrite H; reflexivity|].
  intros title Ht Hne Hnone. unfold checkUnused.
  destruct (orphans proj (components s)) as [|u us] eqn:Eo; [congruence|].
  rewrite <- Ht. cbn [errors set_errors fold_left].
  assert (H1 : ledger_get (warning (addError (errors s) title [Some (msgError u)] Warning)) title
               = Some [Some (msgError u)]).
  { cbn [addError warning]. rewrite LedgerFacts.ledger_push_get, String.eqb_refl, Hnone. reflexivity. }
  destruct (RunInv.unused_fold title us _ _ H1) as (Ha & Hb & Hc).
  split; [exact Ha|]. split; [exact Hb|].
  intros k Hk. rewrite (Hc k Hk). cbn [addError warning]. rewrite LedgerFacts.ledger_push_get.
  apply String.eqb_neq in Hk. rewrite Hk. reflexivity.
Qed.

(** ** [checkApp]: the pages set *)

(** After a [check] run from a fresh scanner that completes, the pages set
    holds each page of [app.json] once and nothing else, and every page is
    a key of the component map. *)
Theorem check_pages_recorded (proj : Project) (fuel : nat) (st : Scanner)
    (Hrun : check proj fuel newScanner = Done st) :
  NoDup (pages st) /\ (forall p, In p (pages st) <-> In p (p_pages proj)) /\
  (forall p, In p (p_pages proj) -> assoc_has (components st) p = true).
Proof.
  unfold check, checkApp in Hrun.
  destruct (checkPages proj fuel (p_pages proj) (set_errors newScanner emptyErrors))
    as [s'|s'|] eqn:Hp; try discriminate.
  injection Hrun as <-.
  destruct (RunInv.checkPages_pages proj fuel _ _ _ Hp) as (Hin & Hnd & Hall & _).
  assert (Hpg : pages (checkUnused proj s') = pages s')
    by (unfold checkUnused; destruct (orphans proj (components s')); reflexivity).
  rewrite Hpg, RunFacts.checkUnused_components.
  split; [apply Hnd; constructor|]. split; [|exact Hall].
  intros p. rewrite Hin. simpl. tauto.
Qed.

Lemma check_pages_recorded_witness :
  check cycle_project 15 newScanner
    = Done (match check cycle_project 15 newScanner with Done s => s | _ => newScanner end) /\
  NoDup (pages (match check cycle_project 15 newScanner with Done s => s | _ => newScanner end)) /\
  (forall p, In p (pages (match check cycle_project 15 newScanner with Done s => s | _ => newScanner end))
             <-> In p (p_pages cycle_project)) /\
  (forall p, In p (p_pages cycle_project) ->
     assoc_has (components (match check cycle_project 15 newScanner with Done s => s | _ => newScanner end)) p
       = true).
Proof.
  assert (H : check cycle_project 15 newScanner
    = Done (match check cycle_project 15 newScanner with Done s => s | _ => newScanner end))
    by (vm_compute; reflexivity).
  split; [exact H|]. exact (check_pages_recorded cycle_project 15 _ H).
Defined.

(** ** Components are stored under their own entry *)

(** A [check] run that completes from a scanner whose components are
    stored under their own [entry] leaves every component of the map
    stored under its own [entry] (the [entry] field [analyze] and
    [generateHierarchy] read). *)
Theorem check_keys_match_entries (proj : Project) (fuel : nat) (st0 st : Scanner)
    (H0 : keys_ok st0) (Hrun : check proj fuel st0 = Done st) : keys_ok st.
Proof.
  unfold check, checkApp in Hrun.
  pose proof (RunInv.checkPages_inv proj keys_ok
    (fun s e H => H) (fun s e H => H) (fun s e c H Hc => RunInv.keys_ok_set s e c H Hc)
    (fun s p H => H) fuel (p_pages proj) (set_errors st0 emptyErrors) H0) as Hinv.
  destruct (checkPages proj fuel (p_pages proj) (set_errors st0 emptyErrors))
    as [s'|s'|] eqn:Hp; try discriminate.
  injection Hrun as <-. intros k c Hk. rewrite RunFacts.checkUnused_components in Hk.
  exact (Hinv k c Hk).
Qed.

Lemma check_keys_match_entries_witness :
  keys_ok newScanner /\
  check cycle_project 15 newScanner
    = Done (match check cycle_project 15 newScanner with Done s => s | _ => newScanner end) /\
  keys_ok (match check cycle_project 15 newScanner with Done s => s | _ => newScanner end).
Proof.
  assert (H0 : keys_ok newScanner) by (intros k c H; discriminate H).
  assert (H : check cycle_project 15 newScanner
    = Done (match check cycle_project 15 newScanner with Done s => s | _ => newScanner end))
    by (vm_compute; reflexivity).
  split; [exact H0|]. split; [exact H|]. exact (check_keys_match_entries cycle_project 15 _ _ H0 H).
Defined.

(** ** [checkComponent] never drops a component *)

(** A completed [checkComponent(entry)] keeps every component already in
    the map, unchanged, and leaves [entry] in the map. *)
Theorem checkComponent_keeps_components (proj : Project) (fuel : nat) (entry : string)
    (s s' : Scanner) (Hrun : checkComponent proj fuel entry s = Done s') :
  (forall k c, assoc_get (components s) k = Some c -> assoc_get (components s') k = Some c) /\
  assoc_has (components s') entry = true.
Proof. exact (RunFacts.checkComponent_preserved proj fuel entry s s' Hrun). Qed.

Lemma checkComponent_keeps_components_witness :
  checkComponent cycle_project 5 "B" newScanner
    = Done (match checkComponent cycle_project 5 "B" newScanner with Done s => s | _ => newScanner end) /\
  (forall k c, assoc_get (components newScanner) k = Some c ->
     assoc_get (components (match checkComponent cycle_project 5 "B" newScanner with
                            | Done s => s | _ => newScanner end)) k = Some c) /\
  assoc_has (components (match checkComponent cycle_project 5 "B" newScanner with
                         | Done s => s | _ => newScanner end)) "B" = true.
Proof.
  assert (H : checkComponent cycle_project 5 "B" newScanner
    = Done (match checkComponent cycle_project 5 "B" newScanner with Done s => s | _ => newScanner end))
    by (vm_compute; reflexivity).
  split; [exact H|]. exact (checkComponent_keeps_components cycle_project 5 "B" _ _ H).
Defined.

Module ReportFacts.

Lemma con_app_crash c1 c2 : is_crash (con_app c1 c2) = is_crash c1 || is_crash c2.
Proof. destruct c1, c2; reflexivity. Qed.

Lemma con_app_out c1 c2 ls :
  con_app c1 c2 = Out ls -> exists l1 l2, c1 = Out l1 /\ c2 = Out l2 /\ ls = (l1 ++ l2)%list.
Proof.
  destruct c1 as [l1|l1], c2 as [l2|l2]; simpl; intros H; try discriminate.
  injection H as <-. exists l1, l2. auto.
Qed.

Lemma log_items_crash r y t items :
  is_crash (log_items r y t items) = existsb is_undefined items.
Proof.
  induction items as [|[e|] rest IH]; cbn [log_items existsb]; [reflexivity| |reflexivity].
  rewrite con_app_crash, IH. reflexivity.
Qed.

Lemma log_ledger_crash cy r y t l :
  is_crash (log_ledger cy r y t l) = existsb (fun '(_, items) => existsb is_undefined items) l.
Proof.
  induction l as [|[k items] rest IH]; cbn [log_ledger existsb]; [reflexivity|].
  unfold logError. rewrite !con_app_crash, log_items_crash, IH. reflexivity.
Qed.

Lemma existsb_ledger_iff (l : Ledger) :
  existsb (fun '(_, items) => existsb is_undefined items) l = true <->
  exists k items, In (k, items) l /\ In None items.
Proof.
  rewrite existsb_exists. split.
  - intros [[k items] [Hin Hx]]. apply existsb_exists in Hx. destruct Hx as [[e|] [Hn Hu]];
      [discriminate|]. exists k, items. auto.
  - intros (k & items & Hin & Hn). exists (k, items). split; [exact Hin|].
    apply existsb_exists. exists None. auto.
Qed.

End ReportFacts.

(** ** The console report of [check()] *)

(** The report of [check()] is the single line ["No error is found"]
    exactly when both ledgers are empty. *)
Theorem report_clean_iff_no_errors (cyan red yellow : string -> string) (errs : Errors) :
  report cyan red yellow errs = Out ["No error is found"] <-> fatal errs = [] /\ warning errs = [].
Proof.
  split.
  - unfold report. intros H.
    destruct (warning errs) as [|w ws] eqn:Ew; destruct (fatal errs) as [|f fs] eqn:Ef;
      [split; reflexivity| | |].
    + apply ReportFacts.con_app_out in H. destruct H as (l1 & l2 & H1 & H2 & H3).
      apply ReportFacts.con_app_out in H2. destruct H2 as (l3 & l4 & H4 & H5 & H6).
      apply ReportFacts.con_app_out in H4. destruct H4 as (l5 & l6 & H7 & H8 & H9).
      injection H1 as <-. injection H7 as <-. subst. discriminate H3.
    + apply ReportFacts.con_app_out in H. destruct H as (l1 & l2 & H1 & H2 & H3).
      apply ReportFacts.con_app_out in H1. destruct H1 as (l3 & l4 & H4 & H5 & H6).
      injection H4 as <-. subst. discriminate H3.
    + apply ReportFacts.con_app_out in H. destruct H as (l1 & l2 & H1 & H2 & H3).
      apply ReportFacts.con_app_out in H1. destruct H1 as (l3 & l4 & H4 & H5 & H6).
      injection H4 as <-. subst. discriminate H3.
  - intros [Hf Hw]. unfold report. rewrite Hf, Hw. reflexivity.
Qed.

(** The report of [check()] ends in a [TypeError] exactly when an
    [undefined] error (what [checkComponent] records when
    [extractComponents] throws) sits in some list of either ledger. *)
Theorem report_crashes_iff_undefined (cyan red yellow : string -> string) (errs : Errors) :
  (exists ls, report cyan red yellow errs = Crash ls) <->
  exists k items, In (k, items) (warning errs ++ fatal errs)%list /\ In None items.
Proof.
  assert (Hc : is_crash (report cyan red yellow errs) =
                 existsb (fun '(_, items) => existsb is_undefined items)
                   (warning errs ++ fatal errs)%list).
  { unfold report. rewrite !ReportFacts.con_app_crash, existsb_app.
    destruct (warning errs) as [|w ws]; destruct (fatal errs) as [|f fs];
      cbv beta iota zeta; rewrite ?ReportFacts.con_app_crash, ?ReportFacts.log_ledger_crash;
      cbn [is_crash existsb app]; rewrite ?orb_false_r; reflexivity. }
  rewrite <- ReportFacts.existsb_ledger_iff, <- Hc.
  destruct (report cyan red yellow errs) as [ls|ls]; simpl.
  - split; [intros [l H]; discriminate|discriminate].
  - split; [reflexivity|intros _; exists ls; reflexivity].
Qed.

Module AnalyzeFacts.

Definition incw (n : GraphNode) : GraphNode :=
  {| gn_name := gn_name n; gn_entry := gn_entry n; gn_weight := S (gn_weight n) |}.

Lemma set_keys_existing {A} (m : list (string * A)) k v w :
  assoc_get m k = Some w -> map fst (assoc_set m k v) = map fst m.
Proof.
  induction m as [|[k0 v0] r IH]; simpl; [discriminate|].
  destruct (String.eqb k k0) eqn:E; simpl; [reflexivity|].
  intros H. rewrite (IH H). reflexivity.
Qed.

Lemma set_keys_In {A} (m : list (string * A)) k v x :
  In x (map fst (assoc_set m k v)) <-> k = x \/ In x (map fst m).
Proof.
  induction m as [|[k0 v0] r IH]; simpl; [tauto|].
  destruct (String.eqb k k0) eqn:E; simpl.
  - apply String.eqb_eq in E. subst. tauto.
  - rewrite IH. tauto.
Qed.

Lemma set_NoDup {A} (m : list (string * A)) k v :
  NoDup (map fst m) -> NoDup (map fst (assoc_set m k v)).
Proof.
  induction m as [|[k0 v0] r IH]; simpl; intros Hn.
  - constructor; [intros []|constructor].
  - inversion Hn as [|? ? Hk Hr]; subst.
    destruct (String.eqb k k0) eqn:E; simpl; [exact Hn|].
    constructor; [|exact (IH Hr)].
    rewrite set_keys_In. intros [H|H]; [|exact (Hk H)].
    subst. rewrite String.eqb_refl in E. discriminate.
Qed.

Lemma NoDup_In_get {A} (m : list (string * A)) k v :
  NoDup (map fst m) -> In (k, v) m -> assoc_get m k = Some v.
Proof.
  induction m as [|[k0 v0] r IH]; simpl; [intros _ []|].
  intros Hn [H|H]; inversion Hn as [|? ? Hk Hr]; subst.
  - injection H as -> ->. rewrite String.eqb_refl. reflexivity.
  - destruct (String.eqb k k0) eqn:E.
    + apply String.eqb_eq in E. subst. exfalso. apply Hk.
      apply (in_map fst) in H. exact H.
    + exact (IH Hr H).
Qed.

Lemma bump_get m e k :
  assoc_get (bump m e) k = if String.eqb k e then option_map incw (assoc_get m k) else assoc_get m k.
Proof.
  unfold bump. destruct (assoc_get m e) as [n|] eqn:He.
  - rewrite DefsFacts.assoc_get_set. destruct (String.eqb k e) eqn:E; [|reflexivity].
    apply String.eqb_eq in E. subst. rewrite He. reflexivity.
  - destruct (String.eqb k e) eqn:E; [|reflexivity].
    apply String.eqb_eq in E. subst. rewrite He. reflexivity.
Qed.

Lemma bump_keys m e : map fst (bump m e) = map fst m.
Proof.
  unfold bump. destruct (assoc_get m e) eqn:He; [|reflexivity].
  exact (set_keys_existing _ _ _ _ He).
Qed.

Definition link_step (m : list (string * GraphNode)) (l : string * string) :=
  let '(a, b) := l in bump (bump m a) b.

Lemma links_keys links m : map fst (fold_left link_step links m) = map fst m.
Proof.
  revert m. induction links as [|[a b] rest IH]; intros m; simpl; [reflexivity|].
  rewrite IH. unfold link_step. rewrite !bump_keys. reflexivity.
Qed.

Lemma links_get links m k :
  assoc_get (fold_left link_step links m) k =
  option_map (fun n => {| gn_name := gn_name n; gn_entry := gn_entry n;
                          gn_weight := (gn_weight n + count_occ string_dec (endpoints links) k)%nat |})
    (assoc_get m k).
Proof.
  revert m. induction links as [|[a b] rest IH]; intros m; simpl.
  - destruct (assoc_get m k) as [[]|]; simpl; rewrite ?Nat.add_0_r; reflexivity.
  - rewrite IH. unfold link_step. rewrite !bump_get.
    destruct (String.eqb k b) eqn:Eb, (String.eqb k a) eqn:Ea;
      apply String.eqb_eq in Eb || apply String.eqb_neq in Eb;
      apply String.eqb_eq in Ea || apply String.eqb_neq in Ea; subst;
      destruct (string_dec _ _); try congruence;
      try (destruct (string_dec _ _); try congruence);
      destruct (assoc_get m _) as [[]|]; simpl; try reflexivity; f_equal; f_equal; lia.
Qed.

Definition map0_ok (comps : list (string * IComponent)) (m : list (string * GraphNode)) :=
  NoDup (map fst m) /\
  forall k n, assoc_get m k = Some n ->
    gn_entry n = k /\ gn_name n = graph_name k /\ gn_weight n = 0%nat /\
    exists p c, In (p, c) comps /\ c_entry c = k.

Lemma map0_fold all cs m :
  (forall p c, In (p, c) cs -> In (p, c) all) -> map0_ok all m ->
  map0_ok all (fold_left (fun m '(_, c) =>
      assoc_set m (c_entry c) {| gn_name := graph_name (c_entry c); gn_entry := c_entry c;
                                 gn_weight := 0 |}) cs m) /\
  (forall p c k, In (p, c) cs -> c_entry c = k \/ (exists n, assoc_get m k = Some n) ->
     exists n, assoc_get (fold_left (fun m '(_, c) =>
      assoc_set m (c_entry c) {| gn_name := graph_name (c_entry c); gn_entry := c_entry c;
                                 gn_weight := 0 |}) cs m) k = Some n).
Proof.
  revert m. induction cs as [|[p c] rest IH]; intros m Hsub Hm; simpl.
  - split; [exact Hm|]. intros p c k [].
  - assert (Hm' : map0_ok all (assoc_set m (c_entry c)
        {| gn_name := graph_name (c_entry c); gn_entry := c_entry c; gn_weight := 0 |})).
    { destruct Hm as [Hnd Hget]. split; [exact (set_NoDup _ _ _ Hnd)|].
      intros k n. rewrite DefsFacts.assoc_get_set.
      destruct (String.eqb k (c_entry c)) eqn:E; [|exact (Hget k n)].
      apply String.eqb_eq in E. intros H. injection H as <-. simpl. subst.
      split; [reflexivity|]. split; [reflexivity|]. split; [reflexivity|].
      exists p, c. split; [apply Hsub; left; reflexivity|reflexivity]. }
    assert (Hsub' : forall p0 c0, In (p0, c0) rest -> In (p0, c0) all)
      by (intros; apply Hsub; right; assumption).
    destruct (IH _ Hsub' Hm') as [Hok Hhas]. split; [exact Hok|].
    intros p0 c0 k Hin Hk. destruct Hin as [Heq|Hin].
    + injection Heq as <- <-.
      destruct rest as [|[p1 c1] rest'].
      * simpl. rewrite DefsFacts.assoc_get_set.
        destruct (String.eqb k (c_entry c)) eqn:E; [eexists; reflexivity|].
        destruct Hk as [Hk|Hk]; [subst; rewrite String.eqb_refl in E; discriminate|exact Hk].
      * apply (Hhas p1 c1 k); [left; reflexivity|]. right.
        rewrite DefsFacts.assoc_get_set.
        destruct (String.eqb k (c_entry c)) eqn:E; [eexists; reflexivity|].
        destruct Hk as [Hk|Hk]; [subst; rewrite String.eqb_refl in E; discriminate|exact Hk].
    + apply (Hhas p0 c0 k Hin). destruct Hk as [Hk|Hk]; [left; exact Hk|right].
      rewrite DefsFacts.assoc_get_set.
      destruct (String.eqb k (c_entry c)); [eexists; reflexivity|exact Hk].
Qed.

End AnalyzeFacts.

(** ** The component graph of [analyze()] *)

(** [analyze()] renders one node per distinct component entry, every
    component having its node; each node is named after its entry (the last
    path segment, or the one before a final [index]) and weighs as many as
    the link ends that name its entry, a link counting for both the
    component it leaves and the one it reaches. *)
Theorem analyze_nodes_count_link_ends (comps : list (string * IComponent)) :
  NoDup (map gn_entry (fst (analyze comps))) /\
  (forall p c, In (p, c) comps -> exists n, In n (fst (analyze comps)) /\ gn_entry n = c_entry c) /\
  (forall n, In n (fst (analyze comps)) ->
     gn_name n = graph_name (gn_entry n) /\
     gn_weight n = count_occ string_dec (endpoints (snd (analyze comps))) (gn_entry n) /\
     exists p c, In (p, c) comps /\ c_entry c = gn_entry n).
Proof.
  assert (Hdef : analyze comps =
    (map snd (fold_left AnalyzeFacts.link_step (analyze_links comps) (analyze_map comps)),
     analyze_links comps)) by reflexivity.
  rewrite Hdef. cbn [fst snd].
  assert (H0 : AnalyzeFacts.map0_ok comps []).
  { split; [constructor|]. intros k n H. discriminate. }
  destruct (AnalyzeFacts.map0_fold comps comps [] (fun p c H => H) H0) as [[Hnd Hget] Hhas].
  fold (analyze_map comps) in Hnd, Hget, Hhas.
  set (M := fold_left AnalyzeFacts.link_step (analyze_links comps) (analyze_map comps)).
  assert (HndM : NoDup (map fst M)).
  { unfold M. rewrite AnalyzeFacts.links_keys. exact Hnd. }
  assert (HnodeM : forall k n, In (k, n) M ->
     gn_entry n = k /\ gn_name n = graph_name k /\
     gn_weight n = count_occ string_dec (endpoints (analyze_links comps)) k /\
     exists p c, In (p, c) comps /\ c_entry c = k).
  { intros k n Hin. apply (AnalyzeFacts.NoDup_In_get _ _ _ HndM) in Hin.
    unfold M in Hin. rewrite AnalyzeFacts.links_get in Hin.
    destruct (assoc_get (analyze_map comps) k) as [n0|] eqn:E; [|discriminate].
    injection Hin as <-. destruct (Hget k n0 E) as (He & Hn & Hw & Hc). simpl.
    rewrite He, Hn, Hw. auto. }
  split; [|split].
  - assert (Hm : map gn_entry (map snd M) = map fst M).
    { rewrite map_map. apply map_ext_in. intros [k n] Hin. simpl.
      exact (proj1 (HnodeM k n Hin)). }
    rewrite Hm. exact HndM.
  - intros p c Hin.
    destruct (Hhas p c (c_entry c) Hin (or_introl eq_refl)) as [n0 Hn0].
    assert (Hg : assoc_get M (c_entry c) <> None).
    { unfold M. rewrite AnalyzeFacts.links_get, Hn0. discriminate. }
    destruct (assoc_get M (c_entry c)) as [n|] eqn:E; [|congruence].
    apply LedgerFacts.assoc_get_In in E. exists n. split.
    + apply (in_map snd) in E. exact E.
    + exact (proj1 (HnodeM _ _ E)).
  - intros n Hin. apply in_map_iff in Hin. destruct Hin as [[k n'] [<- Hin]]. simpl.
    destruct (HnodeM k n' Hin) as (He & Hn & Hw & Hc). rewrite He. auto.
Qed.

Module HierFacts.

Lemma length_upd {A} (l : list A) i f : List.length (upd l i f) = List.length l.
Proof.
  revert i. induction l as [|x r IH]; intros [|i]; simpl; try reflexivity. rewrite IH. reflexivity.
Qed.

Lemma nth_error_upd {A} (l : list A) i f j :
  nth_error (upd l i f) j = if Nat.eqb i j then option_map f (nth_error l j) else nth_error l j.
Proof.
  revert i j. induction l as [|x r IH]; intros [|i] [|j]; simpl; try reflexivity.
  - destruct (Nat.eqb i j); reflexivity.
  - apply IH.
Qed.

Section Cycle.

Variable highlights : list string.
Variable comps : list (string * IComponent).

Lemma hier_dep_props nid store queue dep store' queue' :
  hier_dep highlights comps nid (store, queue) dep = (store', queue') ->
  (List.length store <= List.length store')%nat /\
  (forall it, In it queue -> In it queue') /\
  (forall it, In it queue' -> In it queue \/ (snd it < List.length store')%nat) /\
  ((nid < List.length store)%nat -> forall q c', dep_modulePath dep = Some q ->
     assoc_get comps q = Some c' -> exists id, In (c', id) queue').
Proof.
  unfold hier_dep.
  destruct (match dep_modulePath dep with Some p => assoc_get comps p | None => None end)
    as [child|] eqn:Ec.
  2:{ intros H. injection H as <- <-. split; [lia|]. split; [auto|]. split; [auto|].
      intros _ q c' Hq Hc. rewrite Hq, Hc in Ec. discriminate. }
  destruct (nth_error store nid) as [node|] eqn:En.
  2:{ intros H. injection H as <- <-. split; [lia|]. split; [auto|]. split; [auto|].
      intros Hlt. apply nth_error_None in En. lia. }
  intros H. injection H as <- <-.
  rewrite length_upd, length_app. simpl.
  split; [lia|]. split; [intros it Hin; apply in_or_app; left; exact Hin|].
  split.
  - intros it Hin. apply in_app_or in Hin. destruct Hin as [Hin|[<-|[]]]; [left; exact Hin|].
    right. simpl. lia.
  - intros _ q c' Hq Hc. rewrite Hq, Hc in Ec. injection Ec as ->.
    exists (List.length store). apply in_or_app. right. left. reflexivity.
Qed.

Lemma hier_deps_props nid deps store queue store' queue' :
  fold_left (hier_dep highlights comps nid) deps (store, queue) = (store', queue') ->
  (nid < List.length store)%nat ->
  (List.length store <= List.length store')%nat /\
  (forall it, In it queue -> In it queue') /\
  (forall it, In it queue' -> In it queue \/ (snd it < List.length store')%nat) /\
  (forall d q c', In d deps -> dep_modulePath d = Some q ->
     assoc_get comps q = Some c' -> exists id, In (c', id) queue').
Proof.
  revert store queue. induction deps as [|d rest IH]; intros store queue; cbn [fold_left].
  - intros H _. injection H as <- <-. split; [lia|]. split; [auto|]. split; [auto|].
    intros d q c' [].
  - destruct (hier_dep highlights comps nid (store, queue) d) as [s1 q1] eqn:E1.
    intros Hf Hlt.
    destruct (hier_dep_props _ _ _ _ _ _ E1) as (Hl1 & Hk1 & Hb1 & Hr1).
    destruct (IH _ _ Hf ltac:(lia)) as (Hl2 & Hk2 & Hb2 & Hr2).
    split; [lia|]. split; [auto|]. split.
    + intros it Hin. destruct (Hb2 it Hin) as [H|H]; [|right; exact H].
      destruct (Hb1 it H) as [H'|H']; [left; exact H'|right; lia].
    + intros d' q c' [<-|Hin] Hq Hc.
      * destruct (Hr1 Hlt q c' Hq Hc) as [id Hid]. exists id. auto.
      * exact (Hr2 d' q c' Hin Hq Hc).
Qed.

Lemma hier_pages_keeps ps i rootc store queue rootc' store' queue' :
  hier_pages highlights comps ps i rootc store queue = (rootc', store', queue') ->
  forall it, In it queue -> In it queue'.
Proof.
  revert i rootc store queue. induction ps as [|page rest IH]; intros i rootc store queue; simpl.
  - intros H. injection H as _ _ <-. auto.
  - destruct (assoc_get comps page) as [component|]; intros H it Hin; [|exact (IH _ _ _ _ H it Hin)].
    apply (IH _ _ _ _ H). apply in_or_app. left. exact Hin.
Qed.

Lemma hier_pages_props ps i rootc store queue rootc' store' queue' :
  hier_pages highlights comps ps i rootc store queue = (rootc', store', queue') ->
  (forall it, In it queue -> (snd it < List.length store)%nat) ->
  (forall it, In it queue' -> (snd it < List.length store')%nat) /\
  (forall p c, In p ps -> assoc_get comps p = Some c -> exists id, In (c, id) queue').
Proof.
  revert i rootc store queue. induction ps as [|page rest IH]; intros i rootc store queue; simpl.
  - intros H Hb. injection H as <- <- <-. split; [exact Hb|]. intros p c [].
  - destruct (assoc_get comps page) as [component|] eqn:Ep; intros H Hb.
    + edestruct (IH _ _ _ _ H) as [Hb' Hr].
      { intros it Hin. apply in_app_or in Hin. rewrite length_app. simpl.
        destruct Hin as [Hin|[<-|[]]]; [specialize (Hb it Hin); lia|simpl; lia]. }
      split; [exact Hb'|]. intros p c [<-|Hin] Hc; [|exact (Hr p c Hin Hc)].
      rewrite Ep in Hc. injection Hc as <-.
      exists (List.length store). apply (hier_pages_keeps _ _ _ _ _ _ _ _ H).
      apply in_or_app. right. left. reflexivity.
    + destruct (IH _ _ _ _ H Hb) as [Hb' Hr]. split; [exact Hb'|].
      intros p c [<-|Hin] Hc; [rewrite Ep in Hc; discriminate|exact (Hr p c Hin Hc)].
Qed.

Lemma hier_loop_cycle S fuel store queue :
  cycle_set comps S ->
  (forall it, In it queue -> (snd it < List.length store)%nat) ->
  (exists it p, In it queue /\ In p S /\ assoc_get comps p = Some (fst it)) ->
  hier_loop highlights comps fuel store queue = None.
Proof.
  intros HS. revert store queue. induction fuel as [|f IH]; intros store queue Hb Hx; simpl;
    [reflexivity|].
  destruct queue as [|[c nid] rest].
  { destruct Hx as (it & p & [] & _). }
  destruct (fold_left (hier_dep highlights comps nid) (c_deps c) (store, rest)) as [s' q'] eqn:Ef.
  assert (Hlt : (nid < List.length store)%nat) by exact (Hb (c, nid) (or_introl eq_refl)).
  destruct (hier_deps_props _ _ _ _ _ _ Ef Hlt) as (Hl & Hk & Hb' & Hr).
  apply IH.
  - intros it Hin. destruct (Hb' it Hin) as [H|H]; [|exact H].
    specialize (Hb it (or_intror H)). lia.
  - destruct Hx as (it & p & [<-|Hin] & Hp & Hc).
    + destruct (HS p Hp) as (c0 & Hc0 & d & q & Hd & Hq & HqS).
      rewrite Hc0 in Hc. injection Hc as ->. simpl in Hd.
      destruct (HS q HqS) as (c' & Hc' & _).
      destruct (Hr d q c' Hd Hq Hc') as [id Hid].
      exists (c', id), q. auto.
    + exists it, p. auto.
Qed.

End Cycle.

End HierFacts.

(** ** [generateHierarchy()] *)

(** When some page leads into a cycle of components (a set of components
    each of which has a dependency resolved into the set), the [while
    (queue.length)] loop of [generateHierarchy] never ends: no number of
    rounds brings it to [render]. *)
Theorem generateHierarchy_diverges_on_cycle (root : string) (highlights : list string)
    (comps : list (string * IComponent)) (S : list string) (pages : list string)
    (HS : cycle_set comps S) (Hp : exists p, In p pages /\ In p S) :
  forall fuel, generateHierarchy root highlights comps fuel pages = None.
Proof.
  intros fuel. unfold generateHierarchy.
  destruct (hier_pages highlights comps pages 0 [] [] []) as [[rootc store] queue] eqn:E.
  destruct (HierFacts.hier_pages_props _ _ _ _ _ _ _ _ _ _ E (fun it H => match H with end))
    as [Hb Hr].
  destruct Hp as (p & Hpp & HpS). destruct (HS p HpS) as (c & Hc & _).
  destruct (Hr p c Hpp Hc) as [id Hid].
  rewrite (HierFacts.hier_loop_cycle _ _ S fuel store queue HS Hb); [reflexivity|].
  exists (c, id), p. auto.
Qed.

(** A witness on [cycle_project]: [A] and [B] import each other and [A]
    is a page, so the hierarchy of the checked project is never rendered. *)
Lemma generateHierarchy_diverges_on_cycle_witness :
  cycle_set (components cycle_scanner) ["A"; "B"] /\
  (exists p, In p (pages cycle_scanner) /\ In p ["A"; "B"]) /\
  forall fuel, generateHierarchy (p_root cycle_project) [] (components cycle_scanner) fuel
                 (pages cycle_scanner) = None.
Proof.
  assert (HS : cycle_set (components cycle_scanner) ["A"; "B"]).
  { assert (Hb : forall p, In p ["A"; "B"] ->
      match assoc_get (components cycle_scanner) p with
      | Some c => existsb (fun d => match dep_modulePath d with
                                   | Some q => existsb (String.eqb q) ["A"; "B"]
                                   | None => false end) (c_deps c) = true
      | None => False
      end) by (intros p [<-|[<-|[]]]; vm_compute; reflexivity).
    intros p Hp. specialize (Hb p Hp).
    destruct (assoc_get (components cycle_scanner) p) as [c|]; [|destruct Hb].
    exists c. split; [reflexivity|].
    apply existsb_exists in Hb. destruct Hb as [d [Hd Hq]].
    destruct (dep_modulePath d) as [q|] eqn:Eq; [|discriminate].
    apply existsb_exists in Hq. destruct Hq as [q' [Hq' Hqq]].
    apply String.eqb_eq in Hqq. subst q'. exists d, q. auto. }
  assert (Hp : exists p, In p (pages cycle_scanner) /\ In p ["A"; "B"]).
  { exists "A". split; [vm_compute; left; reflexivity|left; reflexivity]. }
  split; [exact HS|]. split; [exact Hp|].
  exact (generateHierarchy_diverges_on_cycle _ _ _ _ _ HS Hp).
Defined.

Module HierTree.

Lemma nth_error_snoc {A} (l : list A) x j :
  nth_error (l ++ [x])%list j =
  if (j <? List.length l)%nat then nth_error l j
  else if Nat.eqb j (List.length l) then Some x else None.
Proof.
  destruct (Nat.ltb_spec j (List.length l)) as [H|H].
  - apply nth_error_app1. exact H.
  - rewrite nth_error_app2 by exact H.
    destruct (Nat.eqb_spec j (List.length l)) as [->|Hne].
    + rewrite Nat.sub_diag. reflexivity.
    + apply nth_error_None. simpl. lia.
Qed.

Lemma keeps_refl s : hier_keeps s s.
Proof. intros j m H. exists m. auto. Qed.

Lemma keeps_trans s1 s2 s3 : hier_keeps s1 s2 -> hier_keeps s2 s3 -> hier_keeps s1 s3.
Proof.
  intros H1 H2 j m H. destruct (H1 j m H) as (m1 & E1 & D1 & P1).
  destruct (H2 j m1 E1) as (m2 & E2 & D2 & P2). exists m2. split; [exact E2|]. split; congruence.
Qed.

Lemma keeps_snoc s x : hier_keeps s (s ++ [x])%list.
Proof.
  intros j m H. exists m. split; [|auto].
  rewrite nth_error_app1; [exact H|]. apply nth_error_Some. congruence.
Qed.

Lemma tree_ok_snoc s x : hier_tree_ok s -> hn_c x = [] -> hier_tree_ok (s ++ [x])%list.
Proof.
  intros Ht Hx i n H j Hj. rewrite nth_error_snoc in H.
  destruct (i <? List.length s)%nat.
  - destruct (Ht i n H j Hj) as (m & Em & Dm & Pm).
    destruct (keeps_snoc s x j m Em) as (m' & E' & D' & P'). exists m'.
    rewrite D', P'. auto.
  - destruct (Nat.eqb i (List.length s)); [|discriminate].
    injection H as <-. rewrite Hx in Hj. destruct Hj.
Qed.

Section Levels.

Variable highlights : list string.
Variable comps : list (string * IComponent).

Lemma hier_dep_tree nid store queue dep store' queue' :
  hier_dep highlights comps nid (store, queue) dep = (store', queue') ->
  hier_tree_ok store -> hier_tree_ok store' /\ hier_keeps store store'.
Proof.
  unfold hier_dep.
  destruct (match dep_modulePath dep with Some p => assoc_get comps p | None => None end)
    as [child|].
  2:{ intros H Ht. injection H as <- <-. split; [exact Ht|apply keeps_refl]. }
  destruct (nth_error store nid) as [node|] eqn:En.
  2:{ intros H Ht. injection H as <- <-. split; [exact Ht|apply keeps_refl]. }
  intros H Ht. injection H as <- <-.
  set (child_node := {| hn_v := ed_name (getEntryDesc (c_entry child) strip_index); hn_c := [];
       hn_d := S (hn_d node);
       hn_p := {| hp_pi := hp_pi (hn_p node);
                  hp_f := Some (ed_external (getEntryDesc (c_entry child) strip_index));
                  hp_c := if existsb (String.eqb (c_entry child)) highlights then None
                          else hp_c (hn_p node) |} |}).
  assert (Hlt : (nid < List.length store)%nat) by (apply nth_error_Some; congruence).
  assert (Hkeep : hier_keeps store (upd (store ++ [child_node]) nid (add_child (List.length store)))).
  { intros j m Hm. rewrite HierFacts.nth_error_upd.
    rewrite (nth_error_app1 _ _ (proj1 (nth_error_Some store j) ltac:(congruence))), Hm.
    destruct (Nat.eqb nid j); simpl; [|exists m; auto].
    eexists. split; [reflexivity|]. auto. }
  split; [|exact Hkeep].
  assert (Hid : nth_error (upd (store ++ [child_node]) nid (add_child (List.length store)))
                  (List.length store) = Some child_node).
  { rewrite HierFacts.nth_error_upd, nth_error_snoc, Nat.ltb_irrefl, Nat.eqb_refl.
    destruct (Nat.eqb_spec nid (List.length store)); [lia|reflexivity]. }
  intros i n Hn j Hj. rewrite HierFacts.nth_error_upd in Hn.
  destruct (Nat.eqb_spec nid i) as [<-|Hne].
  - rewrite nth_error_app1 in Hn by exact Hlt. rewrite En in Hn. simpl in Hn.
    injection Hn as <-. simpl in Hj. apply in_app_or in Hj. destruct Hj as [Hj|[<-|[]]].
    + destruct (Ht nid node En j Hj) as (m & Em & Dm & Pm).
      destruct (Hkeep j m Em) as (m' & E' & D' & P'). exists m'. simpl.
      rewrite D', P'. auto.
    + exists child_node. simpl. auto.
  - rewrite nth_error_snoc in Hn. destruct (Nat.ltb_spec i (List.length store)).
    + destruct (Ht i n Hn j Hj) as (m & Em & Dm & Pm).
      destruct (Hkeep j m Em) as (m' & E' & D' & P'). exists m'. rewrite D', P'. auto.
    + destruct (Nat.eqb i (List.length store)); [|discriminate].
      injection Hn as <-. destruct Hj.
Qed.

Lemma hier_deps_tree nid deps store queue store' queue' :
  fold_left (hier_dep highlights comps nid) deps (store, queue) = (store', queue') ->
  hier_tree_ok store -> hier_tree_ok store' /\ hier_keeps store store'.
Proof.
  revert store queue. induction deps as [|d rest IH]; intros store queue; cbn [fold_left].
  - intros H Ht. injection H as <- <-. split; [exact Ht|apply keeps_refl].
  - destruct (hier_dep highlights comps nid (store, queue) d) as [s1 q1] eqn:E1.
    intros Hf Ht. destruct (hier_dep_tree _ _ _ _ _ _ E1 Ht) as [Ht1 Hk1].
    destruct (IH _ _ Hf Ht1) as [Ht2 Hk2]. split; [exact Ht2|exact (keeps_trans _ _ _ Hk1 Hk2)].
Qed.

Lemma hier_loop_tree fuel store queue store' :
  hier_loop highlights comps fuel store queue = Some store' ->
  hier_tree_ok store -> hier_tree_ok store' /\ hier_keeps store store'.
Proof.
  revert store queue. induction fuel as [|f IH]; intros store queue; simpl; [discriminate|].
  destruct queue as [|[c nid] rest].
  - intros H Ht. injection H as <-. split; [exact Ht|apply keeps_refl].
  - destruct (fold_left (hier_dep highlights comps nid) (c_deps c) (store, rest)) as [s1 q1] eqn:E1.
    intros H Ht. destruct (hier_deps_tree _ _ _ _ _ _ E1 Ht) as [Ht1 Hk1].
    destruct (IH _ _ H Ht1) as [Ht2 Hk2]. split; [exact Ht2|exact (keeps_trans _ _ _ Hk1 Hk2)].
Qed.

Lemma hier_pages_tree ps i rootc store queue rootc' store' queue' :
  hier_pages highlights comps ps i rootc store queue = (rootc', store', queue') ->
  List.length rootc = i -> hier_tree_ok store -> root_ok rootc store ->
  hier_tree_ok store' /\ root_ok rootc' store'.
Proof.
  revert i rootc store queue. induction ps as [|page rest IH]; intros i rootc store queue; simpl.
  - intros H _ Ht Hr. injection H as <- <- <-. auto.
  - destruct (assoc_get comps page) as [component|]; intros H Hl Ht Hr; [|exact (IH _ _ _ _ H Hl Ht Hr)].
    apply (IH _ _ _ _ H).
    + rewrite length_app. simpl. lia.
    + apply tree_ok_snoc; [exact Ht|reflexivity].
    + intros k j Hk. rewrite nth_error_snoc in Hk.
      destruct (Nat.ltb_spec k (List.length rootc)).
      * destruct (Hr k j Hk) as (m & Em & Dm & Pm).
        exists m. split; [|auto].
        rewrite nth_error_app1; [exact Em|apply nth_error_Some; congruence].
      * destruct (Nat.eqb_spec k (List.length rootc)) as [->|]; [|discriminate].
        injection Hk as <-. rewrite nth_error_snoc, Nat.ltb_irrefl, Nat.eqb_refl.
        eexists. split; [reflexivity|]. simpl. split; [reflexivity|]. lia.
Qed.

End Levels.

End HierTree.

(** When [generateHierarchy] reaches [render], the tree is well levelled:
    the [k]-th child of the root is a page node of depth 1 carrying page
    index [k + 1], and every child of a node is one level deeper than it and
    carries the same page index. *)
Theorem generateHierarchy_levels (root : string) (highlights : list string)
    (comps : list (string * IComponent)) (fuel : nat) (pages : list string)
    (r : HRoot) (store : list HNode)
    (Hgen : generateHierarchy root highlights comps fuel pages = Some (r, store)) :
  hier_tree_ok store /\ root_ok (hr_c r) store.
Proof.
  unfold generateHierarchy in Hgen.
  destruct (hier_pages highlights comps pages 0 [] [] []) as [[rootc s0] queue] eqn:E.
  destruct (hier_loop highlights comps fuel s0 queue) as [s1|] eqn:L; [|discriminate].
  injection Hgen as <- <-. simpl.
  destruct (HierTree.hier_pages_tree _ _ _ _ _ _ _ _ _ _ E eq_refl
              ltac:(intros i n H; destruct i; discriminate)
              ltac:(intros k j H; destruct k; discriminate)) as [Ht0 Hr0].
  destruct (HierTree.hier_loop_tree _ _ _ _ _ _ L Ht0) as [Ht1 Hk1].
  split; [exact Ht1|].
  intros k j Hk. destruct (Hr0 k j Hk) as (m & Em & Dm & Pm).
  destruct (Hk1 j m Em) as (m' & E' & D' & P'). exists m'. rewrite D', P'. auto.
Qed.

(** A witness: the hierarchy of [tree_comps] with pages [p], a missing
    one and [q]. *)
Lemma generateHierarchy_levels_witness :
  let res := generateHierarchy "/app/src" [] tree_comps 10
               ["pages/p/index"; "pages/none"; "pages/q/index"] in
  res <> None /\
  hier_tree_ok (match res with Some (_, store) => store | None => [] end) /\
  root_ok (match res with Some (r, _) => hr_c r | None => [] end)
          (match res with Some (_, store) => store | None => [] end).
Proof.
  intros res.
  assert (E : res = Some (match res with Some x => x | None => (mkHRoot "" [], []) end))
    by (vm_compute; reflexivity).
  split; [rewrite E; discriminate|].
  destruct (match res with Some x => x | None => (mkHRoot "" [], []) end) as [r store] eqn:Ex.
  rewrite E.
  exact (generateHierarchy_levels "/app/src" [] tree_comps 10
           ["pages/p/index"; "pages/none"; "pages/q/index"] r store E).
Defined.

Module EntryFacts.

Lemma to_list_app (a b : string) : Path.to_list (a ++ b) = (Path.to_list a ++ Path.to_list b)%list.
Proof. induction a as [|c a IH]; simpl; [reflexivity|rewrite IH; reflexivity]. Qed.

Lemma length_to_list (s : string) : List.length (Path.to_list s) = String.length s.
Proof. induction s as [|c s IH]; simpl; [reflexivity|rewrite IH; reflexivity]. Qed.

Lemma append_empty (s : string) : (s ++ "")%string = s.
Proof. induction s as [|c s IH]; simpl; [reflexivity|rewrite IH; reflexivity]. Qed.

Lemma append_assoc (a b c : string) : (a ++ b ++ c)%string = ((a ++ b) ++ c)%string.
Proof. induction a as [|x a IH]; simpl; [reflexivity|rewrite IH; reflexivity]. Qed.

Lemma substring_full (s : string) : substring 0 (String.length s) s = s.
Proof.
  pose proof (TermFacts.substring_prefix s "") as H. rewrite append_empty in H. exact H.
Qed.

Lemma substring_after (p s : string) n :
  substring (String.length p) n (p ++ s) = substring 0 n s.
Proof. induction p as [|c p IH]; simpl; [reflexivity|exact IH]. Qed.

Lemma substring_split (s : string) k :
  (k <= String.length s)%nat ->
  s = (substring 0 k s ++ substring k (String.length s - k) s)%string.
Proof.
  revert k. induction s as [|c s IH]; intros [|k] Hk; simpl in *.
  - reflexivity.
  - lia.
  - rewrite substring_full. reflexivity.
  - f_equal. apply IH. lia.
Qed.

Lemma endsWith_app (p s : string) : JS.endsWith (p ++ s) s = true.
Proof.
  unfold JS.endsWith. rewrite TermFacts.string_length_app.
  replace (String.length p + String.length s - String.length s)%nat with (String.length p) by lia.
  rewrite substring_after, substring_full, String.eqb_refl, andb_true_r.
  apply Nat.leb_le. lia.
Qed.

Lemma endsWith_split (s suf : string) :
  JS.endsWith s suf = true -> exists p, s = (p ++ suf)%string.
Proof.
  unfold JS.endsWith. intros H. apply andb_prop in H. destruct H as [Hl He].
  apply Nat.leb_le in Hl. apply String.eqb_eq in He.
  exists (substring 0 (String.length s - String.length suf) s).
  rewrite (substring_split s (String.length s - String.length suf)) at 1 by lia.
  replace (String.length s - (String.length s - String.length suf))%nat
    with (String.length suf) by lia.
  rewrite He. reflexivity.
Qed.

Lemma slice_drop (p s : string) :
  s <> ""%string -> JS.slice (p ++ s) 0 (- Z.of_nat (String.length s)) = p.
Proof.
  intros Hne.
  unfold JS.slice, JS.slice_index. rewrite TermFacts.string_length_app.
  change ((0 <? 0)%Z) with false. cbv iota beta.
  destruct (Z.ltb_spec (- Z.of_nat (String.length s)) 0) as [Hs|Hs].
  - replace (Z.to_nat (Z.min 0 (Z.of_nat (String.length p + String.length s)))) with 0%nat by lia.
    replace (Z.to_nat (Z.max 0 (Z.of_nat (String.length p + String.length s)
               + - Z.of_nat (String.length s)))) with (String.length p) by lia.
    rewrite Nat.sub_0_r. apply TermFacts.substring_prefix.
  - destruct s as [|c s]; [congruence|simpl in Hs; lia].
Qed.

Lemma strip_index_suffix (e suf : string) :
  suf = "/index" \/ suf = "/index.mini" -> strip_index (e ++ suf) = e.
Proof.
  unfold strip_index. intros [->| ->].
  - destruct (JS.endsWith (e ++ "/index") "/index.mini") eqn:Em.
    + exfalso. apply endsWith_split in Em. destruct Em as [q Hq].
      apply (f_equal (fun s => rev (Path.to_list s))) in Hq.
      rewrite !to_list_app, !rev_app_distr in Hq. simpl in Hq. discriminate Hq.
    + rewrite endsWith_app.
      exact (slice_drop e "/index" ltac:(discriminate)).
  - rewrite endsWith_app. exact (slice_drop e "/index.mini" ltac:(discriminate)).
Qed.

Lemma slice_mid (p s : string) :
  JS.slice (p ++ s) (Z.of_nat (String.length p)) (Z.of_nat (String.length p + String.length s)) = s.
Proof.
  unfold JS.slice, JS.slice_index. rewrite TermFacts.string_length_app.
  destruct (Z.ltb_spec (Z.of_nat (String.length p)) 0); [lia|].
  destruct (Z.ltb_spec (Z.of_nat (String.length p + String.length s)) 0); [lia|].
  replace (Z.to_nat (Z.min (Z.of_nat (String.length p)) (Z.of_nat (String.length p + String.length s))))
    with (String.length p) by lia.
  replace (Z.to_nat (Z.min (Z.of_nat (String.length p + String.length s))
                           (Z.of_nat (String.length p + String.length s))) - String.length p)%nat
    with (String.length s) by lia.
  rewrite substring_after. apply substring_full.
Qed.

Lemma scan_no_slash cs rest i e :
  (forall c, In c cs -> c <> Path.slash) ->
  basename_scan (cs ++ rest) i (Some e) false = basename_scan rest (i - List.length cs) (Some e) false.
Proof.
  revert i. induction cs as [|c cs IH]; intros i Hc; simpl.
  - rewrite Nat.sub_0_r. reflexivity.
  - destruct (Ascii.eqb_spec c Path.slash) as [E|_]; [exfalso; exact (Hc c (or_introl eq_refl) E)|].
    rewrite IH by (intros c' H; exact (Hc c' (or_intror H))). f_equal. lia.
Qed.

Lemma basename_last (d x : string) :
  x <> ""%string -> ~ In Path.slash (Path.to_list x) ->
  basename (d ++ String Path.slash x) = x.
Proof.
  intros Hx Hs. unfold basename.
  rewrite to_list_app. simpl. rewrite rev_app_distr. simpl. rewrite <- app_assoc. simpl.
  destruct (rev (Path.to_list x)) as [|c cs] eqn:Er.
  { destruct x; [congruence|]. simpl in Er. apply (f_equal (@List.length ascii)) in Er.
    rewrite length_app in Er. simpl in Er. lia. }
  assert (Hlen : List.length (c :: cs) = String.length x)
    by (rewrite <- Er, length_rev; apply length_to_list).
  assert (Hin : forall a, In a (c :: cs) -> a <> Path.slash).
  { intros a Ha E. subst. apply Hs. rewrite <- (rev_involutive (Path.to_list x)), Er.
    apply in_rev. rewrite rev_involutive. exact Ha. }
  cbn [basename_scan List.app].
  destruct (Ascii.eqb_spec c Path.slash) as [E|_]; [exfalso; exact (Hin c (or_introl eq_refl) E)|].
  rewrite scan_no_slash by (intros a Ha; exact (Hin a (or_intror Ha))).
  cbn [basename_scan]. rewrite Ascii.eqb_refl. cbv beta iota.
  assert (HL : String.length (d ++ String Path.slash x) = (String.length d + S (String.length x))%nat)
    by (rewrite TermFacts.string_length_app; reflexivity).
  simpl in Hlen. rewrite HL.
  replace (S (pred (pred (String.length d + S (String.length x))) - List.length cs))
    with (String.length (d ++ String Path.slash "")) by (rewrite TermFacts.string_length_app; simpl; lia).
  replace (S (pred (String.length d + S (String.length x))))
    with (String.length (d ++ String Path.slash "") + String.length x)%nat
    by (rewrite TermFacts.string_length_app; simpl; lia).
  change (String Path.slash x) with (String Path.slash "" ++ x)%string.
  rewrite append_assoc. apply slice_mid.
Qed.

End EntryFacts.

(** ** [getEntryDesc] *)

(** The label [getEntryDesc] gives an entry ending in [/index] or
    [/index.mini] (as every page and child of the hierarchy has): the
    suffix is cut off, and then an entry under [node_modules/] is shown in
    an [external] span of what follows that prefix, any other entry by its
    last path segment. *)
Theorem getEntryDesc_index_entry (d x suf : string)
    (Hsuf : suf = "/index" \/ suf = "/index.mini")
    (Hx : x <> ""%string) (Hs : ~ In Path.slash (Path.to_list x)) :
  getEntryDesc (d ++ "/" ++ x ++ suf) strip_index =
  if JS.startsWith (d ++ "/" ++ x) "node_modules/"
  then {| ed_name := "<span class=" ++ dq ++ "external" ++ dq ++ ">"
                     ++ JS.slice_from (d ++ "/" ++ x) 13 ++ "</span>";
          ed_external := true |}
  else {| ed_name := x; ed_external := false |}.
Proof.
  unfold getEntryDesc.
  rewrite (EntryFacts.append_assoc "/" x suf), (EntryFacts.append_assoc d ("/" ++ x) suf).
  rewrite EntryFacts.strip_index_suffix by exact Hsuf.
  destruct (JS.startsWith (d ++ "/" ++ x) "node_modules/"); [reflexivity|].
  change ("/" ++ x)%string with (String Path.slash x).
  rewrite EntryFacts.basename_last by assumption. reflexivity.
Qed.

(** A witness: the page [pages/home/index] is labelled [home]. *)
Lemma getEntryDesc_index_entry_witness :
  ("/index" = "/index" \/ "/index" = "/index.mini") /\ "home" <> ""%string /\
  ~ In Path.slash (Path.to_list "home") /\
  getEntryDesc ("pages" ++ "/" ++ "home" ++ "/index") strip_index =
  {| ed_name := "home"; ed_external := false |}.
Proof.
  assert (Hsuf : "/index" = "/index" \/ "/index" = "/index.mini") by (left; reflexivity).
  assert (Hx : "home" <> ""%string) by discriminate.
  assert (Hs : ~ In Path.slash (Path.to_list "home")).
  { intros H. simpl in H. unfold Path.slash in H.
    repeat (destruct H as [H|H]; [discriminate H|]). exact H. }
  split; [exact Hsuf|]. split; [exact Hx|]. split; [exact Hs|].
  rewrite (getEntryDesc_index_entry "pages" "home" "/index" Hsuf Hx Hs).
  vm_compute. reflexivity.
Defined.

Module VisitFacts.

Lemma INode_ind' (P : INode -> Prop)
    (HE : forall name attrs po ch, Forall P ch -> P (Element name attrs po ch))
    (HT : forall v po, P (TextNode v po))
    (HO : forall ch, Forall P ch -> P (OtherNode ch)) :
  forall n, P n.
Proof.
  fix IH 1. intros [name attrs po ch|v po|ch].
  - apply HE. revert ch. fix IHl 1. intros [|x r]; constructor; [apply IH|apply IHl].
  - apply HT.
  - apply HO. revert ch. fix IHl 1. intros [|x r]; constructor; [apply IH|apply IHl].
Qed.

Section WithContent.

Variable content entry : string.

Lemma visit_element name attrs po ch deps errs :
  visit content entry (Element name attrs po ch) deps errs =
  if String.eqb name "" then visit_list content entry ch deps errs
  else
    let deps' := if assoc_has deps name then deps
                 else (deps ++ [(name, {| dep_node := Element name attrs po ch;
                                          dep_modulePath := None |})])%list in
    match check_attrs content entry attrs errs with
    | Ret errs' _ => visit_list content entry ch deps' errs'
    | Thrown errs' => Thrown errs'
    end.
Proof.
  cbn [visit]. destruct (String.eqb name "").
  - revert deps errs. induction ch as [|m r IH]; intros deps errs; [reflexivity|].
    simpl. destruct (visit content entry m deps errs); [apply IH|reflexivity].
  - cbv zeta. destruct (check_attrs content entry attrs errs) as [e []|e]; [|reflexivity].
    generalize (if assoc_has deps name then deps
                else (deps ++ [(name, {| dep_node := Element name attrs po ch;
                                         dep_modulePath := None |})])%list).
    clear deps errs. intros deps. revert deps e.
    induction ch as [|m r IH]; intros deps e; [reflexivity|].
    simpl. destruct (visit content entry m deps e); [apply IH|reflexivity].
Qed.

Lemma visit_other ch deps errs :
  visit content entry (OtherNode ch) deps errs = visit_list content entry ch deps errs.
Proof.
  cbn [visit]. revert deps errs. induction ch as [|m r IH]; intros deps errs; [reflexivity|].
  simpl. destruct (visit content entry m deps errs); [apply IH|reflexivity].
Qed.

Definition deps_ok (deps : list (string * IDependency)) : Prop :=
  NoDup (map fst deps) /\ forall nm d, In (nm, d) deps -> node_name (dep_node d) = nm.

Definition visit_spec (n : INode) : Prop :=
  forall deps errs errs' deps',
    visit content entry n deps errs = Ret errs' deps' -> deps_ok deps ->
    deps_ok deps' /\ forall x, In x (map fst deps') <-> In x (map fst deps) \/ In x (elem_names n).

Lemma assoc_has_keys {A} (l : list (string * A)) k : assoc_has l k = true <-> In k (map fst l).
Proof.
  unfold assoc_has. induction l as [|[k0 v0] r IH]; simpl; [split; [discriminate|intros []]|].
  destruct (String.eqb_spec k k0) as [->|Hne]; [split; auto|].
  rewrite IH. split; [auto|intros [H|H]; [congruence|exact H]].
Qed.

Lemma visit_list_spec ch :
  Forall visit_spec ch ->
  forall deps errs errs' deps',
    visit_list content entry ch deps errs = Ret errs' deps' -> deps_ok deps ->
    deps_ok deps' /\ forall x, In x (map fst deps') <-> In x (map fst deps) \/ In x (flat_map elem_names ch).
Proof.
  induction ch as [|m rest IH]; intros Hf deps errs errs' deps' H Hok; simpl in H.
  - injection H as <- <-. split; [exact Hok|]. simpl. tauto.
  - inversion Hf as [|? ? Hm Hr]; subst.
    destruct (visit content entry m deps errs) as [e1 d1|e1] eqn:E1; [|discriminate].
    destruct (Hm _ _ _ _ E1 Hok) as [Hok1 Hk1].
    destruct (IH Hr _ _ _ _ H Hok1) as [Hok2 Hk2].
    split; [exact Hok2|]. intros x. rewrite Hk2, Hk1. simpl. rewrite in_app_iff. tauto.
Qed.

Lemma visit_names : forall n, visit_spec n.
Proof.
  apply INode_ind'.
  - intros name attrs po ch Hch deps errs errs' deps' H Hok.
    rewrite visit_element in H. simpl elem_names.
    destruct (String.eqb_spec name "") as [->|Hne].
    + destruct (visit_list_spec ch Hch _ _ _ _ H Hok) as [Hok' Hk].
      split; [exact Hok'|]. intros x. rewrite Hk. simpl. tauto.
    + cbv zeta in H.
      destruct (check_attrs content entry attrs errs) as [e1 []|e1]; [|discriminate].
      set (deps1 := if assoc_has deps name then deps
                    else (deps ++ [(name, {| dep_node := Element name attrs po ch;
                                             dep_modulePath := None |})])%list) in H.
      assert (Hok1 : deps_ok deps1 /\
                     forall x, In x (map fst deps1) <-> In x (map fst deps) \/ name = x).
      { unfold deps1. destruct (assoc_has deps name) eqn:Eh.
        - split; [exact Hok|]. apply assoc_has_keys in Eh. intros x.
          split; [tauto|intros [Hx|<-]; assumption].
        - destruct Hok as [Hnd Hnm]. split; [split|].
          + rewrite map_app. apply TermFacts.NoDup_snoc; [exact Hnd|].
            intros Hin. simpl in Hin. apply assoc_has_keys in Hin. congruence.
          + intros nm d Hin. apply in_app_or in Hin. destruct Hin as [Hin|[Heq|[]]];
              [exact (Hnm nm d Hin)|injection Heq as <- <-; reflexivity].
          + intros x. rewrite map_app, in_app_iff. simpl. tauto. }
      destruct Hok1 as [Hok1 Hk1].
      destruct (visit_list_spec ch Hch _ _ _ _ H Hok1) as [Hok' Hk].
      split; [exact Hok'|]. intros x. rewrite Hk, Hk1, in_app_iff. simpl. tauto.
  - intros v po deps errs errs' deps' H Hok. simpl in H.
    destruct (check_text content entry v po errs) as [e1 []|e1]; [|discriminate].
    injection H as <- <-. split; [exact Hok|]. simpl. tauto.
  - intros ch Hch deps errs errs' deps' H Hok. rewrite visit_other in H.
    exact (visit_list_spec ch Hch _ _ _ _ H Hok).
Qed.

End WithContent.

Lemma resolve_deps_keeps content entry defs deps unused errs errs' ds un :
  resolve_deps content entry defs deps unused errs = Ret errs' (ds, un) ->
  map (fun '(n, d) => (n, dep_node d)) ds = map (fun '(n, d) => (n, dep_node d)) deps.
Proof.
  revert unused errs errs' ds un.
  induction deps as [|[name d] rest IH]; intros unused errs errs' ds un H; cbn [resolve_deps] in H.
  - injection H as <- <- <-. reflexivity.
  - destruct (isBuiltIn name).
    + destruct (resolve_deps content entry defs rest unused errs) as [e1 [ds1 un1]|e1] eqn:E;
        [|discriminate].
      injection H as <- <- <-. simpl. rewrite (IH _ _ _ _ _ E). reflexivity.
    + destruct (assoc_get defs name) as [p|].
      * destruct (resolve_deps content entry defs rest (assoc_delete unused name) errs)
          as [e1 [ds1 un1]|e1] eqn:E; [|discriminate].
        injection H as <- <- <-. simpl. rewrite (IH _ _ _ _ _ E). reflexivity.
      * destruct (reprStr content (element_offset (node_posOpen (dep_node d)))
                    ("Undefined component: " ++ name)) as [r|]; [|discriminate].
        destruct (resolve_deps content entry defs rest unused
                    (addError errs entry [Some r] Fatal)) as [e1 [ds1 un1]|e1] eqn:E;
          [|discriminate].
        injection H as <- <- <-. simpl. rewrite (IH _ _ _ _ _ E). reflexivity.
Qed.

End VisitFacts.

(** ** [extractComponents] *)

(** When [extractComponents] returns, it returns one dependency per
    distinct element name of the markup: the names of the dependencies'
    nodes are pairwise distinct and are exactly the non-empty element
    names of the tree. *)
Theorem extractComponents_one_dep_per_name (entry : string) (definitions : list (string * string))
    (mk : Markup) (errs errs' : Errors) (deps : list IDependency)
    (H : extractComponents entry definitions mk errs = Ret errs' deps) :
  NoDup (map (fun d => node_name (dep_node d)) deps) /\
  forall x, In x (map (fun d => node_name (dep_node d)) deps) <-> In x (elem_names (mk_root mk)).
Proof.
  unfold extractComponents in H.
  destruct (match mk_warnings mk with
            | [] => Some errs
            | ws => match map_reprStr (mk_content mk) ws with
                    | Some rs => Some (addError errs entry (map Some rs) Warning)
                    | None => None
                    end
            end) as [errs1|]; [|discriminate].
  destruct (visit (mk_content mk) entry (mk_root mk) [] errs1) as [errs2 vdeps|]
    eqn:Ev; [|discriminate].
  destruct (resolve_deps (mk_content mk) entry definitions vdeps definitions errs2)
    as [errs3 [ds unused]|] eqn:Er; [|discriminate].
  injection H as _ <-.
  assert (Hok0 : VisitFacts.deps_ok []) by (split; [constructor|intros nm d []]).
  destruct (VisitFacts.visit_names (mk_content mk) entry (mk_root mk) [] errs1 errs2 vdeps Ev Hok0)
    as [[Hnd Hnm] Hk].
  pose proof (VisitFacts.resolve_deps_keeps _ _ _ _ _ _ _ _ _ Er) as Hkeep.
  assert (Hm : map (fun d => node_name (dep_node d)) (map snd ds) = map fst vdeps).
  { rewrite map_map.
    transitivity (map (fun p => node_name (snd p)) (map (fun '(n, d) => (n, dep_node d)) ds)).
    { rewrite map_map. apply map_ext. intros [n d]. reflexivity. }
    rewrite Hkeep, map_map. apply map_ext_in. intros [n d] Hin. simpl. exact (Hnm n d Hin). }
  rewrite Hm. split; [exact Hnd|]. intros x. rewrite Hk. simpl. tauto.
Qed.

(** A witness: a markup using [b] twice and [view] once gives two
    dependencies. *)
Lemma extractComponents_one_dep_per_name_witness :
  let mk := mkMarkup "<b/><b/><view/>"
              (OtherNode [Element "b" [] (Some (mkSpan 0 4)) [];
                          Element "b" [] (Some (mkSpan 4 8)) [];
                          Element "view" [] (Some (mkSpan 8 15)) []]) [] in
  let r := extractComponents "pages/a/index" [("b", "components/b/index")] mk emptyErrors in
  exists errs' deps, r = Ret errs' deps /\ List.length deps = 2%nat /\
    NoDup (map (fun d => node_name (dep_node d)) deps) /\
    forall x, In x (map (fun d => node_name (dep_node d)) deps) <-> In x (elem_names (mk_root mk)).
Proof.
  intros mk r.
  exists (match r with Ret e _ => e | Thrown e => e end), (match r with Ret _ d => d | Thrown _ => [] end).
  assert (E : r = Ret (match r with Ret e _ => e | Thrown e => e end)
                      (match r with Ret _ d => d | Thrown _ => [] end)) by (vm_compute; reflexivity).
  split; [exact E|]. split; [vm_compute; reflexivity|].
  exact (extractComponents_one_dep_per_name _ _ _ _ _ _ E).
Defined.

Module UnusedFacts.

Lemma keys_filter {A} (g : string -> bool) (l : list (string * A)) :
  map fst (filter (fun '(k, _) => g k) l) = filter g (map fst l).
Proof.
  induction l as [|[k v] r IH]; simpl; [reflexivity|].
  destruct (g k); simpl; rewrite IH; reflexivity.
Qed.

Lemma filter_true {A} (f : A -> bool) l : (forall x, In x l -> f x = true) -> filter f l = l.
Proof.
  induction l as [|x r IH]; simpl; intros H; [reflexivity|].
  rewrite (H x (or_introl eq_refl)), IH by auto. reflexivity.
Qed.

Lemma filter_filter' {A} (f g : A -> bool) l :
  filter f (filter g l) = filter (fun x => g x && f x) l.
Proof.
  induction l as [|x r IH]; simpl; [reflexivity|].
  destruct (g x); simpl; [destruct (f x); simpl; rewrite IH; reflexivity|exact IH].
Qed.

Lemma delete_filter {A} (l : list (string * A)) k :
  NoDup (map fst l) -> assoc_delete l k = filter (fun '(k', _) => negb (String.eqb k k')) l.
Proof.
  induction l as [|[k0 v0] r IH]; simpl; intros Hnd; [reflexivity|].
  inversion Hnd as [|? ? Hk Hr]; subst.
  destruct (String.eqb_spec k k0) as [->|Hne]; simpl.
  - symmetry. apply filter_true. intros [k' v'] Hin. simpl.
    destruct (String.eqb_spec k0 k'); [|reflexivity].
    subst. exfalso. apply Hk. apply (in_map fst) in Hin. exact Hin.
  - rewrite IH by exact Hr. reflexivity.
Qed.

Lemma In_get_some {A} (l : list (string * A)) k v : In (k, v) l -> assoc_get l k <> None.
Proof.
  induction l as [|[k0 v0] r IH]; simpl; [intros []|].
  intros [Heq|Hin]; destruct (String.eqb k k0) eqn:E; try discriminate.
  - injection Heq as -> ->. rewrite String.eqb_refl in E. discriminate.
  - exact (IH Hin).
Qed.

(** The names of the loop that remove an entry of [unused]. *)
Definition used (deps : list (string * IDependency)) (k : string) : bool :=
  existsb (fun n => negb (isBuiltIn n) && String.eqb n k) (map fst deps).

Lemma resolve_unused content entry defs deps : forall unused errs errs' ds un,
  resolve_deps content entry defs deps unused errs = Ret errs' (ds, un) ->
  NoDup (map fst unused) ->
  (forall k, In k (map fst unused) -> assoc_get defs k <> None) ->
  un = filter (fun '(k, _) => negb (used deps k)) unused.
Proof.
  induction deps as [|[name d] rest IH]; intros unused errs errs' ds un H Hnd Hsub;
    cbn [resolve_deps] in H.
  - injection H as _ _ <-. symmetry. apply filter_true. intros [k v] _. reflexivity.
  - unfold used. cbn [map existsb fst].
    destruct (isBuiltIn name) eqn:Eb.
    + destruct (resolve_deps content entry defs rest unused errs) as [e1 [ds1 un1]|e1] eqn:E;
        [|discriminate].
      injection H as _ _ <-. rewrite (IH _ _ _ _ _ E Hnd Hsub).
      apply filter_ext. intros [k v]. reflexivity.
    + destruct (assoc_get defs name) as [p|] eqn:Ed.
      * destruct (resolve_deps content entry defs rest (assoc_delete unused name) errs)
          as [e1 [ds1 un1]|e1] eqn:E; [|discriminate].
        injection H as _ _ <-.
        rewrite delete_filter in E by exact Hnd.
        assert (Hnd' : NoDup (map fst (filter (fun '(k', _) => negb (String.eqb name k')) unused))).
        { rewrite (keys_filter (fun k' => negb (String.eqb name k'))). apply NoDup_filter, Hnd. }
        assert (Hsub' : forall k, In k (map fst (filter (fun '(k', _) => negb (String.eqb name k')) unused)) ->
                          assoc_get defs k <> None).
        { intros k Hk. rewrite (keys_filter (fun k' => negb (String.eqb name k'))) in Hk.
          apply filter_In in Hk. exact (Hsub k (proj1 Hk)). }
        rewrite (IH _ _ _ _ _ E Hnd' Hsub'), filter_filter'.
        apply filter_ext. intros [k v]. simpl. destruct (String.eqb name k); reflexivity.
      * destruct (reprStr content (element_offset (node_posOpen (dep_node d)))
                    ("Undefined component: " ++ name)) as [r|]; [|discriminate].
        destruct (resolve_deps content entry defs rest unused
                    (addError errs entry [Some r] Fatal)) as [e1 [ds1 un1]|e1] eqn:E;
          [|discriminate].
        injection H as _ _ <-. rewrite (IH _ _ _ _ _ E Hnd Hsub).
        apply filter_ext_in. intros [k v] Hin. simpl.
        destruct (String.eqb_spec name k) as [->|]; [|reflexivity].
        exfalso. apply (in_map fst) in Hin. exact (Hsub k Hin Ed).
Qed.

End UnusedFacts.

(** [extractComponents] ends by warning [Unused definition], in the order
    of the definitions, about exactly the aliases that are built-in names
    or are the name of no element of the markup. *)
Theorem extractComponents_reports_unused (entry : string) (definitions : list (string * string))
    (mk : Markup) (errs errs' : Errors) (deps : list IDependency)
    (Hnd : NoDup (map fst definitions))
    (H : extractComponents entry definitions mk errs = Ret errs' deps) :
  exists errs3, errs' = report_unused entry
    (filter (fun '(k, _) => isBuiltIn k || negb (existsb (String.eqb k) (elem_names (mk_root mk))))
       definitions) errs3.
Proof.
  unfold extractComponents in H.
  destruct (match mk_warnings mk with
            | [] => Some errs
            | ws => match map_reprStr (mk_content mk) ws with
                    | Some rs => Some (addError errs entry (map Some rs) Warning)
                    | None => None
                    end
            end) as [errs1|]; [|discriminate].
  destruct (visit (mk_content mk) entry (mk_root mk) [] errs1) as [errs2 vdeps|]
    eqn:Ev; [|discriminate].
  destruct (resolve_deps (mk_content mk) entry definitions vdeps definitions errs2)
    as [errs3 [ds unused]|] eqn:Er; [|discriminate].
  injection H as <- _. exists errs3. f_equal.
  assert (Hok0 : VisitFacts.deps_ok []) by (split; [constructor|intros nm d []]).
  destruct (VisitFacts.visit_names (mk_content mk) entry (mk_root mk) [] errs1 errs2 vdeps Ev Hok0)
    as [_ Hk].
  rewrite (UnusedFacts.resolve_unused _ _ _ _ _ _ _ _ _ Er Hnd).
  2:{ intros k Hin. apply in_map_iff in Hin. destruct Hin as [[k' v] [<- Hin]].
      exact (UnusedFacts.In_get_some definitions k' v Hin). }
  apply filter_ext. intros [k v].
  unfold UnusedFacts.used.
  destruct (isBuiltIn k) eqn:Eb; simpl.
  - destruct (existsb (fun n => negb (isBuiltIn n) && String.eqb n k) (map fst vdeps)) eqn:Ex;
      [|reflexivity].
    apply existsb_exists in Ex. destruct Ex as [n [_ Hn]].
    apply andb_prop in Hn. destruct Hn as [Hn He]. apply String.eqb_eq in He. subst. congruence.
  - f_equal.
    destruct (existsb (fun n => negb (isBuiltIn n) && String.eqb n k) (map fst vdeps)) eqn:Ex;
      destruct (existsb (String.eqb k) (elem_names (mk_root mk))) eqn:Ey; try reflexivity.
    + apply existsb_exists in Ex. destruct Ex as [n [Hin Hn]].
      apply andb_prop in Hn. destruct Hn as [_ He]. apply String.eqb_eq in He. subst n.
      apply Hk in Hin. simpl in Hin. destruct Hin as [[]|Hin].
      rewrite <- Ey. symmetry. apply existsb_exists. exists k. split; [exact Hin|apply String.eqb_refl].
    + apply existsb_exists in Ey. destruct Ey as [n [Hin He]]. apply String.eqb_eq in He. subst n.
      rewrite <- Ex. apply existsb_exists. exists k. split.
      * apply Hk. right. exact Hin.
      * rewrite Eb, String.eqb_refl. reflexivity.
Qed.

(** A witness: with aliases [b], [view] (a built-in name) and [c] (used by
    no element), the warnings are about [view] and [c]. *)
Lemma extractComponents_reports_unused_witness :
  let mk := mkMarkup "<b/><view/>"
              (OtherNode [Element "b" [] (Some (mkSpan 0 4)) [];
                          Element "view" [] (Some (mkSpan 4 11)) []]) [] in
  let defs := [("b", "components/b/index"); ("view", "components/view/index");
               ("c", "components/c/index")] in
  let r := extractComponents "pages/a/index" defs mk emptyErrors in
  NoDup (map fst defs) /\
  exists errs' deps, r = Ret errs' deps /\
    filter (fun '(k, _) => isBuiltIn k || negb (existsb (String.eqb k) (elem_names (mk_root mk))))
      defs = [("view", "components/view/index"); ("c", "components/c/index")] /\
    exists errs3, errs' = report_unused "pages/a/index"
      (filter (fun '(k, _) => isBuiltIn k || negb (existsb (String.eqb k) (elem_names (mk_root mk))))
         defs) errs3.
Proof.
  intros mk defs r.
  assert (Hnd : NoDup (map fst defs)).
  { repeat constructor; cbn; intuition discriminate. }
  split; [exact Hnd|].
  exists (match r with Ret e _ => e | Thrown e => e end), (match r with Ret _ d => d | Thrown _ => [] end).
  assert (E : r = Ret (match r with Ret e _ => e | Thrown e => e end)
                      (match r with Ret _ d => d | Thrown _ => [] end)) by (vm_compute; reflexivity).
  split; [exact E|]. split; [vm_compute; reflexivity|].
  exact (extractComponents_reports_unused _ _ _ _ _ _ Hnd E).
Defined.

Module GrowFacts.

Lemma le_refl e : errs_le e e.
Proof. split; intros k v H; exists []; rewrite app_nil_r; exact H. Qed.

Lemma le_trans e1 e2 e3 : errs_le e1 e2 -> errs_le e2 e3 -> errs_le e1 e3.
Proof.
  intros [F1 W1] [F2 W2]. split; intros k v H.
  - destruct (F1 k v H) as [w1 H1]. destruct (F2 k _ H1) as [w2 H2].
    exists (w1 ++ w2)%list. rewrite app_assoc. exact H2.
  - destruct (W1 k v H) as [w1 H1]. destruct (W2 k _ H1) as [w2 H2].
    exists (w1 ++ w2)%list. rewrite app_assoc. exact H2.
Qed.

Lemma push_le l k items : ledger_le l (ledger_push l k items).
Proof.
  intros k' v H. rewrite LedgerFacts.ledger_push_get.
  destruct (String.eqb_spec k' k) as [->|]; [|exists []; rewrite app_nil_r; exact H].
  rewrite H. exists items. reflexivity.
Qed.

Lemma addError_le e entry items t : errs_le e (addError e entry items t).
Proof.
  destruct t; simpl; split; try apply push_le; intros k v H; exists []; rewrite app_nil_r; exact H.
Qed.

Section WithContent.

Variable content entry : string.

Lemma check_attrs_le attrs : forall errs, errs_le errs (outcome_errs (check_attrs content entry attrs errs)).
Proof.
  induction attrs as [|a rest IH]; intros errs; simpl; [apply le_refl|].
  destruct (at_value a) as [v|]; [|apply IH].
  destruct (unmatched v); [|apply IH].
  destruct (reprStr content (at_end a) "Unmatched brackets") as [r|]; [|apply le_refl].
  apply (le_trans _ (addError errs entry [Some r] Warning)); [apply addError_le|apply IH].
Qed.

Lemma check_text_le v po errs : errs_le errs (outcome_errs (check_text content entry v po errs)).
Proof.
  unfold check_text. destruct (negb (String.eqb v "") && unmatched v); [|apply le_refl].
  destruct (reprStr content (text_offset po) "Unmatched brackets"); [apply addError_le|apply le_refl].
Qed.

Lemma visit_list_le ch :
  Forall (fun n => forall deps errs, errs_le errs (outcome_errs (visit content entry n deps errs))) ch ->
  forall deps errs, errs_le errs (outcome_errs (visit_list content entry ch deps errs)).
Proof.
  induction ch as [|m rest IH]; intros Hf deps errs; simpl; [apply le_refl|].
  inversion Hf as [|? ? Hm Hr]; subst. specialize (Hm deps errs).
  destruct (visit content entry m deps errs) as [e1 d1|e1]; simpl in Hm; [|exact Hm].
  exact (le_trans _ _ _ Hm (IH Hr d1 e1)).
Qed.

Lemma visit_le : forall n deps errs, errs_le errs (outcome_errs (visit content entry n deps errs)).
Proof.
  apply (VisitFacts.INode_ind' (fun n => forall deps errs,
           errs_le errs (outcome_errs (visit content entry n deps errs)))).
  - intros name attrs po ch Hch deps errs. rewrite VisitFacts.visit_element.
    destruct (String.eqb name ""); [apply visit_list_le, Hch|]. cbv zeta.
    pose proof (check_attrs_le attrs errs) as Ha.
    destruct (check_attrs content entry attrs errs) as [e1 []|e1]; simpl in Ha; [|exact Ha].
    exact (le_trans _ _ _ Ha (visit_list_le ch Hch _ e1)).
  - intros v po deps errs. simpl. pose proof (check_text_le v po errs) as Ht.
    destruct (check_text content entry v po errs) as [e1 []|e1]; exact Ht.
  - intros ch Hch deps errs. rewrite VisitFacts.visit_other. apply visit_list_le, Hch.
Qed.

Lemma resolve_le defs deps : forall unused errs,
  errs_le errs (match resolve_deps content entry defs deps unused errs with
                | Ret e _ => e | Thrown e => e end).
Proof.
  induction deps as [|[name d] rest IH]; intros unused errs; cbn [resolve_deps]; [apply le_refl|].
  destruct (isBuiltIn name).
  - specialize (IH unused errs).
    destruct (resolve_deps content entry defs rest unused errs) as [e1 [ds un]|e1]; exact IH.
  - destruct (assoc_get defs name) as [p|].
    + specialize (IH (assoc_delete unused name) errs).
      destruct (resolve_deps content entry defs rest (assoc_delete unused name) errs)
        as [e1 [ds un]|e1]; exact IH.
    + destruct (reprStr content (element_offset (node_posOpen (dep_node d)))
                  ("Undefined component: " ++ name)) as [r|]; [|apply le_refl].
      specialize (IH unused (addError errs entry [Some r] Fatal)).
      apply (le_trans _ _ _ (addError_le errs entry [Some r] Fatal)).
      destruct (resolve_deps content entry defs rest unused (addError errs entry [Some r] Fatal))
        as [e1 [ds un]|e1]; exact IH.
Qed.

Lemma report_unused_le un : forall errs, errs_le errs (report_unused entry un errs).
Proof.
  unfold report_unused. induction un as [|[name p] rest IH]; intros errs; cbn [fold_left];
    [apply le_refl|].
  exact (le_trans _ _ _ (addError_le _ _ _ _) (IH _)).
Qed.

End WithContent.

Lemma extractComponents_le entry defs mk errs :
  errs_le errs (outcome_errs (extractComponents entry defs mk errs)).
Proof.
  unfold extractComponents.
  assert (Hw : match match mk_warnings mk with
                     | [] => Some errs
                     | ws => match map_reprStr (mk_content mk) ws with
                             | Some rs => Some (addError errs entry (map Some rs) Warning)
                             | None => None
                             end
                     end with Some e => errs_le errs e | None => True end).
  { destruct (mk_warnings mk) as [|w ws]; [apply le_refl|].
    destruct (map_reprStr (mk_content mk) (w :: ws)); [apply addError_le|exact I]. }
  destruct (match mk_warnings mk with
            | [] => Some errs
            | ws => match map_reprStr (mk_content mk) ws with
                    | Some rs => Some (addError errs entry (map Some rs) Warning)
                    | None => None
                    end
            end) as [errs1|]; [|apply le_refl].
  pose proof (visit_le (mk_content mk) entry (mk_root mk) [] errs1) as Hv.
  destruct (visit (mk_content mk) entry (mk_root mk) [] errs1) as [errs2 vdeps|errs2];
    simpl in Hv; [|exact (le_trans _ _ _ Hw Hv)].
  pose proof (resolve_le (mk_content mk) entry defs vdeps defs errs2) as Hr.
  destruct (resolve_deps (mk_content mk) entry defs vdeps defs errs2) as [errs3 [ds un]|errs3];
    simpl; [|exact (le_trans _ _ _ Hw (le_trans _ _ _ Hv Hr))].
  apply (le_trans _ _ _ Hw), (le_trans _ _ _ Hv), (le_trans _ _ _ Hr), report_unused_le.
Qed.

Lemma collect_defs_le proj entry uc : forall defs errs,
  errs_le errs (snd (collect_defs proj entry uc defs errs)).
Proof.
  induction uc as [|[key value] rest IH]; intros defs errs; cbn [collect_defs];
    [apply le_refl|]. cbv zeta.
  destruct (isFile proj (modulePathOf entry value ++ ".json")); [apply IH|].
  exact (le_trans _ _ _ (addError_le _ _ _ _) (IH _ _)).
Qed.

Section WithProject.

Variable proj : Project.

Lemma check_defs_grows (rec : string -> Scanner -> Run)
    (Hrec : forall p s, run_grows (errors s) (rec p s)) ds :
  forall s, run_grows (errors s) (check_defs rec ds s).
Proof.
  induction ds as [|[k p] rest IH]; intros s; simpl; [apply le_refl|].
  destruct (assoc_has (components s) p); [apply IH|].
  pose proof (Hrec p s) as H.
  destruct (rec p s) as [s1|s1|]; simpl in H; [|exact H|exact I].
  pose proof (IH s1) as H1.
  destruct (check_defs rec rest s1); simpl in *; try exact I; exact (le_trans _ _ _ H H1).
Qed.

Lemma checkComponent_grows fuel : forall e s, run_grows (errors s) (checkComponent proj fuel e s).
Proof.
  induction fuel as [|f IH]; intros e s; simpl; [exact I|].
  destruct (assoc_has (components s) e); [apply le_refl|].
  unfold check_new_component.
  destruct (firstMissing proj e); [exact (addError_le _ _ _ _)|].
  destruct (p_manifest proj (e ++ ".json")) as [uc|]; [|apply le_refl].
  unfold extractDefinitions.
  pose proof (collect_defs_le proj e uc [] (errors (log_entry s e))) as Hd.
  destruct (collect_defs proj e uc [] (errors (log_entry s e))) as [defs errs1]. simpl in Hd.
  pose proof (extractComponents_le e defs (p_markup proj (e ++ ".axml")) errs1) as Hx.
  assert (Hgen : forall st1, errs_le (errors s) (errors st1) ->
                   run_grows (errors s) (check_defs (checkComponent proj f) defs st1)).
  { intros st1 H1. pose proof (check_defs_grows (checkComponent proj f) IH defs st1) as H2.
    destruct (check_defs (checkComponent proj f) defs st1); simpl in *; try exact I;
      exact (le_trans _ _ _ H1 H2). }
  destruct (extractComponents e defs (p_markup proj (e ++ ".axml")) errs1) as [e2 ds|e2];
    simpl in Hx; apply Hgen; simpl; [exact (le_trans _ _ _ Hd Hx)|].
  exact (le_trans _ _ _ Hd (le_trans _ _ _ Hx (addError_le e2 e [None] Fatal))).
Qed.

Lemma checkPages_grows fuel ps : forall s, run_grows (errors s) (checkPages proj fuel ps s).
Proof.
  induction ps as [|page rest IH]; intros s; simpl; [apply le_refl|].
  pose proof (checkComponent_grows fuel page (add_page s page)) as H. simpl in H.
  destruct (checkComponent proj fuel page (add_page s page)) as [s1|s1|]; simpl in H;
    [|exact H|exact I].
  pose proof (IH s1) as H1.
  destruct (checkPages proj fuel rest s1); simpl in *; try exact I; exact (le_trans _ _ _ H H1).
Qed.

Lemma fold_addError_le t l : forall e,
  errs_le e (fold_left (fun e u => addError e t [Some (msgError u)] Warning) l e).
Proof.
  induction l as [|x r IH]; intros e; cbn [fold_left]; [apply le_refl|].
  exact (le_trans _ _ _ (addError_le _ _ _ _) (IH _)).
Qed.

Lemma checkUnused_le s : errs_le (errors s) (errors (checkUnused proj s)).
Proof.
  unfold checkUnused. destruct (orphans proj (components s)) as [|u us]; [apply le_refl|].
  exact (fold_addError_le _ _ _).
Qed.

End WithProject.

End GrowFacts.

(** ** Errors are only ever added *)

(** From the point [checkApp] starts, nothing recorded in either ledger is
    removed or changed: whether the run ends normally or by an escaping
    exception, every list of the ledgers it started with is a prefix of the
    list under the same key at the end, and [checkUnused] only extends the
    ledgers in turn. *)
Theorem check_errors_only_grow (proj : Project) (fuel : nat) (s : Scanner) :
  run_grows (errors s) (checkApp proj fuel s) /\
  errs_le (errors s) (errors (checkUnused proj s)).
Proof.
  split; [apply GrowFacts.checkPages_grows|apply GrowFacts.checkUnused_le].
Qed.
